(** * Hybrid information retrieval: evaluator, hybrid ranker, Rocchio feedback
      and lexical index persistence

    A shallow embedding of [src/eval.py], [src/hybrid_retrieve.py],
    [src/retrieve.py], [src/feedback.py], [src/preprocess.py],
    [src/indexer.py], [src/semantic_index.py] and the phrase extraction and
    selection of [src/expand.py].

    Numbers.  Python [int] is [Z].  Python [float] is idealised as an exact
    number: [Q] where the code only adds and divides integers (precision,
    average precision), [R] where it needs [log2] or a square root (DCG,
    cosine similarity, the Euclidean norm).  Rounding is not modelled.

    Errors.  A Python exception is a value of [exn]; a function that can raise
    returns [result A]. *)

From Stdlib Require Import ZArith QArith Qfield Reals Lra Lia Permutation Sorted.
From stdpp Require Import base decidable option list sorting gmap strings pretty.

(** ** Exceptions and the error monad *)

Inductive exn : Set :=
  | ZeroDivisionError
  | AssertionError
  | ValueError
  | IndexError
  | FileNotFoundError.

Inductive result (A : Type) : Type :=
  | Ok (a : A)
  | Raise (e : exn).
Arguments Ok {A} a.
Arguments Raise {A} e.

Definition rbind {A B : Type} (m : result A) (f : A → result B) : result B :=
  match m with
  | Ok a => f a
  | Raise e => Raise e
  end.

Notation "x ←ᵣ m ;; k" := (rbind m (λ x, k))
  (at level 100, m at next level, right associativity, only parsing).

Definition is_ok {A : Type} (m : result A) : Prop := ∃ a, m = Ok a.

(** ** Python sequences *)

(** [l[:k]] for a Python [int] [k]: a negative [k] counts from the end. *)
Definition py_prefix {A : Type} (l : list A) (k : Z) : list A :=
  if (k <? 0)%Z
  then take (Z.to_nat (Z.max 0 (Z.of_nat (length l) + k))) l
  else take (Z.to_nat k) l.

(** [enumerate(l, start)] *)
Fixpoint enumerate {A : Type} (l : list A) (start : Z) : list (Z * A) :=
  match l with
  | [] => []
  | x :: rest => (start, x) :: enumerate rest (start + 1)
  end.

(** ** [src/eval.py] *)

Module Eval.

(** Python's [a / b] on two [int]s: true division, [ZeroDivisionError] when
    [b] is [0]. *)
Definition truediv (a b : Z) : result Q :=
  if (b =? 0)%Z then Raise ZeroDivisionError else Ok (inject_Z a / inject_Z b)%Q.

(** [x / n] for a [float] [x] and an [int] [n]. *)
Definition fdiv (x : Q) (n : Z) : result Q :=
  if (n =? 0)%Z then Raise ZeroDivisionError else Ok (x / inject_Z n)%Q.

(** [sum(1 for d in l if d in relevant_set)] *)
Definition count_in (relevant_set : gset string) (l : list string) : Z :=
  foldl (λ acc d, if bool_decide (d ∈ relevant_set) then (acc + 1)%Z else acc) 0%Z l.

Definition precision_at_k (retrieved_ids : list string) (relevant_set : gset string)
    (k : Z) : result Q :=
  let retrieved_k := py_prefix retrieved_ids k in
  let rel := count_in relevant_set retrieved_k in
  truediv rel k.

(** The loop of [average_precision], over [enumerate(retrieved_ids, start=1)];
    the state is [(hits, sum_prec)]. *)
Fixpoint ap_loop (relevant_set : gset string) (items : list (Z * string))
    (hits : Z) (sum_prec : Q) : result (Z * Q) :=
  match items with
  | [] => Ok (hits, sum_prec)
  | (i, d) :: rest =>
      if bool_decide (d ∈ relevant_set) then
        let hits' := (hits + 1)%Z in
        p ←ᵣ truediv hits' i ;;
        ap_loop relevant_set rest hits' (sum_prec + p)%Q
      else ap_loop relevant_set rest hits sum_prec
  end.

Definition average_precision (retrieved_ids : list string) (relevant_set : gset string)
    : result Q :=
  st ←ᵣ ap_loop relevant_set (enumerate retrieved_ids 1) 0 0 ;;
  let '(hits, sum_prec) := st in
  if (hits =? 0)%Z then Ok 0%Q
  else fdiv sum_prec (Z.of_nat (size relevant_set)).

(** [math.log2] *)
Definition log2 (x : R) : R := (ln x / ln 2)%R.

(** One iteration of the accumulation shared by [dcg_at_k] and the ideal-DCG
    loop of [ndcg_at_k]: rank 1 adds the relevance itself, a later rank [i]
    adds [rel / math.log2(i)]. *)
Definition dcg_add (acc : R) (i : Z) (rel : R) : R :=
  if (i =? 1)%Z then (acc + rel)%R else (acc + rel / log2 (IZR i))%R.

Fixpoint dcg_loop (relevant_set : gset string) (items : list (Z * string)) (dcg : R) : R :=
  match items with
  | [] => dcg
  | (i, d) :: rest =>
      let rel_i := if bool_decide (d ∈ relevant_set) then 1%R else 0%R in
      dcg_loop relevant_set rest (dcg_add dcg i rel_i)
  end.

Definition dcg_at_k (retrieved_ids : list string) (relevant_set : gset string) (k : Z) : R :=
  dcg_loop relevant_set (enumerate (py_prefix retrieved_ids k) 1) 0%R.

(** [sorted(l, reverse=True)] on a list of [int]s. *)
Definition sorted_reverse (l : list Z) : list Z := merge_sort Z.ge l.

Fixpoint idcg_loop (items : list (Z * Z)) (idcg : R) : R :=
  match items with
  | [] => idcg
  | (i, rel) :: rest => idcg_loop rest (dcg_add idcg i (IZR rel))
  end.

(** [sorted([1]*len(relevant_set) + [0]*100, reverse=True)[:k]] *)
Definition ideal (relevant_set : gset string) (k : Z) : list Z :=
  py_prefix (sorted_reverse (replicate (size relevant_set) 1%Z ++ replicate 100 0%Z)) k.

Definition idcg_at_k (relevant_set : gset string) (k : Z) : R :=
  idcg_loop (enumerate (ideal relevant_set k) 1) 0%R.

Definition ndcg_at_k (retrieved_ids : list string) (relevant_set : gset string) (k : Z) : R :=
  let dcg := dcg_at_k retrieved_ids relevant_set k in
  let idcg := idcg_at_k relevant_set k in
  if Rlt_dec 0 idcg then (dcg / idcg)%R else 0%R.

End Eval.

(** ** The evaluator's metrics as the specification words them

    These definitions follow the specification text (section 4.6), not the
    code; the theorems below compare them with [Eval]. Ranks are 1-based,
    positions 0-based. *)

Module EvalSpec.

(** The id at position [i] of the retrieved sequence exists and is relevant. *)
Definition relevant_at (ids : list string) (rs : gset string) (i : nat) : Prop :=
  ∃ d, ids !! i = Some d ∧ d ∈ rs.

#[export] Instance relevant_at_dec ids rs i : Decision (relevant_at ids rs i).
Proof.
  unfold relevant_at. destruct (ids !! i) as [d|] eqn:E.
  - destruct (decide (d ∈ rs)) as [Hd|Hd].
    + left. eauto.
    + right. intros (d' & [= <-] & ?). done.
  - right. intros (d' & [=] & _).
Defined.

(** Number of the first [n] retrieved ids that are in the relevant set. *)
Definition hits_in_first (ids : list string) (rs : gset string) (n : nat) : nat :=
  length (filter (relevant_at ids rs) (seq 0 n)).

(** Precision at rank [r]: hits among the first [r] ids, divided by [r]. *)
Definition prec_at (ids : list string) (rs : gset string) (r : nat) : Q :=
  (inject_Z (Z.of_nat (hits_in_first ids rs r)) / inject_Z (Z.of_nat r))%Q.

(** The ranks of the full retrieved list that hold a relevant document. *)
Definition hit_ranks (ids : list string) (rs : gset string) : list nat :=
  filter (λ r, relevant_at ids rs (pred r)) (seq 1 (length ids)).

Definition Qsum (l : list Q) : Q := foldr Qplus 0%Q l.

(** Sum of precision-at-each-hit-rank. *)
Definition ap_sum (ids : list string) (rs : gset string) : Q :=
  Qsum (map (prec_at ids rs) (hit_ranks ids rs)).

(** Discount of rank [r]: none at rank 1, [1 / log2 r] after. *)
Definition disc (r : nat) : R :=
  if decide (r = 1%nat) then 1%R else (1 / Eval.log2 (INR r))%R.

Definition Rsum (l : list R) : R := foldr Rplus 0%R l.

(** Binary-relevance gain of rank [r]. *)
Definition gain (ids : list string) (rs : gset string) (r : nat) : R :=
  if decide (relevant_at ids rs (pred r)) then disc r else 0%R.

(** DCG over the first [n] ranks. *)
Definition dcg_sum (ids : list string) (rs : gset string) (n : nat) : R :=
  Rsum (map (gain ids rs) (seq 1 n)).

(** Ideal DCG: [m] ones, padded with zeros, truncated to [n]. *)
Definition idcg_sum (m n : nat) : R := Rsum (map disc (seq 1 (m `min` n))).

(** The retrieved order places all relevant documents before all
    non-relevant ones: every relevant document occurs, and none after a
    non-relevant one. *)
Definition relevant_first (ids : list string) (rs : gset string) : Prop :=
  ∃ rel nonrel, ids = rel ++ nonrel ∧
    Forall (λ d, d ∈ rs) rel ∧ Forall (λ d, d ∉ rs) nonrel ∧
    ∀ d, d ∈ rs → d ∈ rel.

End EvalSpec.

(** ** NumPy and scikit-learn primitives used by the ranker

    A 1-D array is a [list R], a 2-D array a list of rows.  The functions are
    library code; they are modelled from their documented behaviour, with the
    shape errors they raise. *)

Module Np.

Abbreviation vec := (list R) (only parsing).
Abbreviation matrix := (list (list R)) (only parsing).

(** [c * v] for a scalar [c]. *)
Definition scale (c : R) (v : vec) : vec := map (Rmult c) v.

(** [-v] *)
Definition neg (v : vec) : vec := map Ropp v.

(** An elementwise binary operation with NumPy broadcasting of 1-D arrays:
    equal lengths, or one operand of length 1. *)
Definition broadcast2 (f : R → R → R) (u v : vec) : result vec :=
  if decide (length u = length v) then Ok (zip_with f u v)
  else match u, v with
       | [a], _ => Ok (map (f a) v)
       | _, [b] => Ok (map (λ x, f x b) u)
       | _, _ => Raise ValueError
       end.

Definition add : vec → vec → result vec := broadcast2 Rplus.
Definition sub : vec → vec → result vec := broadcast2 Rminus.

(** The in-place forms [u += v] and [u -= v]: the result keeps the shape of
    [u], so only [v] may be broadcast. *)
Definition inplace2 (f : R → R → R) (u v : vec) : result vec :=
  if decide (length u = length v) then Ok (zip_with f u v)
  else match v with
       | [b] => Ok (map (λ x, f x b) u)
       | _ => Raise ValueError
       end.

Definition iadd : vec → vec → result vec := inplace2 Rplus.
Definition isub : vec → vec → result vec := inplace2 Rminus.

(** [v / c] for a scalar [c]. *)
Definition div_scalar (v : vec) (c : R) : vec := map (λ x, x / c)%R v.

(** [np.mean(rows, axis=0)] of a 2-D array with at least one row. *)
Definition mean0 (rows : matrix) : vec :=
  match rows with
  | [] => []
  | r :: rest =>
      div_scalar (foldl (zip_with Rplus) r rest) (INR (length rows))
  end.

Definition dot (u v : vec) : R := foldr Rplus 0%R (zip_with Rmult u v).

(** [np.linalg.norm] of a 1-D array. *)
Definition norm (v : vec) : R := sqrt (dot v v).

(** [a[idx]] for a list of positions; [IndexError] when one is out of range. *)
Definition take_at {A : Type} (l : list A) (idx : list nat) : result (list A) :=
  match mapM (λ i, l !! i) idx with
  | Some xs => Ok xs
  | None => Raise IndexError
  end.

(** The contract of [a.argsort()] with the default [kind]: a permutation of
    the positions that lists the values in ascending order.  The default
    sort is not stable, so the contract says nothing about equal values. *)
Definition is_argsort (a : vec) (idx : list nat) : Prop :=
  idx ≡ₚ seq 0 (length a) ∧
  ∀ i j x y, (i < j)%nat → idx !! i = Some x → idx !! j = Some y →
    (nth x a 0 <= nth y a 0)%R.

(** A sorting procedure that meets the contract: insertion of the positions
    from the last to the first, each before the first value that is not
    smaller, so that equal values keep their order. *)
Definition Rleb (x y : R) : bool := if Rle_dec x y then true else false.
Definition Rltb (x y : R) : bool := if Rlt_dec x y then true else false.

Fixpoint insert_pos (before : R → R → bool) (a : vec) (i : nat) (l : list nat) : list nat :=
  match l with
  | [] => [i]
  | j :: l' =>
      if before (nth i a 0%R) (nth j a 0%R) then i :: j :: l'
      else j :: insert_pos before a i l'
  end.

Definition insertion_argsort (before : R → R → bool) (a : vec) : list nat :=
  foldr (insert_pos before a) [] (seq 0 (length a)).

Definition argsort_stable : vec → list nat := insertion_argsort Rleb.

(** The default [argsort] of the NumPy builds that sort a short array with a
    vectorised compare-exchange network (x86-64 processors with AVX2 or
    AVX-512), for at most four keys.  The keys sit in four lanes with their
    positions, a lane past the end holds [+inf] ([None]); three rounds of
    compare-exchanges, [(0,1) (2,3)], [(0,3) (1,2)], [(0,1) (2,3)], put the
    smaller key of each pair in the lower lane, and two equal keys stay
    where they are.  Longer arrays take further rounds that are not
    modelled: there this definition is the insertion sort. *)
Definition key_lt (a b : option R) : bool :=
  match a, b with
  | Some x, Some y => Rltb x y
  | Some _, None => true
  | None, _ => false
  end.

Definition cmp_exchange (lanes : list (option R * nat)) (pair : nat * nat)
    : list (option R * nat) :=
  match lanes !! pair.1, lanes !! pair.2 with
  | Some a, Some b =>
      if key_lt b.1 a.1 then <[pair.1 := b]> (<[pair.2 := a]> lanes) else lanes
  | _, _ => lanes
  end.

Definition network4 : list (nat * nat) :=
  [(0, 1); (2, 3); (0, 3); (1, 2); (0, 1); (2, 3)]%nat.

Definition argsort_network (a : vec) : list nat :=
  if (length a <=? 4)%nat then
    let lanes := take 4 (zip (Some <$> a) (seq 0 (length a)) ++ replicate 4 (None, 0%nat)) in
    take (length a) (snd <$> foldl cmp_exchange lanes network4)
  else insertion_argsort Rleb a.

End Np.

Module Sklearn.
Import Np.

(** [sklearn.preprocessing.normalize] of one row (L2): a zero norm is
    replaced by 1, so a zero row stays zero. *)
Definition l2_normalize (v : vec) : vec :=
  let n := norm v in
  div_scalar v (if Req_dec_T n 0 then 1%R else n).

(** [cosine_similarity(q, M).flatten()] for a single query row [q]:
    [ValueError] when [M] has no row or a row of another dimension. *)
Definition cosine_similarity (q : vec) (M : matrix) : result vec :=
  match M with
  | [] => Raise ValueError
  | _ =>
      if forallb (λ row, length row =? length q)%nat M
      then Ok (map (λ row, dot (l2_normalize q) (l2_normalize row)) M)
      else Raise ValueError
  end.

End Sklearn.

(** ** [src/preprocess.py] *)

Module Preprocess.

(** The NLTK pieces [normalize_text] calls: the tokenizer, the English
    stop-word set and the Porter stemmer. *)
Record nltk : Type := {
  word_tokenize : string → list string;
  stopset : gset string;
  stem : string → string
}.

Fixpoint string_map (f : Ascii.ascii → Ascii.ascii) (s : string) : string :=
  match s with
  | String.EmptyString => String.EmptyString
  | String.String c rest => String.String (f c) (string_map f rest)
  end.

(** [str.lower] on ASCII text. *)
Definition lower_char (c : Ascii.ascii) : Ascii.ascii :=
  let n := Ascii.nat_of_ascii c in
  if (65 <=? n)%nat && (n <=? 90)%nat then Ascii.ascii_of_nat (n + 32) else c.

(** Membership in the class [[a-z0-9\s]] on ASCII text. *)
Definition kept_char (c : Ascii.ascii) : bool :=
  let n := Ascii.nat_of_ascii c in
  ((97 <=? n)%nat && (n <=? 122)%nat) || ((48 <=? n)%nat && (n <=? 57)%nat)
  || Ascii.is_space c.

Definition normalize_text (nl : nltk) (text : string) (do_stem : bool) : string :=
  let text := string_map lower_char text in
  let text := string_map (λ c, if kept_char c then c else Ascii.Space) text in
  let tokens := word_tokenize nl text in
  let tokens := filter (λ t, (t ∉ stopset nl) ∧ (1 < String.length t)%nat) tokens in
  let tokens := if do_stem then map (stem nl) tokens else tokens in
  String.concat " " tokens.

End Preprocess.

(** ** Document tables and the two indexes *)

Module Table.

(** A value held in a data-frame cell: a string, an integer, a missing
    value, a float, or a boolean.  [CFloat m e] is the finite float
    [m * 10^e], kept as the exact decimal it was read from; [CInf] is
    [inf] or, with [true], [-inf]. *)
Inductive cell : Set :=
  | CStr (s : string)
  | CInt (z : Z)
  | CNaN
  | CFloat (m e : Z)
  | CInf (negative : bool)
  | CBool (b : bool).

#[export] Instance cell_eq_dec : EqDecision cell.
Proof. solve_decision. Defined.

#[export] Instance cell_countable : Countable cell.
Proof.
  refine (inj_countable'
    (λ c, match c with
          | CStr s => inl s
          | CInt z => inr (inl z)
          | CNaN => inr (inr (inl ()))
          | CFloat m e => inr (inr (inr (inl (m, e))))
          | CInf n => inr (inr (inr (inr (inl n))))
          | CBool b => inr (inr (inr (inr (inr b))))
          end)
    (λ x, match x with
          | inl s => CStr s
          | inr (inl z) => CInt z
          | inr (inr (inl _)) => CNaN
          | inr (inr (inr (inl (m, e)))) => CFloat m e
          | inr (inr (inr (inr (inl n)))) => CInf n
          | inr (inr (inr (inr (inr b)))) => CBool b
          end) _).
  by intros [].
Defined.

(** The canonical form of the decimal [m * 10^e]: no factor 10 left in the
    mantissa, and [0 * 10^0] for zero. *)
Fixpoint strip10 (fuel : nat) (m e : Z) : Z * Z :=
  match fuel with
  | O => (m, e)
  | S fuel' => if (m mod 10 =? 0)%Z then strip10 fuel' (m / 10)%Z (e + 1)%Z else (m, e)
  end.

Definition normalise (m e : Z) : Z * Z :=
  if (m =? 0)%Z then (0, 0)%Z else strip10 (Z.to_nat (Z.log2 (Z.abs m))) m e.

Fixpoint zeros (n : nat) : string :=
  match n with
  | O => ""
  | S n' => "0" +:+ zeros n'
  end.

(** [str(x)] of the finite float [m * 10^e]: the digits of the mantissa with
    the decimal point at position [decpt], in exponent notation when
    [decpt > 16] or [decpt < -3].  The sign of zero is not kept. *)
Definition float_repr (m e : Z) : string :=
  let '(m, e) := normalise m e in
  if (m =? 0)%Z then "0.0" else
  let sign := if (m <? 0)%Z then "-" else "" in
  let ds := pretty (Z.abs m) in
  let d := String.length ds in
  let decpt := (Z.of_nat d + e)%Z in
  sign +:+
  (if (16 <? decpt)%Z || (decpt <? -3)%Z then
     let x := (decpt - 1)%Z in
     String.substring 0 1 ds
       +:+ (if (1 <? d)%nat then "." +:+ String.substring 1 (d - 1) ds else "")
       +:+ "e" +:+ (if (x <? 0)%Z then "-" else "+")
       +:+ (if (Z.abs x <? 10)%Z then "0" else "") +:+ pretty (Z.abs x)
   else if (decpt <=? 0)%Z then "0." +:+ zeros (Z.to_nat (- decpt)) +:+ ds
   else if (Z.of_nat d <=? decpt)%Z then ds +:+ zeros (Z.to_nat decpt - d) +:+ ".0"
   else String.substring 0 (Z.to_nat decpt) ds +:+ "."
          +:+ String.substring (Z.to_nat decpt) (d - Z.to_nat decpt) ds).

(** [str(x)] of a cell that is not missing. *)
Definition cell_str (c : cell) : string :=
  match c with
  | CStr s => s
  | CInt z => pretty z
  | CNaN => "nan"
  | CFloat m e => float_repr m e
  | CInf negative => if negative then "-inf" else "inf"
  | CBool b => if b then "True" else "False"
  end.

(** A row of [docs.csv]: the columns [id], [title], [text], [text_norm]. *)
Record doc_row : Set := {
  row_id : cell;
  row_title : cell;
  row_text : cell;
  row_text_norm : cell
}.

#[export] Instance doc_row_eq_dec : EqDecision doc_row.
Proof. solve_decision. Defined.

Abbreviation table := (list doc_row) (only parsing).

(** [docs.iloc[idx]] for a list of positions. *)
Definition iloc (docs : table) (idx : list nat) : result table := Np.take_at docs idx.

End Table.

Module Index.
Import Np Table.

(** What [load_index()] returns: the fitted vectorizer (its [transform] on
    one text), the document-weight matrix and the document table. *)
Record lexical_index : Type := {
  transform : string → vec;
  X : matrix;
  docs : table
}.

(** What [load_semantic_index()] returns: the embedding matrix, the document
    table and the encoder (its [encode] on one text). *)
Record semantic_index : Type := {
  emb_matrix : matrix;
  docs2 : table;
  encode : string → vec
}.

End Index.

(** ** [src/retrieve.py], [src/hybrid_retrieve.py] and [src/feedback.py]

    The index pair is passed in as loaded; [argsort] is NumPy's, known only
    through its contract [Np.is_argsort]. *)

Module Ranker.
Import Np Sklearn Preprocess Table Index.

(** One row of a search result: the document and its columns [score],
    [tf_score], [sem_score]. *)
Record ranked : Type := {
  r_doc : doc_row;
  score : R;
  tf_score : R;
  sem_score : R
}.

(** [rows.assign(score=s, tf_score=t, sem_score=e)] *)
Fixpoint assign3 (rows : table) (s t e : vec) : list ranked :=
  match rows, s, t, e with
  | d :: rows', x :: s', y :: t', z :: e' =>
      {| r_doc := d; score := x; tf_score := y; sem_score := z |} :: assign3 rows' s' t' e'
  | _, _, _, _ => []
  end.

Section WithLibraries.
Variable argsort : vec → list nat.
Variable nl : nltk.

(** [(-scores).argsort()[:topk]] *)
Definition top_indices (scores : vec) (topk : Z) : list nat :=
  py_prefix (argsort (neg scores)) topk.

(** The fusion and ranking shared by [hybrid_search] and
    [apply_feedback_for_query]. *)
Definition fuse_and_rank (docs : table) (tf_scores sem_scores : vec) (topk : Z)
    (lambda_weight : R) : result (list ranked) :=
  scores ←ᵣ add (scale lambda_weight sem_scores) (scale (1 - lambda_weight) tf_scores) ;;
  let idx := top_indices scores topk in
  rows ←ᵣ iloc docs idx ;;
  s ←ᵣ take_at scores idx ;;
  t ←ᵣ take_at tf_scores idx ;;
  e ←ᵣ take_at sem_scores idx ;;
  Ok (assign3 rows s t e).

Definition hybrid_search (lex : lexical_index) (sem : semantic_index) (query : string)
    (topk : Z) (lambda_weight : R) : result (list ranked) :=
  if negb (length (docs lex) =? length (docs2 sem))%nat then Raise AssertionError
  else
    let qv := transform lex (normalize_text nl query true) in
    tf_scores ←ᵣ cosine_similarity qv (X lex) ;;
    let q_emb := encode sem query in
    sem_scores ←ᵣ cosine_similarity q_emb (emb_matrix sem) ;;
    fuse_and_rank (docs lex) tf_scores sem_scores topk lambda_weight.

(** [tfidf_search] of [src/retrieve.py]: rows with the single column
    [score]. *)
Definition tfidf_search (lex : lexical_index) (query : string) (topk : Z)
    : result (list (doc_row * R)) :=
  let qnorm := normalize_text nl query true in
  let qv := transform lex qnorm in
  scores ←ᵣ cosine_similarity qv (X lex) ;;
  let idx := top_indices scores topk in
  rows ←ᵣ iloc (docs lex) idx ;;
  s ←ᵣ take_at scores idx ;;
  Ok (zip rows s).

(** [LAMBDA], [ALPHA], [BETA], [GAMMA] *)
Definition LAMBDA : R := (5 / 10)%R.
Definition ALPHA : R := 1%R.
Definition BETA : R := (8 / 10)%R.
Definition GAMMA : R := 0%R.

(** [x is not None and len(x) > 0] *)
Definition nonempty (x : option matrix) : option matrix :=
  match x with
  | Some (r :: rest) => Some (r :: rest)
  | _ => None
  end.

Definition rocchio_tfidf (query_vec : vec) (rel_doc_vecs nonrel_doc_vecs : option matrix)
    (alpha beta gamma : R) : result vec :=
  let q := query_vec in
  let new_q := scale alpha q in
  new_q ←ᵣ match nonempty rel_doc_vecs with
           | Some rows => iadd new_q (scale beta (mean0 rows))
           | None => Ok new_q
           end ;;
  new_q ←ᵣ match nonempty nonrel_doc_vecs with
           | Some rows => isub new_q (scale gamma (mean0 rows))
           | None => Ok new_q
           end ;;
  Ok new_q.

(** [1e-9] *)
Definition eps : R := (1 / 1000000000)%R.

Definition rocchio_emb (query_emb : vec) (rel_embs nonrel_embs : option matrix)
    (alpha beta gamma : R) : result vec :=
  let q := query_emb in
  let new_q := scale alpha q in
  new_q ←ᵣ match nonempty rel_embs with
           | Some rows => add new_q (scale beta (mean0 rows))
           | None => Ok new_q
           end ;;
  new_q ←ᵣ match nonempty nonrel_embs with
           | Some rows => sub new_q (scale gamma (mean0 rows))
           | None => Ok new_q
           end ;;
  Ok (div_scalar new_q (norm new_q + eps)).

(** [{d: i for i, d in enumerate(docs['id'])}]: a later row with the same id
    overwrites an earlier one. *)
Definition doc_index_map (docs : table) : gmap cell nat :=
  foldl (λ m p, <[p.2 := p.1]> m) ∅ (zip (seq 0 (length docs)) (map row_id docs)).

Definition apply_feedback_for_query (lex : lexical_index) (sem : semantic_index)
    (qtext : string) (clicked_doc_ids : list cell) (topk : Z) (lambda_weight : R)
    : result (list ranked) :=
  let qv := transform lex qtext in
  let q_emb := encode sem qtext in
  let m := doc_index_map (docs lex) in
  let rel_idxs := omap (λ did, m !! did) clicked_doc_ids in
  rel_tfidf_vectors ←ᵣ
    (if (0 <? length rel_idxs)%nat
     then rows ←ᵣ take_at (X lex) rel_idxs ;; Ok (Some rows) else Ok None) ;;
  rel_embs ←ᵣ
    (if (0 <? length rel_idxs)%nat
     then rows ←ᵣ take_at (emb_matrix sem) rel_idxs ;; Ok (Some rows) else Ok None) ;;
  qv_new ←ᵣ rocchio_tfidf qv rel_tfidf_vectors None ALPHA BETA GAMMA ;;
  q_emb_new ←ᵣ rocchio_emb q_emb rel_embs None ALPHA BETA GAMMA ;;
  tf_scores ←ᵣ cosine_similarity qv_new (X lex) ;;
  sem_scores ←ᵣ cosine_similarity q_emb_new (emb_matrix sem) ;;
  fuse_and_rank (docs lex) tf_scores sem_scores topk lambda_weight.

End WithLibraries.
End Ranker.

(** ** The ranker as the specification words it

    Spec-side definitions (sections 3 and 4.4): the row-alignment of an
    index pair and the two pure rankings that the degenerate fusion weights
    are compared with. *)

Module RankerSpec.
Import Np Sklearn Preprocess Table Index Ranker.

Definition rmap {A B : Type} (f : A → B) (m : result A) : result B :=
  match m with
  | Ok a => Ok (f a)
  | Raise e => Raise e
  end.

(** A lexical index as [build] produces it: one matrix row per document, every
    row in the term space of the fitted vectorizer, at least one document. *)
Definition lexical_wf (lex : lexical_index) : Prop :=
  X lex ≠ [] ∧ length (X lex) = length (docs lex) ∧
  ∀ text, Forall (λ row, length row = length (transform lex text)) (X lex).

(** A semantic index as [build] produces it. *)
Definition semantic_wf (sem : semantic_index) : Prop :=
  emb_matrix sem ≠ [] ∧ length (emb_matrix sem) = length (docs2 sem) ∧
  ∀ text, Forall (λ row, length row = length (encode sem text)) (emb_matrix sem).


(** Pure semantic ranking: cosine similarity of the encoded query against the
    embedding matrix, the [topk] greatest first. *)
Definition semantic_search (argsort : vec → list nat) (lex : lexical_index)
    (sem : semantic_index) (query : string) (topk : Z) : result (list (doc_row * R)) :=
  scores ←ᵣ cosine_similarity (encode sem query) (emb_matrix sem) ;;
  let idx := top_indices argsort scores topk in
  rows ←ᵣ iloc (docs lex) idx ;;
  s ←ᵣ take_at scores idx ;;
  Ok (zip rows s).

(** The document and fused score of each row of a result. *)
Definition ranking (rows : list ranked) : list (doc_row * R) :=
  map (λ r, (r_doc r, score r)) rows.

(** Coordinate [j] of the mean of a set of document vectors, zero for an
    absent or empty set. *)
Definition mean_coord (vecs : option matrix) (j : nat) : R :=
  match vecs with
  | Some (r :: rest) =>
      (foldr Rplus 0 (map (λ row, nth j row 0) (r :: rest)) / INR (length (r :: rest)))%R
  | _ => 0%R
  end.

(** Coordinate [j] of
    [alpha * q + beta * mean(relevant) - gamma * mean(nonrelevant)]. *)
Definition rocchio_coord (alpha beta gamma : R) (q : vec) (rel nonrel : option matrix)
    (j : nat) : R :=
  (alpha * nth j q 0 + beta * mean_coord rel j - gamma * mean_coord nonrel j)%R.

(** Every vector of the set has dimension [D]. *)
Definition shaped (D : nat) (vecs : option matrix) : Prop :=
  match vecs with
  | Some rows => Forall (λ row, length row = D) rows
  | None => True
  end.

End RankerSpec.

(** ** [src/indexer.py]

    The three persisted artifacts are the contents of a record of optional
    files.  [joblib.dump] and [joblib.load] store and return the object
    itself; the document table goes through [DataFrame.to_csv] and
    [pandas.read_csv], which are parameters here. *)

Module Indexer.
Import Np Preprocess Table Index.

(** A row of the corpus as [load_cranfield] yields it: the columns [id],
    [title], [text]. *)
Record corpus_row : Set := {
  c_id : cell;
  c_title : cell;
  c_text : cell
}.

(** [.fillna("").astype(str)] on one cell. *)
Definition cell_text (c : cell) : string :=
  match c with
  | CStr s => s
  | CInt z => pretty z
  | CNaN => ""
  | _ => cell_str c
  end.

Section WithLibraries.
Variable nl : nltk.
(** [TfidfVectorizer(...).fit_transform]: the fitted [transform] and the
    document matrix, or an exception (an empty vocabulary is a
    [ValueError]). *)
Variable fit_transform : list string → result ((string → vec) * matrix).
Variable csv : Type.
Variable to_csv : table → csv.
Variable read_csv : csv → table.
(** The corpus that [load_cranfield()] returns. *)
Variable corpus_df : list corpus_row.

(** [data/tfidf_vectorizer.joblib], [data/tfidf_matrix.joblib],
    [data/docs.csv]. *)
Record files : Type := {
  tfidf_path : option (string → vec);
  vec_matrix_path : option matrix;
  docs_path : option csv
}.

Definition with_text_norm (c : corpus_row) : doc_row := {|
  row_id := c_id c;
  row_title := c_title c;
  row_text := c_text c;
  row_text_norm := CStr (normalize_text nl (cell_text (c_text c)) true)
|}.

Definition build_index (fs : files) : result (files * lexical_index) :=
  let docs := map with_text_norm corpus_df in
  fitted ←ᵣ fit_transform (map (λ d, cell_text (row_text_norm d)) docs) ;;
  let '(vectorizer, X) := fitted in
  Ok ({| tfidf_path := Some vectorizer;
         vec_matrix_path := Some X;
         docs_path := Some (to_csv docs) |},
      {| transform := vectorizer; X := X; docs := docs |}).

Definition load_index (fs : files) : result (files * lexical_index) :=
  match tfidf_path fs, vec_matrix_path fs, docs_path fs with
  | Some vectorizer, Some X, Some c =>
      Ok (fs, {| transform := vectorizer; X := X; docs := read_csv c |})
  | _, _, _ => build_index fs
  end.

End WithLibraries.
End Indexer.

(** ** The semantic index and its files ([src/semantic_index.py]) *)

Module SemanticIndexer.
Import Np Preprocess Table Index Indexer.

(** The files under [data/]: the three files of the lexical index and
    [doc_embeddings.npy]. *)
Record store (csv : Type) : Type := {
  index_files : files csv;
  emb_path : option matrix
}.
Arguments index_files {csv} _.
Arguments emb_path {csv} _.

Section WithLibraries.
Variable nl : nltk.
Variable fit_transform : list string → result ((string → vec) * matrix).
Variable csv : Type.
Variable to_csv : table → csv.
Variable read_csv : csv → table.
Variable corpus_df : list corpus_row.
(** [SentenceTransformer(EMB_MODEL)]: its [encode] on one text, and on the
    texts [title.fillna("") + ". " + text] of a document table, one row per
    document or an exception. *)
Variable encoder : string → vec.
Variable embed_docs : table → result matrix.

Definition build_semantic_index (st : store csv) : result (store csv * semantic_index) :=
  fs ←ᵣ match docs_path csv (index_files st) with
        | Some _ => Ok (index_files st)
        | None =>
            built ←ᵣ build_index nl fit_transform csv to_csv corpus_df (index_files st) ;;
            Ok built.1
        end ;;
  match docs_path csv fs with
  | None => Raise FileNotFoundError
  | Some c =>
      let docs := read_csv c in
      embeddings ←ᵣ embed_docs docs ;;
      Ok ({| index_files := fs; emb_path := Some embeddings |},
          {| emb_matrix := embeddings; docs2 := docs; encode := encoder |})
  end.

Definition load_semantic_index (st : store csv) : result (store csv * semantic_index) :=
  match emb_path st, docs_path csv (index_files st) with
  | Some embeddings, Some c =>
      Ok (st, {| emb_matrix := embeddings; docs2 := read_csv c; encode := encoder |})
  | _, _ => Raise FileNotFoundError
  end.

End WithLibraries.
End SemanticIndexer.

(** ** The search with its loading of the indexes ([src/hybrid_retrieve.py]) *)

Module HybridRetrieve.
Import Np Preprocess Table Index Indexer SemanticIndexer.

Section WithLibraries.
Variable argsort : vec → list nat.
Variable nl : nltk.
Variable fit_transform : list string → result ((string → vec) * matrix).
Variable csv : Type.
Variable to_csv : table → csv.
Variable read_csv : csv → table.
Variable corpus_df : list corpus_row.
Variable encoder : string → vec.
Variable embed_docs : table → result matrix.

(** Lines 12 to 21: each index is loaded, and built when loading raises. *)
Definition load_indexes (st : store csv)
    : result (store csv * lexical_index * semantic_index) :=
  lexical ←ᵣ match load_index nl fit_transform csv to_csv read_csv corpus_df
                     (index_files st) with
             | Ok r => Ok r
             | Raise _ => build_index nl fit_transform csv to_csv corpus_df (index_files st)
             end ;;
  let st1 := {| index_files := lexical.1; emb_path := emb_path st |} in
  semantic ←ᵣ match load_semantic_index csv read_csv encoder st1 with
              | Ok r => Ok r
              | Raise _ =>
                  build_semantic_index nl fit_transform csv to_csv read_csv corpus_df
                    encoder embed_docs st1
              end ;;
  Ok (semantic.1, lexical.2, semantic.2).

(** [hybrid_search] as a whole: the ranking of [Ranker.hybrid_search] on the
    indexes it has loaded, and the files it leaves. *)
Definition hybrid_search (st : store csv) (query : string) (topk : Z) (lambda_weight : R)
    : result (store csv * list Ranker.ranked) :=
  loaded ←ᵣ load_indexes st ;;
  let '(st', lex, sem) := loaded in
  rows ←ᵣ Ranker.hybrid_search argsort nl lex sem query topk lambda_weight ;;
  Ok (st', rows).

End WithLibraries.
End HybridRetrieve.

(** ** The CSV round trip of the document table

    [DataFrame.to_csv(index=False)] followed by [pandas.read_csv] with its
    default options: a field is the text of the cell, the empty field for a
    missing value; reading infers the type of each column from its fields. *)

Module Csv.
Import Preprocess Table.

(** What [to_csv] writes for one cell; a missing value is written as the
    empty field. *)
Definition field (c : cell) : string :=
  match c with
  | CStr s => s
  | CInt z => pretty z
  | CNaN => ""
  | _ => cell_str c
  end.

(** One line of the file: the four fields of a row, after the quoting of the
    CSV format has been undone.  The header line is left out. *)
Definition line : Set := (string * string * string * string)%type.

Definition to_csv (t : list doc_row) : list line :=
  map (λ r, (field (row_id r), field (row_title r), field (row_text r),
             field (row_text_norm r))) t.

(** The fields [read_csv] takes as missing by default. *)
Definition NA_VALUES : list string :=
  [""; "#N/A"; "#N/A N/A"; "#NA"; "-1.#IND"; "-1.#QNAN"; "-NaN"; "-nan"; "1.#IND";
   "1.#QNAN"; "<NA>"; "N/A"; "NA"; "NULL"; "NaN"; "None"; "n/a"; "nan"; "null"].

Fixpoint digits (s : string) (acc : Z) : option Z :=
  match s with
  | String.EmptyString => Some acc
  | String.String c rest =>
      match Ascii.is_nat c with
      | Some d => digits rest (10 * acc + Z.of_nat d)
      | None => None
      end
  end.

Fixpoint lstrip (s : string) : string :=
  match s with
  | String.EmptyString => ""
  | String.String c rest => if Ascii.is_space c then lstrip rest else s
  end.

(** The parsers of numbers skip white space on both sides. *)
Definition strip (s : string) : string := String.rev (lstrip (String.rev (lstrip s))).

(** An optional sign: whether it is a minus, and the rest. *)
Definition sign_split (s : string) : bool * string :=
  match s with
  | String.String c rest =>
      if decide (String.String c "" = "-") then (true, rest)
      else if decide (String.String c "" = "+") then (false, rest)
      else (false, s)
  | _ => (false, s)
  end.

Definition signed (negative : bool) (z : Z) : Z := if negative then (- z)%Z else z.

(** An optional sign followed by at least one decimal digit. *)
Definition int_literal (s : string) : option Z :=
  let '(negative, body) := sign_split (strip s) in
  if decide (body = "") then None else signed negative <$> digits body 0.

(** The text before the first character satisfying [p], and the text after
    it if there is one. *)
Fixpoint split_on (p : Ascii.ascii → bool) (s : string) : string * option string :=
  match s with
  | String.EmptyString => ("", None)
  | String.String c rest =>
      if p c then ("", Some rest)
      else let '(before, after) := split_on p rest in (String.String c before, after)
  end.

(** A decimal number: an optional sign, digits with an optional decimal point
    and at least one digit, and an optional exponent [e] or [E] with an
    optional sign and at least one digit.  The value is kept exactly. *)
Definition decimal_literal (s : string) : option (Z * Z) :=
  let '(negative, body) := sign_split (strip s) in
  let '(mantissa, exponent) :=
    split_on (λ c, bool_decide (String.String c "" ∈ ["e"; "E"])) body in
  let '(int_part, after_point) := split_on (λ c, bool_decide (String.String c "" = ".")) mantissa in
  let frac_part := default "" after_point in
  if decide (int_part = "" ∧ frac_part = "") then None else
  i ← digits int_part 0 ;
  f ← digits frac_part 0 ;
  x ← match exponent with
      | None => Some 0%Z
      | Some t =>
          let '(exp_negative, exp_digits) := sign_split t in
          if decide (exp_digits = "") then None
          else signed exp_negative <$> digits exp_digits 0
      end ;
  let scale := Z.of_nat (String.length frac_part) in
  Some (normalise (signed negative (i * 10 ^ scale + f)) (x - scale)).

(** A float: a decimal number, or one of the names of infinity in any case. *)
Definition float_literal (s : string) : option cell :=
  match decimal_literal s with
  | Some (m, e) => Some (CFloat m e)
  | None =>
      let name := string_map lower_char s in
      if bool_decide (name ∈ ["inf"; "+inf"; "infinity"; "+infinity"]) then Some (CInf false)
      else if bool_decide (name ∈ ["-inf"; "-infinity"]) then Some (CInf true)
      else None
  end.

(** [true] or [false] in any case. *)
Definition bool_literal (s : string) : option bool :=
  let name := string_map lower_char s in
  if decide (name = "true") then Some true
  else if decide (name = "false") then Some false
  else None.

(** Every field is either missing or read by [parse]. *)
Definition parse_all {A : Type} (parse : string → option A) (fields : list string)
    : option (list (option A)) :=
  mapM (λ s, if bool_decide (s ∈ NA_VALUES) then Some None else Some <$> parse s) fields.

Definition int_as_float (z : Z) : cell := let '(m, e) := normalise z 0 in CFloat m e.

(** Type inference on one column, in the order the parser tries the types:
    integers, which become floats when a field is missing; floats; booleans;
    otherwise the fields are kept as strings.  A missing field is [NaN] in
    every case.  Numbers are exact: neither the rounding of 64-bit floats nor
    the range of 64-bit integers is modelled. *)
Definition read_column (fields : list string) : list cell :=
  match parse_all int_literal fields with
  | Some ints =>
      match mapM (λ x : option Z, x) ints with
      | Some zs => map CInt zs
      | None => map (from_option int_as_float CNaN) ints
      end
  | None =>
      match parse_all float_literal fields with
      | Some floats => map (default CNaN) floats
      | None =>
          match parse_all bool_literal fields with
          | Some bools => map (from_option CBool CNaN) bools
          | None => map (λ s, if bool_decide (s ∈ NA_VALUES) then CNaN else CStr s) fields
          end
      end
  end.

Fixpoint zip_rows (ids titles texts norms : list cell) : list doc_row :=
  match ids, titles, texts, norms with
  | a :: ids', b :: titles', c :: texts', d :: norms' =>
      {| row_id := a; row_title := b; row_text := c; row_text_norm := d |}
      :: zip_rows ids' titles' texts' norms'
  | _, _, _, _ => []
  end.

Definition read_csv (lines : list line) : list doc_row :=
  zip_rows (read_column (map (λ l, l.1.1.1) lines))
           (read_column (map (λ l, l.1.1.2) lines))
           (read_column (map (λ l, l.1.2) lines))
           (read_column (map (λ l, l.2) lines)).

End Csv.

(** ** A two-document index pair

    A small instance of every library component, used to run the definitions:
    a tokenizer that splits on white space, a few stop words, the Porter
    stemmer restricted to the words that occur, and a vectorizer that counts
    the vocabulary terms (all IDF weights equal). *)

Module Sample.
Import Np Preprocess Table Index.

Definition porter (t : string) : string :=
  if decide (t = "turbines") then "turbin"
  else if decide (t = "turbine") then "turbin"
  else t.

Definition nl : nltk := {|
  word_tokenize := String.words;
  stopset := {["the"; "of"; "in"; "and"]};
  stem := porter
|}.

Definition vocabulary : list string := ["stress"; "turbin"].

Definition term_counts (text : string) : list nat :=
  map (λ term, length (filter (λ t, t = term) (String.words text))) vocabulary.

Definition count_vectorizer (text : string) : vec := map INR (term_counts text).

Definition doc1 : doc_row := {|
  row_id := CStr "1"; row_title := CStr "blade";
  row_text := CStr "turbine"; row_text_norm := CStr "turbin"
|}.

Definition doc2 : doc_row := {|
  row_id := CStr "2"; row_title := CStr "load";
  row_text := CStr "stress"; row_text_norm := CStr "stress"
|}.

Definition lex : lexical_index := {|
  transform := count_vectorizer;
  X := [[0; 1]; [1; 0]]%R;
  docs := [doc1; doc2]
|}.

Definition sem : semantic_index := {|
  emb_matrix := [[1]; [1]]%R;
  docs2 := [doc1; doc2];
  encode := λ _, [1%R]
|}.

(** Four documents, the first two about turbines and the last two about
    stress, with their index pair. *)
Definition docs4 : table :=
  [ {| row_id := CStr "1"; row_title := CStr "blade";
       row_text := CStr "turbine"; row_text_norm := CStr "turbin" |};
    {| row_id := CStr "2"; row_title := CStr "rotor";
       row_text := CStr "turbine"; row_text_norm := CStr "turbin" |};
    {| row_id := CStr "3"; row_title := CStr "load";
       row_text := CStr "stress"; row_text_norm := CStr "stress" |};
    {| row_id := CStr "4"; row_title := CStr "strain";
       row_text := CStr "stress"; row_text_norm := CStr "stress" |} ].

Definition lex4 : lexical_index := {|
  transform := count_vectorizer;
  X := [[0; 1]; [0; 1]; [1; 0]; [1; 0]]%R;
  docs := docs4
|}.

Definition sem4 : semantic_index := {|
  emb_matrix := [[1]; [1]; [1]; [1]]%R;
  docs2 := docs4;
  encode := λ _, [1%R]
|}.

(** A one-document corpus with an empty title, and a vectorizer fit that
    counts the vocabulary terms. *)
Definition corpus : list Indexer.corpus_row :=
  [ {| Indexer.c_id := CStr "1"; Indexer.c_title := CStr "";
       Indexer.c_text := CStr "turbine stress" |} ].

Definition fit_counts (texts : list string) : result ((string → vec) * matrix) :=
  Ok (count_vectorizer, map count_vectorizer texts).

Definition no_files : Indexer.files (list Csv.line) :=
  {| Indexer.tfidf_path := None; Indexer.vec_matrix_path := None;
     Indexer.docs_path := None |}.


Definition encoder (text : string) : vec := [1%R].

Definition embed_docs (docs : table) : result matrix := Ok (map (λ _, [1%R]) docs).


End Sample.

(** ** Text that normalisation cannot tell apart *)

Module PreprocessSpec.
Import Preprocess.

(** A space or an ASCII punctuation mark. *)
Definition blank (c : Ascii.ascii) : Prop :=
  c = Ascii.Space ∨
  (kept_char (lower_char c) = false ∧ (32 < Ascii.nat_of_ascii c < 127)%nat).

(** The same letter in either case, or two blanks. *)
Definition alike (c1 c2 : Ascii.ascii) : Prop :=
  lower_char c1 = lower_char c2 ∨ (blank c1 ∧ blank c2).

(** Two texts of one length whose characters are alike position by position. *)
Fixpoint alike_text (s1 s2 : string) : Prop :=
  match s1, s2 with
  | String.EmptyString, String.EmptyString => True
  | String.String c1 r1, String.String c2 r2 => alike c1 c2 ∧ alike_text r1 r2
  | _, _ => False
  end.

End PreprocessSpec.

(** ** Query suggestions ([src/expand.py]) *)

Module Expand.
Import Np Preprocess.

Definition STOPWORDS : gset string :=
  list_to_set ["the"; "a"; "an"; "in"; "on"; "of"; "and"; "or"; "is"; "are"; "to"; "for";
               "with"; "that"; "this"; "it"; "as"; "by"; "from"].

(** Membership in the class [[a-zA-Z0-9\s]] on ASCII text. *)
Definition word_char (c : Ascii.ascii) : bool :=
  let n := Ascii.nat_of_ascii c in
  ((97 <=? n)%nat && (n <=? 122)%nat) || ((65 <=? n)%nat && (n <=? 90)%nat)
  || ((48 <=? n)%nat && (n <=? 57)%nat) || Ascii.is_space c.

Definition _tokenize_words (text : string) : list string :=
  let text := string_map (λ c, if word_char c then c else Ascii.Space)
                (string_map lower_char text) in
  filter (λ t, (t ≠ "") ∧ (t ∉ STOPWORDS) ∧ (2 < String.length t)%nat) (String.words text).

(** A [collections.Counter] over phrases: the keys in insertion order with
    their counts; a missing key counts as 0. *)
Abbreviation counter := (list (string * nat)) (only parsing).

Fixpoint count_of (c : counter) (key : string) : nat :=
  match c with
  | [] => 0
  | (k, n) :: rest => if decide (k = key) then n else count_of rest key
  end.

(** [counter[key] += 1] *)
Fixpoint incr (c : counter) (key : string) : counter :=
  match c with
  | [] => [(key, 1%nat)]
  | (k, n) :: rest => if decide (k = key) then (k, S n) :: rest else (k, n) :: incr rest key
  end.

(** [list.sort(key=...)]: ascending by key, equal keys keep their order. *)
Fixpoint insert_by (key : string → Z) (x : string) (l : list string) : list string :=
  match l with
  | [] => [x]
  | y :: rest => if (key x <=? key y)%Z then x :: y :: rest else y :: insert_by key x rest
  end.

Definition sort_by (key : string → Z) (l : list string) : list string :=
  foldr (insert_by key) [] l.

Definition _extract_candidate_phrases (texts : list string) (min_freq max_ngram : Z)
    : list string * counter :=
  let counter :=
    foldl (λ counter t,
      let tokens := _tokenize_words t in
      foldl (λ counter n,
        foldl (λ counter i,
          let ng := take n (drop i tokens) in
          let phrase := String.concat " " ng in
          if (String.length phrase <? 3)%nat then counter else incr counter phrase)
        counter (seq 0 (length tokens + 1 - n)))
      counter (seq 1 (Z.to_nat max_ngram)))
    [] texts in
  let candidates := (filter (λ pc, (min_freq ≤ Z.of_nat pc.2)%Z) counter).*1 in
  (sort_by (λ x, (- Z.of_nat (count_of counter x))%Z) candidates, counter).

(** *** Selection by maximal marginal relevance *)

(** A float that may be [-np.inf]: [None] is minus infinity. *)
Definition ext_lt (a b : option R) : bool :=
  match a, b with
  | None, Some _ => true
  | Some x, Some y => Rltb x y
  | _, None => false
  end.

Fixpoint argmax_from (best : nat) (bv : option R) (i : nat) (l : list (option R)) : nat :=
  match l with
  | [] => best
  | x :: rest =>
      if ext_lt bv x then argmax_from i x (S i) rest else argmax_from best bv (S i) rest
  end.

(** [np.argmax]: the first position of the maximum; [ValueError] on an empty
    sequence. *)
Definition argmax (l : list (option R)) : result nat :=
  match l with
  | [] => Raise ValueError
  | x :: rest => Ok (argmax_from 0 x 1 rest)
  end.

(** [a[i]] *)
Definition item {A : Type} (l : list A) (i : nat) : result A :=
  match l !! i with
  | Some x => Ok x
  | None => Raise IndexError
  end.

(** [for x in l: ...] collecting one result per element, stopping at the first
    exception. *)
Fixpoint for_each {A B : Type} (f : A → result B) (l : list A) : result (list B) :=
  match l with
  | [] => Ok []
  | x :: rest => y ←ᵣ f x ;; ys ←ᵣ for_each f rest ;; Ok (y :: ys)
  end.

(** [max(...)] of a non-empty generator. *)
Definition max_of (l : list R) : result R :=
  match l with
  | [] => Raise ValueError
  | x :: rest => Ok (foldl Rmax x rest)
  end.

Section Selection.
(** [candidates] after step 2, [tfidf_scores] of step 3, and the two cosine
    similarity arrays of step 5. *)
Variable candidates : list string.
Variable tfidf_scores : gmap string R.
Variable sim_q_c : vec.
Variable sim_c_c : matrix.
Variable k : Z.
Variable mmr_lambda : R.

Definition alpha : R := 7 / 10.

Definition combined_relevance : result vec :=
  for_each (λ ic, let '(i, c) := ic in
     let tf := default 0%R (tfidf_scores !! c) in
     s ←ᵣ item sim_q_c i ;;
     Ok (alpha * s + (1 - alpha) * tf)%R)
    (zip (seq 0 (length candidates)) candidates).

Definition mmr_scores (rel_all : vec) (selected_idxs : list nat) : result (list (option R)) :=
  for_each (λ i,
     if decide (i ∈ selected_idxs) then Ok None
     else
       rel ←ᵣ item rel_all i ;;
       red ←ᵣ (if decide (selected_idxs = []) then Ok 0%R
               else sims ←ᵣ for_each (λ j, row ←ᵣ item sim_c_c i ;; item row j)
                              selected_idxs ;;
                    max_of sims) ;;
       Ok (Some (mmr_lambda * rel - (1 - mmr_lambda) * red)%R))
    (seq 0 (length candidates)).

(** The [while] loop; [None] when [fuel] iterations were not enough. *)
Fixpoint mmr_loop (fuel : nat) (rel_all : vec) (selected : list string)
    (selected_idxs : list nat) : option (result (list string)) :=
  if (Z.of_nat (length selected) <? k)%Z && (length selected <? length candidates)%nat
  then
    match fuel with
    | O => None
    | S fuel' =>
        match mmr_scores rel_all selected_idxs with
        | Raise e => Some (Raise e)
        | Ok scores =>
            match argmax scores with
            | Raise e => Some (Raise e)
            | Ok next_idx =>
                match item candidates next_idx with
                | Raise e => Some (Raise e)
                | Ok c => mmr_loop fuel' rel_all (selected ++ [c]) (selected_idxs ++ [next_idx])
                end
            end
        end
    end
  else Some (Ok selected).

(** Step 5 of [generate_suggestions]. *)
Definition mmr_select (fuel : nat) : option (result (list string)) :=
  match combined_relevance with
  | Raise e => Some (Raise e)
  | Ok rel_all =>
      if (0 <? length candidates)%nat then
        match argmax (Some <$> rel_all) with
        | Raise e => Some (Raise e)
        | Ok first_idx =>
            match item candidates first_idx with
            | Raise e => Some (Raise e)
            | Ok c => mmr_loop fuel rel_all [c] [first_idx]
            end
        end
      else mmr_loop fuel rel_all [] []
  end.

End Selection.
End Expand.

(** ** Candidate phrases as word windows *)

Module ExpandSpec.
Import Expand.

(** The windows of [n] consecutive tokens, from left to right. *)
Definition windows (tokens : list string) (n : nat) : list (list string) :=
  map (λ i, take n (drop i tokens)) (seq 0 (length tokens + 1 - n)).

(** The phrases of one text: its windows of 1, 2, ..., [max_ngram] tokens,
    each joined by single spaces. *)
Definition phrases_of (max_ngram : Z) (text : string) : list string :=
  n ← seq 1 (Z.to_nat max_ngram) ;
  String.concat " " <$> windows (_tokenize_words text) n.

Definition all_phrases (texts : list string) (max_ngram : Z) : list string :=
  texts ≫= phrases_of max_ngram.

Definition occurrences (p : string) (l : list string) : nat :=
  length (filter (λ x, x = p) l).

(** A counter built by increments: distinct keys, positive counts. *)
Definition counter_wf (c : list (string * nat)) : Prop :=
  NoDup c.*1 ∧ Forall (λ kv, (1 ≤ kv.2)%nat) c.

(** The state of the selection loop: the picked positions are distinct, and
    each pick is the candidate at its position. *)
Definition loop_inv (candidates selected : list string) (selected_idxs : list nat) : Prop :=
  NoDup selected_idxs ∧ Forall2 (λ c i, candidates !! i = Some c) selected selected_idxs.

End ExpandSpec.

(* ===================================================================== *)
(** * Properties *)
(* ===================================================================== *)

(** ** Python sequences *)

Section PythonSeq.
Context {A : Type}.
Implicit Types l : list A.

Lemma py_prefix_nonneg l (k : Z) : (0 ≤ k)%Z → py_prefix l k = take (Z.to_nat k) l.
Proof. intros Hk. unfold py_prefix. destruct (Z.ltb_spec k 0); [lia | done]. Qed.

Lemma py_prefix_length_le l (k : Z) : (0 ≤ k)%Z → (Z.of_nat (length (py_prefix l k)) ≤ k)%Z.
Proof. intros Hk. rewrite py_prefix_nonneg by done. rewrite length_take. lia. Qed.

Lemma py_prefix_0 l : py_prefix l 0 = [].
Proof. done. Qed.
End PythonSeq.

(** ** The evaluator *)

Module EvalFacts.
Import Eval EvalSpec.


Lemma count_in_acc (rs : gset string) (l : list string) (a : Z) :
  foldl (λ acc d, if bool_decide (d ∈ rs) then (acc + 1)%Z else acc) a l
  = (a + Z.of_nat (length (filter (λ d, d ∈ rs) l)))%Z.
Proof.
  revert a. induction l as [|d l IH]; intros a; simpl.
  - lia.
  - rewrite IH. rewrite filter_cons. case_bool_decide; case_decide; simpl; try done; lia.
Qed.

Lemma count_in_filter (rs : gset string) (l : list string) : count_in rs l = Z.of_nat (length (filter (λ d, d ∈ rs) l)).
Proof. unfold count_in. rewrite count_in_acc. lia. Qed.

Lemma hits_in_first_S ids rs n :
  hits_in_first ids rs (S n)
  = (hits_in_first ids rs n + if decide (relevant_at ids rs n) then 1 else 0)%nat.
Proof.
  unfold hits_in_first. rewrite seq_S, filter_app, length_app. simpl.
  rewrite filter_cons, filter_nil. by case_decide.
Qed.

Lemma filter_take_hits (ids : list string) (rs : gset string) n :
  length (filter (λ d, d ∈ rs) (take n ids)) = hits_in_first ids rs n.
Proof.
  induction n as [|n IH]; [by rewrite take_0|].
  rewrite hits_in_first_S, <- IH.
  destruct (ids !! n) as [d|] eqn:E.
  - rewrite (take_S_r _ _ _ E), filter_app, length_app. f_equal.
    rewrite filter_cons, filter_nil.
    case_decide as Hd; case_decide as Hr; simpl; try done.
    + destruct Hr. exists d. done.
    + destruct Hr as (d' & E' & ?). congruence.
  - apply lookup_ge_None in E. rewrite !take_ge by lia.
    case_decide as Hr; [|lia]. destruct Hr as (d' & E' & _).
    apply lookup_lt_Some in E'. lia.
Qed.

Lemma hits_in_first_le ids rs n : (hits_in_first ids rs n ≤ n)%nat.
Proof.
  unfold hits_in_first. etrans; [apply length_filter|]. by rewrite length_seq.
Qed.

Lemma hits_in_first_all ids rs n :
  (∀ i, (i < n)%nat → relevant_at ids rs i) → hits_in_first ids rs n = n.
Proof.
  intros H. induction n as [|n IH]; [done|].
  rewrite hits_in_first_S, IH by (intros; apply H; lia).
  rewrite decide_True by (apply H; lia). lia.
Qed.

Lemma hits_in_first_none ids rs n :
  (∀ i, (i < n)%nat → ¬ relevant_at ids rs i) → hits_in_first ids rs n = 0%nat.
Proof.
  intros H. induction n as [|n IH]; [done|].
  rewrite hits_in_first_S, IH by (intros; apply H; lia).
  rewrite decide_False by (apply H; lia). lia.
Qed.

Lemma Qdiv_Z_bounds (a b : Z) :
  (0 ≤ a ≤ b)%Z → (0 < b)%Z → (0 <= inject_Z a / inject_Z b)%Q ∧ (inject_Z a / inject_Z b <= 1)%Q.
Proof.
  intros [Ha Hab] Hb.
  assert (Hb' : (0 < inject_Z b)%Q) by (rewrite (Zlt_Qlt 0 b) in Hb; exact Hb).
  split.
  - apply Qle_shift_div_l; [done|]. rewrite Qmult_0_l. by rewrite (Zle_Qle 0 a) in Ha.
  - apply Qle_shift_div_r; [done|]. rewrite Qmult_1_l. by rewrite (Zle_Qle a b) in Hab.
Qed.

Lemma precision_at_k_eq ids rs (k : Z) :
  (1 ≤ k)%Z →
  precision_at_k ids rs k = Ok (prec_at ids rs (Z.to_nat k)).
Proof.
  intros Hk. unfold precision_at_k, truediv, prec_at.
  destruct (Z.eqb_spec k 0); [lia|].
  rewrite py_prefix_nonneg by lia.
  rewrite count_in_filter, filter_take_hits. by rewrite Z2Nat.id by lia.
Qed.

(** C5. For [k ≥ 1], [precision_at_k] returns the number of the first [k]
    retrieved ids that are in the relevant set divided by [k] (also when
    fewer than [k] ids were retrieved); the value lies in [[0,1]], is 1 when
    each of the first [k] positions holds a relevant id, and 0 when none
    does. *)
Theorem precision_at_k_spec (ids : list string) (rs : gset string) (k : Z) :
  (1 ≤ k)%Z →
  ∃ p : Q,
    precision_at_k ids rs k = Ok p ∧
    p = (inject_Z (Z.of_nat (hits_in_first ids rs (Z.to_nat k))) / inject_Z k)%Q ∧
    (0 <= p)%Q ∧ (p <= 1)%Q ∧
    ((∀ i, (i < Z.to_nat k)%nat → relevant_at ids rs i) → (p == 1)%Q) ∧
    ((∀ i, (i < Z.to_nat k)%nat → ¬ relevant_at ids rs i) → (p == 0)%Q).
Proof.
  intros Hk. eexists. split; [by apply precision_at_k_eq|].
  unfold prec_at. rewrite Z2Nat.id by lia.
  pose proof (hits_in_first_le ids rs (Z.to_nat k)) as Hle.
  split; [done|].
  destruct (Qdiv_Z_bounds (Z.of_nat (hits_in_first ids rs (Z.to_nat k))) k) as [H0 H1];
    [lia | lia |].
  repeat split; try done.
  - intros Hall. rewrite hits_in_first_all by done. rewrite Z2Nat.id by lia.
    apply Qmult_inv_r. intros Hz. 
    assert (inject_Z k == inject_Z 0)%Q as Hz' by exact Hz.
    apply (proj1 (inject_Z_injective _ _)) in Hz'. lia.
  - intros Hnone. rewrite hits_in_first_none by done. simpl. unfold Qdiv. apply Qmult_0_l.
Qed.

Lemma hits_total_zero_iff (ids : list string) (rs : gset string) :
  hits_in_first ids rs (length ids) = 0%nat ↔ ∀ d, d ∈ ids → d ∉ rs.
Proof.
  split.
  - intros H d Hd Hr. rewrite <- filter_take_hits, take_ge in H by lia.
    apply nil_length_inv in H.
    by eapply (filter_nil_not_elem_of (λ d : string, d ∈ rs)).
  - intros H. apply hits_in_first_none. intros i _ (d & Hi & Hd).
    eapply H; [|done]. by eapply list_elem_of_lookup_2.
Qed.

Lemma relevant_at_middle (pre l : list string) (d : string) (rs : gset string) :
  relevant_at (pre ++ d :: l) rs (length pre) ↔ d ∈ rs.
Proof.
  unfold relevant_at. rewrite list_lookup_middle by done. split.
  - by intros (d' & [= <-] & ?).
  - intros ?. by exists d.
Qed.

Lemma ap_loop_inv (rs : gset string) (l pre : list string) (s : Q) :
  ∃ s' : Q,
    ap_loop rs (enumerate l (Z.of_nat (length pre) + 1))
      (Z.of_nat (hits_in_first (pre ++ l) rs (length pre))) s
    = Ok (Z.of_nat (hits_in_first (pre ++ l) rs (length (pre ++ l))), s') ∧
    (s' == s + Qsum (map (prec_at (pre ++ l) rs)
                  (filter (λ r, relevant_at (pre ++ l) rs (pred r))
                     (seq (S (length pre)) (length l)))))%Q.
Proof.
  revert pre s. induction l as [|d l IH]; intros pre s.
  - exists s. simpl. rewrite app_nil_r. split; [done|]. ring.
  - simpl enumerate. cbn [ap_loop length seq].
    specialize (IH (pre ++ [d])). rewrite <- app_assoc in IH. simpl in IH.
    rewrite length_app in IH. simpl in IH.
    replace (length pre + 1)%nat with (S (length pre)) in IH by lia.
    replace (Z.of_nat (S (length pre)) + 1)%Z with (Z.of_nat (length pre) + 1 + 1)%Z in IH by lia.
    rewrite hits_in_first_S in IH.
    rewrite filter_cons. simpl pred.
    pose proof (relevant_at_middle pre l d rs) as Hmid.
    case_bool_decide as Hd.
    + rewrite decide_True in IH by (by apply Hmid).
      rewrite decide_True by (by apply Hmid).
      unfold truediv. destruct (Z.eqb_spec (Z.of_nat (length pre) + 1) 0) as [|_]; [lia|].
      cbn [rbind].
      replace (Z.of_nat (hits_in_first (pre ++ d :: l) rs (length pre) + 1))
        with (Z.of_nat (hits_in_first (pre ++ d :: l) rs (length pre)) + 1)%Z in IH by lia.
      destruct (IH (s + inject_Z (Z.of_nat (hits_in_first (pre ++ d :: l) rs (length pre)) + 1)
                      / inject_Z (Z.of_nat (length pre) + 1))%Q) as (s' & Hrun & Hs').
      exists s'. split; [exact Hrun|].
      rewrite Hs'. cbn [map Qsum foldr]. fold (Qsum).
      unfold prec_at at 2. rewrite hits_in_first_S, decide_True by (by apply Hmid).
      replace (Z.of_nat (hits_in_first (pre ++ d :: l) rs (length pre) + 1))
        with (Z.of_nat (hits_in_first (pre ++ d :: l) rs (length pre)) + 1)%Z by lia.
      replace (Z.of_nat (S (length pre))) with (Z.of_nat (length pre) + 1)%Z by lia.
      unfold Qsum. symmetry. apply Qplus_assoc.
    + rewrite decide_False in IH by (by rewrite Hmid).
      rewrite decide_False by (by rewrite Hmid).
      rewrite Nat.add_0_r in IH.
      destruct (IH s) as (s' & Hrun & Hs'). exists s'. done.
Qed.

(** C6. [average_precision] never raises; it is 0 when no retrieved id is
    relevant, and otherwise the sum of precision-at-each-hit-rank over the
    whole retrieved list divided by the size of the relevant set; on
    relevant set {"1","3"} and retrieved order ["2","1","3"] it is
    ((1/2)+(2/3))/2. *)
Theorem average_precision_spec (ids : list string) (rs : gset string) :
  ∃ q : Q,
    average_precision ids rs = Ok q ∧
    ((∀ d, d ∈ ids → d ∉ rs) → q = 0%Q) ∧
    ((∃ d, d ∈ ids ∧ d ∈ rs) →
       (0 < size rs)%nat ∧ (q == ap_sum ids rs / inject_Z (Z.of_nat (size rs)))%Q) ∧
    (∃ q0 : Q, average_precision ["2"; "1"; "3"] {["1"; "3"]} = Ok q0 ∧
               (q0 == ((1 # 2) + (2 # 3)) / 2)%Q).
Proof.
  destruct (ap_loop_inv rs ids [] 0) as (s' & Hrun & Hs').
  change (ap_loop rs (enumerate ids 1) 0 0
          = Ok (Z.of_nat (hits_in_first ids rs (length ids)), s')) in Hrun.
  change (s' == 0 + ap_sum ids rs)%Q in Hs'.
  unfold average_precision. rewrite Hrun. cbn [rbind].
  destruct (Z.eqb_spec (Z.of_nat (hits_in_first ids rs (length ids))) 0) as [Hz|Hnz].
  - exists 0%Q. split; [done|]. split; [done|]. split.
    + intros (d & Hd & Hr). exfalso.
      assert (Hz' : hits_in_first ids rs (length ids) = 0%nat) by lia.
      by eapply (proj1 (hits_total_zero_iff ids rs) Hz').
    + eexists. split; [vm_compute; reflexivity | reflexivity].
  - assert (Hex : ∃ d, d ∈ ids ∧ d ∈ rs).
    { destruct (decide (Exists (λ d, d ∈ rs) ids)) as [He|He].
      - apply Exists_exists in He. exact He.
      - exfalso. apply Hnz. f_equal. change 0%Z with (Z.of_nat 0). f_equal.
        apply hits_total_zero_iff. intros d Hd Hr. apply He, Exists_exists. eauto. }
    assert (Hsize : (0 < size rs)%nat).
    { destruct Hex as (d & _ & Hr). destruct (size rs) eqn:E; [|lia].
      apply size_empty_inv in E. set_solver. }
    unfold fdiv. destruct (Z.eqb_spec (Z.of_nat (size rs)) 0) as [|_]; [lia|].
    eexists. split; [done|]. split.
    + intros Hnone. destruct Hex as (d & Hd & Hr). by destruct (Hnone d Hd).
    + split.
      * intros _. split; [done|]. rewrite Hs'. by rewrite Qplus_0_l.
      * eexists. split; [vm_compute; reflexivity | reflexivity].
Qed.

Lemma count_in_nonneg (rs : gset string) (l : list string) : (0 ≤ count_in rs l)%Z.
Proof. rewrite count_in_filter. lia. Qed.

Lemma Qdiv_Z_neg (a b : Z) : (0 ≤ a)%Z → (b < 0)%Z → (inject_Z a / inject_Z b <= 0)%Q.
Proof.
  intros Ha Hb. destruct b as [|p|p]; try lia.
  unfold Qdiv, Qinv, Qmult, Qle, inject_Z. simpl. lia.
Qed.

(** C10. [precision_at_k] divides by [k] with no guard: [k = 0] raises
    [ZeroDivisionError] for every input, every other [k] returns the hit count
    of [retrieved_ids[:k]] over [k]; that quotient is a fraction in [[0,1]]
    for [k ≥ 1] and is never positive for [k < 0]. *)
Theorem precision_at_k_division_unguarded :
  (∀ (ids : list string) (rs : gset string),
     precision_at_k ids rs 0 = Raise ZeroDivisionError) ∧
  (∀ (ids : list string) (rs : gset string) (k : Z), k ≠ 0%Z →
     precision_at_k ids rs k
     = Ok (inject_Z (count_in rs (py_prefix ids k)) / inject_Z k)%Q) ∧
  (∀ (ids : list string) (rs : gset string) (k : Z), (1 ≤ k)%Z →
     ∃ p : Q, precision_at_k ids rs k = Ok p ∧ (0 <= p)%Q ∧ (p <= 1)%Q) ∧
  (∀ (ids : list string) (rs : gset string) (k : Z) (p : Q), (k < 0)%Z →
     precision_at_k ids rs k = Ok p → (p <= 0)%Q) ∧
  precision_at_k ["a"; "b"] {["a"]} (-1) = Ok (-1)%Q.
Proof.
  split; [done|]. split.
  { intros ids rs k Hk. unfold precision_at_k, truediv.
    by destruct (Z.eqb_spec k 0). }
  split.
  { intros ids rs k Hk. eexists. split; [by apply precision_at_k_eq|].
    apply Qdiv_Z_bounds; [|lia].
    pose proof (hits_in_first_le ids rs (Z.to_nat k)). lia. }
  split; [|by vm_compute].
  intros ids rs k p Hk. unfold precision_at_k, truediv.
  destruct (Z.eqb_spec k 0); [lia|]. intros [= <-].
  apply Qdiv_Z_neg; [apply count_in_nonneg | done].
Qed.

Lemma precision_at_k_spec_witness :
  (1 ≤ 3)%Z ∧ ∃ p : Q, precision_at_k ["2"; "1"; "3"] {["1"; "3"]} 3 = Ok p ∧ (p <= 1)%Q.
Proof.
  split; [lia|].
  destruct (precision_at_k_spec ["2"; "1"; "3"] {["1"; "3"]} 3) as (p & Hp & _ & _ & Hle & _);
    [lia|].
  exists p. split; [exact Hp | exact Hle].
Defined.

Lemma Rsum_app (l1 l2 : list R) : Rsum (l1 ++ l2) = (Rsum l1 + Rsum l2)%R.
Proof. induction l1 as [|x l1 IH]; simpl; [lra | rewrite IH; lra]. Qed.

Lemma Rsum_zero {A} (f : A → R) (l : list A) :
  (∀ x, x ∈ l → f x = 0%R) → Rsum (map f l) = 0%R.
Proof.
  induction l as [|x l IH]; intros H; simpl; [done|].
  rewrite H by left. rewrite IH; [lra|]. intros y Hy. apply H. by right.
Qed.

Lemma Rsum_ext {A} (f g : A → R) (l : list A) :
  (∀ x, x ∈ l → f x = g x) → Rsum (map f l) = Rsum (map g l).
Proof.
  induction l as [|x l IH]; intros H; simpl; [done|].
  rewrite H by left. rewrite IH; [done|]. intros y Hy. apply H. by right.
Qed.

Lemma log2_pos (r : nat) : (2 ≤ r)%nat → (0 < log2 (INR r))%R.
Proof.
  intros Hr. unfold log2.
  assert (H2 : (0 < ln 2)%R) by (pose proof ln_lt_2; lra).
  apply Rdiv_lt_0_compat; [|done].
  rewrite <- ln_1. apply ln_increasing; [lra|]. apply lt_1_INR. lia.
Qed.

Lemma disc_pos (r : nat) : (1 ≤ r)%nat → (0 < disc r)%R.
Proof.
  intros Hr. unfold disc. case_decide; [lra|].
  apply Rdiv_lt_0_compat; [lra|]. apply log2_pos. lia.
Qed.

(** One step of the accumulation adds [rel] times the discount of the rank. *)
Lemma dcg_add_disc (acc : R) (n : nat) (rel : R) :
  dcg_add acc (Z.of_nat n + 1) rel = (acc + rel * disc (S n))%R.
Proof.
  unfold dcg_add, disc.
  destruct (Z.eqb_spec (Z.of_nat n + 1) 1) as [E|E].
  - rewrite decide_True by lia. lra.
  - rewrite decide_False by lia.
    replace (Z.of_nat n + 1)%Z with (Z.of_nat (S n)) by lia.
    rewrite <- INR_IZR_INZ. unfold Rdiv. lra.
Qed.

Lemma dcg_loop_inv (rs : gset string) (l pre : list string) (acc : R) :
  dcg_loop rs (enumerate l (Z.of_nat (length pre) + 1)) acc
  = (acc + Rsum (map (gain (pre ++ l) rs) (seq (S (length pre)) (length l))))%R.
Proof.
  revert pre acc. induction l as [|d l IH]; intros pre acc.
  - simpl. lra.
  - cbn [enumerate dcg_loop length seq map Rsum foldr].
    specialize (IH (pre ++ [d])). rewrite <- app_assoc in IH. simpl in IH.
    rewrite length_app in IH. simpl in IH.
    replace (length pre + 1)%nat with (S (length pre)) in IH by lia.
    replace (Z.of_nat (S (length pre)) + 1)%Z with (Z.of_nat (length pre) + 1 + 1)%Z in IH by lia.
    rewrite IH, dcg_add_disc. unfold gain at 2. simpl pred.
    pose proof (relevant_at_middle pre l d rs) as Hmid.
    case_bool_decide as Hd.
    + rewrite decide_True by (by apply Hmid). unfold Rsum. lra.
    + rewrite decide_False by (by rewrite Hmid). unfold Rsum. lra.
Qed.

Lemma gain_take (ids : list string) (rs : gset string) (n r : nat) :
  (1 ≤ r ≤ n)%nat → gain (take n ids) rs r = gain ids rs r.
Proof.
  intros Hr. unfold gain.
  assert (Hiff : relevant_at (take n ids) rs (pred r) ↔ relevant_at ids rs (pred r)).
  { unfold relevant_at. split; intros (d & Hl & Hd); exists d; split; try done.
    - by rewrite lookup_take_lt in Hl by lia.
    - by rewrite lookup_take_lt by lia. }
  destruct (decide (relevant_at (take n ids) rs (pred r))),
    (decide (relevant_at ids rs (pred r))); tauto.
Qed.

Lemma gain_beyond (ids : list string) (rs : gset string) (r : nat) :
  (length ids < r)%nat → gain ids rs r = 0%R.
Proof.
  intros Hr. unfold gain. rewrite decide_False; [done|].
  intros (d & Hl & _). apply lookup_lt_Some in Hl. lia.
Qed.

Lemma dcg_at_k_sum (ids : list string) (rs : gset string) (k : Z) :
  (0 ≤ k)%Z → dcg_at_k ids rs k = dcg_sum ids rs (Z.to_nat k).
Proof.
  intros Hk. unfold dcg_at_k, dcg_sum. rewrite py_prefix_nonneg by done.
  set (n := Z.to_nat k).
  pose proof (dcg_loop_inv rs (take n ids) [] 0) as H.
  change (dcg_loop rs (enumerate (take n ids) 1) 0
          = (0 + Rsum (map (gain (take n ids) rs) (seq 1 (length (take n ids)))))%R) in H.
  rewrite H, Rplus_0_l. clear H.
  rewrite length_take.
  set (m := n `min` length ids).
  assert (Hsplit : seq 1 n = seq 1 m ++ seq (1 + m) (n - m)).
  { rewrite <- seq_app. f_equal. lia. }
  rewrite Hsplit, map_app, Rsum_app.
  rewrite (Rsum_zero (gain ids rs) (seq (1 + m) (n - m))).
  - rewrite Rplus_0_r. apply Rsum_ext. intros r Hr%elem_of_seq.
    apply gain_take. lia.
  - intros r Hr%elem_of_seq. apply gain_beyond. lia.
Qed.

Lemma enumerate_app {A} (l1 l2 : list A) (i : Z) :
  enumerate (l1 ++ l2) i = enumerate l1 i ++ enumerate l2 (i + Z.of_nat (length l1)).
Proof.
  revert i. induction l1 as [|x l1 IH]; intros i; simpl.
  - f_equal. lia.
  - rewrite IH. do 3 f_equal. lia.
Qed.

Lemma idcg_loop_app (l1 l2 : list (Z * Z)) (acc : R) :
  idcg_loop (l1 ++ l2) acc = idcg_loop l2 (idcg_loop l1 acc).
Proof.
  revert acc. induction l1 as [|[i rel] l1 IH]; intros acc; simpl; [done | apply IH].
Qed.

Lemma idcg_loop_ones (n s : nat) (acc : R) :
  idcg_loop (enumerate (replicate n 1%Z) (Z.of_nat s + 1)) acc
  = (acc + Rsum (map disc (seq (S s) n)))%R.
Proof.
  revert s acc. induction n as [|n IH]; intros s acc; simpl; [lra|].
  replace (Z.of_nat s + 1 + 1)%Z with (Z.of_nat (S s) + 1)%Z by lia.
  rewrite IH, dcg_add_disc. unfold Rsum. lra.
Qed.

Lemma idcg_loop_zeros (n s : nat) (acc : R) :
  idcg_loop (enumerate (replicate n 0%Z) (Z.of_nat s + 1)) acc = acc.
Proof.
  revert s acc. induction n as [|n IH]; intros s acc; simpl; [done|].
  replace (Z.of_nat s + 1 + 1)%Z with (Z.of_nat (S s) + 1)%Z by lia.
  rewrite IH, dcg_add_disc. lra.
Qed.

Lemma Sorted_ge_ideal (m z : nat) : Sorted Z.ge (replicate m 1%Z ++ replicate z 0%Z).
Proof.
  induction m as [|m IH]; simpl.
  - induction z as [|z IHz]; simpl; [constructor|].
    constructor; [done|]. destruct z; simpl; constructor; lia.
  - constructor; [done|]. destruct m; simpl; [destruct z; simpl|]; constructor; lia.
Qed.

Lemma sorted_reverse_ideal (m z : nat) :
  sorted_reverse (replicate m 1%Z ++ replicate z 0%Z) = replicate m 1%Z ++ replicate z 0%Z.
Proof.
  unfold sorted_reverse.
  assert (Transitive Z.ge) by (intros ???; lia).
  assert (AntiSymm eq Z.ge) by (intros ????; lia).
  assert (Total Z.ge) by (intros x y; lia).
  apply (Sorted_unique Z.ge).
  - by apply Sorted_merge_sort.
  - apply Sorted_ge_ideal.
  - apply merge_sort_Permutation.
Qed.

Lemma idcg_at_k_sum (rs : gset string) (k : Z) :
  (0 ≤ k)%Z → idcg_at_k rs k = idcg_sum (size rs) (Z.to_nat k).
Proof.
  intros Hk. unfold idcg_at_k, ideal, idcg_sum.
  rewrite sorted_reverse_ideal, py_prefix_nonneg by done.
  set (n := Z.to_nat k). set (m := size rs).
  rewrite take_app, !take_replicate, length_replicate.
  rewrite enumerate_app, idcg_loop_app, length_replicate.
  rewrite (idcg_loop_ones (n `min` m) 0).
  replace (1 + Z.of_nat (n `min` m))%Z with (Z.of_nat (n `min` m) + 1)%Z by lia.
  rewrite idcg_loop_zeros, Rplus_0_l. by rewrite Nat.min_comm.
Qed.

Lemma Rsum_disc_pos (n : nat) : (1 ≤ n)%nat → (0 < Rsum (map disc (seq 1 n)))%R.
Proof.
  intros Hn. destruct n as [|n]; [lia|]. clear Hn.
  induction n as [|n IH].
  - cbn [seq map Rsum foldr]. pose proof (disc_pos 1 ltac:(lia)). lra.
  - rewrite seq_S, map_app, Rsum_app. cbn [map Rsum foldr].
    pose proof (disc_pos (1 + S n) ltac:(lia)). lra.
Qed.

Lemma idcg_sum_zero (m n : nat) : (m `min` n = 0)%nat → idcg_sum m n = 0%R.
Proof. intros H. unfold idcg_sum. by rewrite H. Qed.

Lemma dcg_sum_all (ids : list string) (rs : gset string) (n : nat) :
  (∀ i, (i < n)%nat → relevant_at ids rs i) →
  dcg_sum ids rs n = Rsum (map disc (seq 1 n)).
Proof.
  intros H. unfold dcg_sum. apply Rsum_ext. intros r Hr%elem_of_seq.
  unfold gain. rewrite decide_True; [done|]. apply H. lia.
Qed.

Lemma NoDup_sub_length {A} (l k : list A) :
  NoDup l → (∀ x, x ∈ l → x ∈ k) → (length l ≤ length k)%nat.
Proof.
  intros Hl Hsub. apply submseteq_length, NoDup_submseteq; done.
Qed.

Lemma relevant_first_prefix (ids : list string) (rs : gset string) (n : nat) :
  relevant_first ids rs → (n ≤ size rs)%nat →
  ∀ i, (i < n)%nat → relevant_at ids rs i.
Proof.
  intros (rel & nonrel & -> & Hrel & _ & Hall) Hn i Hi.
  assert (Hlen : (size rs ≤ length rel)%nat).
  { unfold size, set_size. simpl. apply NoDup_sub_length; [apply NoDup_elements|].
    intros d Hd. apply Hall. by apply elem_of_elements. }
  destruct (lookup_lt_is_Some_2 rel i) as [d Hd]; [lia|].
  exists d. split; [by apply lookup_app_l_Some|].
  rewrite Forall_forall in Hrel. apply Hrel. by eapply list_elem_of_lookup_2.
Qed.

Lemma ndcg_at_k_all_relevant (ids : list string) (rs : gset string) (k : Z) :
  (1 ≤ k ≤ Z.of_nat (size rs))%Z →
  (∀ i, (i < Z.to_nat k)%nat → relevant_at ids rs i) →
  ndcg_at_k ids rs k = 1%R.
Proof.
  intros Hrange Hall. unfold ndcg_at_k.
  rewrite dcg_at_k_sum, idcg_at_k_sum by lia.
  rewrite dcg_sum_all by done.
  unfold idcg_sum. replace (size rs `min` Z.to_nat k)%nat with (Z.to_nat k) by lia.
  pose proof (Rsum_disc_pos (Z.to_nat k)) as Hpos.
  destruct (Rlt_dec 0 (Rsum (map disc (seq 1 (Z.to_nat k))))) as [Hp|Hn].
  - field. lra.
  - exfalso. apply Hn, Hpos. lia.
Qed.

(** C7 (amended). For a cut-off [k ≥ 0], [dcg_at_k] is the sum over the first
    [k] ranks of the binary relevance times the discount (none at rank 1,
    [1 / log2 i] at rank [i > 1]); the ideal DCG is that sum for
    [|relevant_set|] ones padded with zeros and truncated to [k];
    [ndcg_at_k] is their quotient, and 0 when the ideal DCG is 0; it is 1
    when the first [k] retrieved ids are all relevant, in particular when
    the retrieved order places every relevant document before all
    non-relevant ones, for [1 ≤ k ≤ |relevant_set|]. *)
Theorem ndcg_at_k_spec (ids : list string) (rs : gset string) (k : Z) :
  (0 ≤ k)%Z →
  dcg_at_k ids rs k = dcg_sum ids rs (Z.to_nat k) ∧
  idcg_at_k rs k = idcg_sum (size rs) (Z.to_nat k) ∧
  ((0 < idcg_at_k rs k)%R → ndcg_at_k ids rs k = (dcg_at_k ids rs k / idcg_at_k rs k)%R) ∧
  (idcg_at_k rs k = 0%R → ndcg_at_k ids rs k = 0%R) ∧
  ((1 ≤ k ≤ Z.of_nat (size rs))%Z →
     (∀ i, (i < Z.to_nat k)%nat → relevant_at ids rs i) → ndcg_at_k ids rs k = 1%R) ∧
  ((1 ≤ k ≤ Z.of_nat (size rs))%Z → relevant_first ids rs → ndcg_at_k ids rs k = 1%R).
Proof.
  intros Hk. split; [by apply dcg_at_k_sum|]. split; [by apply idcg_at_k_sum|].
  unfold ndcg_at_k. repeat split.
  - intros Hpos. by destruct (Rlt_dec 0 (idcg_at_k rs k)).
  - intros Hz. destruct (Rlt_dec 0 (idcg_at_k rs k)); [lra | done].
  - intros Hrange Hall. by apply ndcg_at_k_all_relevant.
  - intros Hrange Hfirst. apply ndcg_at_k_all_relevant; [done|].
    apply relevant_first_prefix; [done | lia].
Qed.

Lemma relevant_first_single : relevant_first ["a"] {["a"]}.
Proof.
  exists ["a"], []. split; [done|]. split; [|split].
  - constructor; [set_solver | constructor].
  - constructor.
  - intros d Hd. set_solver.
Qed.

(** C7 as stated fails at [k = 0 ≤ |relevant_set|]: the ideal DCG is 0 and the
    guard returns 0, although the only retrieved document is the only
    relevant one. *)
Lemma ndcg_at_k_zero_cutoff :
  relevant_first ["a"] {["a"]} ∧ (0 ≤ Z.of_nat (size ({["a"]} : gset string)))%Z ∧
  ndcg_at_k ["a"] {["a"]} 0 = 0%R ∧ ndcg_at_k ["a"] {["a"]} 0 ≠ 1%R.
Proof.
  split; [apply relevant_first_single|]. split; [lia|].
  assert (H : ndcg_at_k ["a"] {["a"]} 0 = 0%R).
  { unfold ndcg_at_k. rewrite idcg_at_k_sum by lia.
    rewrite idcg_sum_zero by (simpl; lia).
    destruct (Rlt_dec 0 0); [lra | done]. }
  split; [done|]. rewrite H. lra.
Qed.

Lemma ndcg_at_k_spec_witness :
  (0 ≤ 1)%Z ∧ ndcg_at_k ["a"] {["a"]} 1 = 1%R.
Proof.
  split; [lia|].
  destruct (ndcg_at_k_spec ["a"] {["a"]} 1) as (_ & _ & _ & _ & _ & H); [lia|].
  apply H; [|apply relevant_first_single].
  rewrite size_singleton. lia.
Defined.

End EvalFacts.

(** ** NumPy primitives *)

Module NpFacts.
Import Np.

Lemma Rleb_true (x y : R) : Rleb x y = true → (x <= y)%R.
Proof. unfold Rleb. destruct (Rle_dec x y); [done | discriminate]. Qed.

Lemma Rleb_false (x y : R) : Rleb x y = false → (y <= x)%R.
Proof. unfold Rleb. destruct (Rle_dec x y); [discriminate | intros _; lra]. Qed.

Lemma Rltb_true (x y : R) : Rltb x y = true → (x <= y)%R.
Proof. unfold Rltb. destruct (Rlt_dec x y); [intros _; lra | discriminate]. Qed.

Lemma Rltb_false (x y : R) : Rltb x y = false → (y <= x)%R.
Proof. unfold Rltb. destruct (Rlt_dec x y); [discriminate | intros _; lra]. Qed.

Section InsertionSort.
Variable before : R → R → bool.
Hypothesis before_true : ∀ x y, before x y = true → (x <= y)%R.
Hypothesis before_false : ∀ x y, before x y = false → (y <= x)%R.
Variable a : vec.

Let le_key (x y : nat) : Prop := (nth x a 0 <= nth y a 0)%R.

Lemma insert_pos_perm (i : nat) (l : list nat) : insert_pos before a i l ≡ₚ i :: l.
Proof.
  induction l as [|j l IH]; simpl; [done|].
  destruct (before _ _); [done|]. rewrite IH. apply perm_swap.
Qed.

Lemma insert_pos_sorted (i : nat) (l : list nat) :
  StronglySorted le_key l → StronglySorted le_key (insert_pos before a i l).
Proof.
  induction l as [|j l IH]; intros Hs; simpl.
  - repeat constructor.
  - apply StronglySorted_inv in Hs as [Hl Hj].
    destruct (before _ _) eqn:Hb.
    + constructor; [by constructor|].
      apply before_true in Hb. constructor; [exact Hb|].
      eapply Forall_impl; [exact Hj|]. intros y Hy. unfold le_key in *. lra.
    + constructor; [by apply IH|].
      rewrite insert_pos_perm. constructor; [|done].
      apply before_false in Hb. exact Hb.
Qed.

Lemma insertion_argsort_perm : insertion_argsort before a ≡ₚ seq 0 (length a).
Proof.
  unfold insertion_argsort. induction (seq 0 (length a)) as [|i l IH]; simpl; [done|].
  by rewrite insert_pos_perm, IH.
Qed.

Lemma insertion_argsort_sorted : StronglySorted le_key (insertion_argsort before a).
Proof.
  unfold insertion_argsort. induction (seq 0 (length a)) as [|i l IH]; simpl.
  - constructor.
  - by apply insert_pos_sorted.
Qed.
End InsertionSort.

Lemma StronglySorted_lookup {A} (Rel : A → A → Prop) (l : list A) (i j : nat) (x y : A) :
  StronglySorted Rel l → (i < j)%nat → l !! i = Some x → l !! j = Some y → Rel x y.
Proof.
  intros Hs. revert i j. induction Hs as [|z l Hs IH Hz]; intros i j Hij Hi Hj; [done|].
  destruct j as [|j]; [lia|]. simpl in Hj. destruct i as [|i]; simpl in Hi.
  - injection Hi as <-. rewrite Forall_forall in Hz. apply Hz.
    by eapply list_elem_of_lookup_2.
  - apply (IH i j); [lia | done | done].
Qed.

Lemma insertion_argsort_spec (before : R → R → bool) :
  (∀ x y, before x y = true → (x <= y)%R) →
  (∀ x y, before x y = false → (y <= x)%R) →
  ∀ a, is_argsort a (insertion_argsort before a).
Proof.
  intros Ht Hf a. split; [by apply insertion_argsort_perm|].
  intros i j x y Hij Hi Hj.
  by apply (StronglySorted_lookup _ _ i j x y (insertion_argsort_sorted before Ht Hf a)).
Qed.

Lemma argsort_stable_spec a : is_argsort a (argsort_stable a).
Proof. apply insertion_argsort_spec; [apply Rleb_true | apply Rleb_false]. Qed.

Lemma is_argsort_bound (a : vec) (idx : list nat) (i p : nat) :
  is_argsort a idx → idx !! i = Some p → (p < length a)%nat.
Proof.
  intros [Hp _] Hi. apply list_elem_of_lookup_2 in Hi. rewrite Hp in Hi.
  apply elem_of_seq in Hi. lia.
Qed.

Lemma is_argsort_length (a : vec) (idx : list nat) :
  is_argsort a idx → length idx = length a.
Proof. intros [Hp _]. by rewrite Hp, length_seq. Qed.

Lemma is_argsort_NoDup (a : vec) (idx : list nat) : is_argsort a idx → NoDup idx.
Proof. intros [Hp _]. rewrite Hp. apply NoDup_seq. Qed.

Lemma take_at_lookup {A} (l xs : list A) (idx : list nat) (i : nat) (x : A) :
  take_at l idx = Ok xs → xs !! i = Some x →
  ∃ p, idx !! i = Some p ∧ l !! p = Some x.
Proof.
  unfold take_at. destruct (mapM _ idx) as [ys|] eqn:E; [|done]. intros [= <-] Hx.
  apply mapM_Some_1 in E.
  destruct (Forall2_lookup_r _ _ _ _ _ E Hx) as (p & Hp & Hl). eauto.
Qed.

Lemma take_at_length {A} (l xs : list A) (idx : list nat) :
  take_at l idx = Ok xs → length xs = length idx.
Proof.
  unfold take_at. destruct (mapM _ idx) as [ys|] eqn:E; [|done]. intros [= <-].
  symmetry. by eapply length_mapM.
Qed.

Lemma take_at_ok {A} (l : list A) (idx : list nat) :
  Forall (λ p, p < length l)%nat idx → is_ok (take_at l idx).
Proof.
  intros H. unfold take_at, is_ok.
  destruct (mapM_is_Some_2 (λ i, l !! i) idx) as [xs ->]; [|eauto].
  eapply Forall_impl; [exact H|]. intros p Hp. by apply lookup_lt_is_Some_2.
Qed.

Lemma take_at_raise {A} (l : list A) (idx : list nat) (e : exn) :
  take_at l idx = Raise e → e = IndexError.
Proof. unfold take_at. destruct (mapM _ idx); [done | by intros [= <-]]. Qed.

(** Indexing two arrays of the same length at the same positions succeeds or
    fails together. *)
Lemma take_at_same_length {A B} (l : list A) (k : list B) (idx : list nat) :
  length l = length k → is_ok (take_at l idx) → is_ok (take_at k idx).
Proof.
  intros Hlen [xs Hxs]. apply take_at_ok. apply Forall_forall. intros p Hp.
  apply list_elem_of_lookup_1 in Hp as [i Hi].
  unfold take_at in Hxs. destruct (mapM _ idx) as [ys|] eqn:E; [|done].
  apply mapM_Some_1 in E.
  destruct (Forall2_lookup_l _ _ _ _ _ E Hi) as (y & _ & Hl).
  apply lookup_lt_Some in Hl. lia.
Qed.

(** *** The compare-exchange network *)

Section Network.
Variables l0 l1 l2 l3 : option R * nat.

Lemma cmp_exchange_01 :
  cmp_exchange [l0; l1; l2; l3] (0, 1)%nat
  = if key_lt l1.1 l0.1 then [l1; l0; l2; l3] else [l0; l1; l2; l3].
Proof. unfold cmp_exchange. simpl. by destruct (key_lt _ _). Qed.

Lemma cmp_exchange_23 :
  cmp_exchange [l0; l1; l2; l3] (2, 3)%nat
  = if key_lt l3.1 l2.1 then [l0; l1; l3; l2] else [l0; l1; l2; l3].
Proof. unfold cmp_exchange. simpl. by destruct (key_lt _ _). Qed.

Lemma cmp_exchange_03 :
  cmp_exchange [l0; l1; l2; l3] (0, 3)%nat
  = if key_lt l3.1 l0.1 then [l3; l1; l2; l0] else [l0; l1; l2; l3].
Proof. unfold cmp_exchange. simpl. by destruct (key_lt _ _). Qed.

Lemma cmp_exchange_12 :
  cmp_exchange [l0; l1; l2; l3] (1, 2)%nat
  = if key_lt l2.1 l1.1 then [l0; l2; l1; l3] else [l0; l1; l2; l3].
Proof. unfold cmp_exchange. simpl. by destruct (key_lt _ _). Qed.

End Network.

Lemma key_lt_true (x y : R) : key_lt (Some x) (Some y) = true → (x <= y)%R.
Proof. apply Rltb_true. Qed.

Lemma key_lt_false (x y : R) : key_lt (Some x) (Some y) = false → (y <= x)%R.
Proof. apply Rltb_false. Qed.

Ltac network_step lem :=
  rewrite lem; cbn [fst snd];
  match goal with
  | |- context [key_lt ?a ?b] =>
      let E := fresh "E" in
      destruct (key_lt a b) eqn:E;
      [ first [ discriminate E | apply key_lt_true in E | idtac ]
      | first [ discriminate E | apply key_lt_false in E | idtac ] ]
  end.

(** On at most four keys the network is a sort: it meets the contract of
    [argsort]. *)
Lemma argsort_network_spec (a : vec) : is_argsort a (argsort_network a).
Proof.
  unfold argsort_network.
  destruct (length a <=? 4)%nat eqn:Hlen; [|apply argsort_stable_spec].
  apply Nat.leb_le in Hlen.
  destruct a as [|x0 [|x1 [|x2 [|x3 [|x4 a]]]]]; [| | | | |simpl in Hlen; lia];
    unfold network4; cbn [length seq fmap list_fmap zip zip_with app replicate take foldl];
    network_step cmp_exchange_01; network_step cmp_exchange_23;
    network_step cmp_exchange_03; network_step cmp_exchange_12;
    network_step cmp_exchange_01; network_step cmp_exchange_23;
    (split;
     [ apply (bool_decide_unpack _); by vm_compute
     | intros i j x y Hij Hi Hj;
       repeat (destruct i as [|i]; [|try (simpl in Hi; done)]);
       repeat (destruct j as [|j]; [|try (simpl in Hj; done)]);
       try lia; simpl in Hi, Hj; simplify_eq; simpl; lra ]).
Qed.

Lemma cmp_exchange_keep (lanes : list (option R * nat)) (i j : nat) (a b : option R * nat) :
  lanes !! i = Some a → lanes !! j = Some b → key_lt b.1 a.1 = false →
  cmp_exchange lanes (i, j) = lanes.
Proof. intros Hi Hj Hk. unfold cmp_exchange. simpl. by rewrite Hi, Hj, Hk. Qed.

Lemma cmp_exchange_swap (lanes : list (option R * nat)) (i j : nat) (a b : option R * nat) :
  lanes !! i = Some a → lanes !! j = Some b → key_lt b.1 a.1 = true →
  cmp_exchange lanes (i, j) = <[i := b]> (<[j := a]> lanes).
Proof. intros Hi Hj Hk. unfold cmp_exchange. simpl. by rewrite Hi, Hj, Hk. Qed.

Lemma argsort_network_ties : argsort_network (neg [0; 0; 1; 1]%R) = [3; 2; 1; 0]%nat.
Proof.
  unfold argsort_network, neg, network4. simpl.
  set (l0 := [(Some (- 0)%R, 0%nat); (Some (- 0)%R, 1%nat);
              (Some (- (1))%R, 2%nat); (Some (- (1))%R, 3%nat)]).
  assert (Hkeep : ∀ x : R, key_lt (Some x) (Some x) = false).
  { intros x. unfold key_lt, Rltb. destruct (Rlt_dec x x); [lra | done]. }
  assert (Hswap : key_lt (Some (- (1))%R) (Some (- 0)%R) = true).
  { unfold key_lt, Rltb. destruct (Rlt_dec _ _); [done | lra]. }
  rewrite (cmp_exchange_keep l0 0 1 _ _ eq_refl eq_refl (Hkeep _)).
  rewrite (cmp_exchange_keep l0 2 3 _ _ eq_refl eq_refl (Hkeep _)).
  rewrite (cmp_exchange_swap l0 0 3 _ _ eq_refl eq_refl Hswap).
  unfold l0. simpl.
  set (l1 := [(Some (- (1))%R, 3%nat); (Some (- 0)%R, 1%nat);
              (Some (- (1))%R, 2%nat); (Some (- 0)%R, 0%nat)]).
  rewrite (cmp_exchange_swap l1 1 2 _ _ eq_refl eq_refl Hswap).
  unfold l1. simpl.
  set (l2 := [(Some (- (1))%R, 3%nat); (Some (- (1))%R, 2%nat);
              (Some (- 0)%R, 1%nat); (Some (- 0)%R, 0%nat)]).
  rewrite (cmp_exchange_keep l2 0 1 _ _ eq_refl eq_refl (Hkeep _)).
  by rewrite (cmp_exchange_keep l2 2 3 _ _ eq_refl eq_refl (Hkeep _)).
Qed.

End NpFacts.

(** ** The hybrid ranker *)

Module RankerFacts.
Import Np Sklearn Preprocess Table Index Ranker RankerSpec NpFacts.

Lemma cosine_similarity_ok (q : vec) (M : matrix) :
  M ≠ [] → Forall (λ row, length row = length q) M →
  cosine_similarity q M = Ok (map (λ row, dot (l2_normalize q) (l2_normalize row)) M).
Proof.
  intros Hne Hdim. unfold cosine_similarity. destruct M as [|r M']; [done|].
  rewrite (proj2 (forallb_forall _ _)); [done|].
  intros row Hrow. apply Nat.eqb_eq. rewrite Forall_forall in Hdim.
  apply Hdim. by apply list_elem_of_In.
Qed.

Lemma cosine_similarity_length (q : vec) (M : matrix) (s : vec) :
  cosine_similarity q M = Ok s → length s = length M.
Proof.
  unfold cosine_similarity. destruct M as [|r M']; [done|].
  destruct (forallb _ _); [|done]. intros [= <-]. simpl. by rewrite length_map.
Qed.

Lemma add_same_length (u v : vec) :
  length u = length v → add u v = Ok (zip_with Rplus u v).
Proof. intros H. unfold add, broadcast2. by rewrite decide_True. Qed.

Lemma fuse_lexical_only (sem tf : vec) :
  length sem = length tf → add (scale 0 sem) (scale (1 - 0) tf) = Ok tf.
Proof.
  intros Hlen. rewrite add_same_length by (unfold scale; by rewrite !length_map).
  f_equal. revert tf Hlen. induction sem as [|x sem IH]; intros [|y tf] Hlen; try done.
  simpl in *. f_equal; [lra | apply IH; lia].
Qed.

Lemma fuse_semantic_only (sem tf : vec) :
  length sem = length tf → add (scale 1 sem) (scale (1 - 1) tf) = Ok sem.
Proof.
  intros Hlen. rewrite add_same_length by (unfold scale; by rewrite !length_map).
  f_equal. revert tf Hlen. induction sem as [|x sem IH]; intros [|y tf] Hlen; try done.
  simpl in *. f_equal; [lra | apply IH; lia].
Qed.

Lemma assign3_lookup (rows : table) (s t e : vec) (i : nat) (r : ranked) :
  assign3 rows s t e !! i = Some r →
  rows !! i = Some (r_doc r) ∧ s !! i = Some (score r) ∧
  t !! i = Some (tf_score r) ∧ e !! i = Some (sem_score r).
Proof.
  revert s t e i. induction rows as [|d rows IH]; intros [|x s] [|y t] [|z e] i H; try done.
  destruct i as [|i]; simpl in H.
  - by injection H as <-.
  - exact (IH _ _ _ _ H).
Qed.

Lemma assign3_length (rows : table) (s t e : vec) :
  (length (assign3 rows s t e) ≤ length s)%nat.
Proof.
  revert s t e. induction rows as [|d rows IH]; intros [|x s] [|y t] [|z e]; simpl; try lia.
  specialize (IH s t e). lia.
Qed.

Lemma ranking_assign3 (rows : table) (s t e : vec) :
  length rows = length s → length s = length t → length s = length e →
  ranking (assign3 rows s t e) = zip rows s.
Proof.
  revert s t e. induction rows as [|d rows IH]; intros [|x s] [|y t] [|z e] H1 H2 H3; try done.
  simpl in *. unfold ranking in *. simpl. f_equal. apply IH; lia.
Qed.

Section WithLibraries.
Variable argsort : vec → list nat.
Variable nl : nltk.

(** With equal score vectors, the ranking of [fuse_and_rank] is that of a
    search on the one vector. *)
Lemma rank_single (docs : table) (scores other1 other2 : vec) (topk : Z) :
  length other1 = length scores → length other2 = length scores →
  rmap ranking
    (let idx := top_indices argsort scores topk in
     rows ←ᵣ iloc docs idx ;; s ←ᵣ take_at scores idx ;;
     t ←ᵣ take_at other1 idx ;; e ←ᵣ take_at other2 idx ;;
     Ok (assign3 rows s t e))
  = (let idx := top_indices argsort scores topk in
     rows ←ᵣ iloc docs idx ;; s ←ᵣ take_at scores idx ;; Ok (zip rows s)).
Proof.
  intros H1 H2. cbn zeta. set (idx := top_indices argsort scores topk).
  destruct (iloc docs idx) as [rows|e0] eqn:Hrows; [|done]. cbn [rbind].
  destruct (take_at scores idx) as [s|e0] eqn:Hs; [|done]. cbn [rbind].
  destruct (take_at_same_length scores other1 idx) as [t Ht]; [done | by exists s |].
  destruct (take_at_same_length scores other2 idx) as [e He]; [done | by exists s |].
  rewrite Ht, He. cbn [rbind rmap]. f_equal.
  apply take_at_length in Hrows, Hs, Ht, He.
  apply ranking_assign3; congruence.
Qed.

Lemma hybrid_search_scores (lex : lexical_index) (sem : semantic_index) (query : string)
    (topk : Z) (lambda_weight : R) :
  lexical_wf lex → semantic_wf sem → length (docs lex) = length (docs2 sem) →
  ∃ tf se,
    cosine_similarity (transform lex (normalize_text nl query true)) (X lex) = Ok tf ∧
    cosine_similarity (encode sem query) (emb_matrix sem) = Ok se ∧
    length tf = length (docs lex) ∧ length se = length (docs lex) ∧
    hybrid_search argsort nl lex sem query topk lambda_weight
    = fuse_and_rank argsort (docs lex) tf se topk lambda_weight.
Proof.
  intros (HneX & HlenX & HdimX) (HneE & HlenE & HdimE) Hlen.
  eexists _, _. split; [by apply cosine_similarity_ok|].
  split; [by apply cosine_similarity_ok|].
  rewrite !length_map. split; [done|]. split; [exact (eq_trans HlenE (eq_sym Hlen))|].
  unfold hybrid_search. rewrite (proj2 (Nat.eqb_eq _ _) Hlen). cbn [negb].
  rewrite !cosine_similarity_ok by done. done.
Qed.

(** C1. On a well-formed index pair, the ranking (documents and fused
    scores) of [hybrid_search] with [lambda_weight = 0] is exactly the
    result of the lexical [tfidf_search], and with [lambda_weight = 1]
    exactly the pure semantic ranking; for every weight each returned row
    carries [lambda_weight * sem_score + (1 - lambda_weight) * tf_score]. *)
Theorem hybrid_search_degenerate (lex : lexical_index) (sem : semantic_index)
    (query : string) (topk : Z) :
  lexical_wf lex → semantic_wf sem → length (docs lex) = length (docs2 sem) →
  rmap ranking (hybrid_search argsort nl lex sem query topk 0)
    = tfidf_search argsort nl lex query topk ∧
  rmap ranking (hybrid_search argsort nl lex sem query topk 1)
    = semantic_search argsort lex sem query topk ∧
  ∀ (lambda_weight : R) (rows : list ranked) (r : ranked),
    hybrid_search argsort nl lex sem query topk lambda_weight = Ok rows → r ∈ rows →
    score r = (lambda_weight * sem_score r + (1 - lambda_weight) * tf_score r)%R.
Proof.
  intros Hlex Hsem Hlen. split; [|split].
  - destruct (hybrid_search_scores lex sem query topk 0 Hlex Hsem Hlen)
      as (tf & se & Htf & Hse & Hltf & Hlse & ->).
    unfold tfidf_search, fuse_and_rank. rewrite Htf. cbn [rbind].
    rewrite fuse_lexical_only by congruence. cbn [rbind].
    apply rank_single; congruence.
  - destruct (hybrid_search_scores lex sem query topk 1 Hlex Hsem Hlen)
      as (tf & se & Htf & Hse & Hltf & Hlse & ->).
    unfold semantic_search, fuse_and_rank. rewrite Hse. cbn [rbind].
    rewrite fuse_semantic_only by congruence. cbn [rbind].
    set (idx := top_indices argsort se topk).
    destruct (iloc (docs lex) idx) as [rows|e0] eqn:Hrows; [|done]. cbn [rbind].
    destruct (take_at se idx) as [s|e0] eqn:Hs; [|done]. cbn [rbind].
    destruct (take_at_same_length se tf idx) as [t Ht]; [congruence | by exists s |].
    rewrite Ht. cbn [rbind rmap]. f_equal.
    apply take_at_length in Hrows, Hs, Ht.
    apply ranking_assign3; congruence.
  - intros lam rows r Hrun Hr.
    destruct (hybrid_search_scores lex sem query topk lam Hlex Hsem Hlen)
      as (tf & se & Htf & Hse & Hltf & Hlse & Heq).
    rewrite Heq in Hrun. unfold fuse_and_rank in Hrun.
    rewrite add_same_length in Hrun by (unfold scale; rewrite !length_map; congruence).
    cbn [rbind] in Hrun.
    set (scores := zip_with Rplus (scale lam se) (scale (1 - lam) tf)) in *.
    set (idx := top_indices argsort scores topk) in *.
    destruct (iloc (docs lex) idx) as [drows|e0] eqn:Hrows; [|done]. cbn [rbind] in Hrun.
    destruct (take_at scores idx) as [s|e0] eqn:Hs; [|done]. cbn [rbind] in Hrun.
    destruct (take_at tf idx) as [t|e0] eqn:Ht; [|done]. cbn [rbind] in Hrun.
    destruct (take_at se idx) as [e|e0] eqn:He; [|done]. cbn [rbind] in Hrun.
    injection Hrun as <-.
    apply list_elem_of_lookup_1 in Hr as [i Hi].
    apply assign3_lookup in Hi as (_ & Hsi & Hti & Hei).
    destruct (take_at_lookup _ _ _ _ _ Hs Hsi) as (p & Hp & Hsp).
    destruct (take_at_lookup _ _ _ _ _ Ht Hti) as (p' & Hp' & Htp).
    destruct (take_at_lookup _ _ _ _ _ He Hei) as (p'' & Hp'' & Hep).
    assert (p' = p) as -> by congruence. assert (p'' = p) as -> by congruence.
    unfold scores, scale in Hsp. rewrite lookup_zip_with, !list_lookup_fmap in Hsp.
    rewrite Htp, Hep in Hsp. simpl in Hsp. by injection Hsp as <-.
Qed.


End WithLibraries.

Lemma py_prefix_take {A} (l : list A) (k : Z) : ∃ n, py_prefix l k = take n l.
Proof. unfold py_prefix. destruct (k <? 0)%Z; eauto. Qed.

Lemma nth_neg (a : vec) (p : nat) : nth p (neg a) 0%R = (- nth p a 0)%R.
Proof. unfold neg. rewrite <- Ropp_0 at 1. apply map_nth. Qed.

Lemma assign3_length_eq (rows : table) (s t e : vec) :
  length rows = length s → length s = length t → length s = length e →
  length (assign3 rows s t e) = length rows.
Proof.
  revert s t e. induction rows as [|d rows IH]; intros [|x s] [|y t] [|z e] H1 H2 H3; try done.
  simpl in *. f_equal. apply IH; lia.
Qed.

Lemma hybrid_search_inv (argsort : vec → list nat) (nl : nltk) (lex : lexical_index)
    (sem : semantic_index) (query : string) (topk : Z) (lambda_weight : R)
    (rows : list ranked) :
  hybrid_search argsort nl lex sem query topk lambda_weight = Ok rows →
  length (docs lex) = length (docs2 sem) ∧
  ∃ tf se, fuse_and_rank argsort (docs lex) tf se topk lambda_weight = Ok rows.
Proof.
  unfold hybrid_search. destruct (Nat.eqb_spec (length (docs lex)) (length (docs2 sem)));
    [|done]. cbn [negb].
  destruct (cosine_similarity _ (X lex)) as [tf|]; [|done]. cbn [rbind].
  destruct (cosine_similarity _ (emb_matrix sem)) as [se|]; [|done]. cbn [rbind].
  eauto.
Qed.

Lemma hybrid_search_misaligned_length (argsort : vec → list nat) (nl : nltk)
    (lex : lexical_index) (sem : semantic_index) (query : string) (topk : Z)
    (lambda_weight : R) :
  length (docs lex) ≠ length (docs2 sem) →
  hybrid_search argsort nl lex sem query topk lambda_weight = Raise AssertionError.
Proof.
  intros H. unfold hybrid_search.
  by destruct (Nat.eqb_spec (length (docs lex)) (length (docs2 sem))).
Qed.

Section Contract.
Variable argsort : vec → list nat.
Variable nl : nltk.
Hypothesis argsort_spec : ∀ a, is_argsort a (argsort a).

Lemma top_indices_bound (scores : vec) (topk : Z) :
  Forall (λ p, p < length scores)%nat (top_indices argsort scores topk).
Proof.
  unfold top_indices. destruct (py_prefix_take (argsort (neg scores)) topk) as [n ->].
  apply Forall_take, Forall_forall. intros p Hp.
  apply list_elem_of_lookup_1 in Hp as [i Hi].
  pose proof (is_argsort_bound _ _ _ _ (argsort_spec (neg scores)) Hi) as Hb.
  unfold neg in Hb. by rewrite length_map in Hb.
Qed.

Lemma top_indices_descending (scores : vec) (topk : Z) (i j x y : nat) :
  (i < j)%nat →
  top_indices argsort scores topk !! i = Some x →
  top_indices argsort scores topk !! j = Some y →
  (nth y scores 0 <= nth x scores 0)%R.
Proof.
  unfold top_indices. destruct (py_prefix_take (argsort (neg scores)) topk) as [n ->].
  intros Hij Hi Hj. apply lookup_take_Some in Hi as [Hi _]. apply lookup_take_Some in Hj as [Hj _].
  destruct (argsort_spec (neg scores)) as [_ Hsorted].
  specialize (Hsorted i j x y Hij Hi Hj). rewrite !nth_neg in Hsorted. lra.
Qed.

Lemma top_indices_length (scores : vec) (topk : Z) :
  (0 ≤ topk)%Z → (Z.of_nat (length (top_indices argsort scores topk)) ≤ topk)%Z.
Proof. intros Hk. by apply py_prefix_length_le. Qed.

Lemma top_indices_NoDup (scores : vec) (topk : Z) : NoDup (top_indices argsort scores topk).
Proof.
  unfold top_indices. destruct (py_prefix_take (argsort (neg scores)) topk) as [n ->].
  eapply sublist_NoDup; [|apply sublist_take]. by eapply is_argsort_NoDup.
Qed.

Lemma fuse_and_rank_total (docs : table) (tf se : vec) (topk : Z) (lambda_weight : R) :
  length tf = length docs → length se = length docs →
  is_ok (fuse_and_rank argsort docs tf se topk lambda_weight).
Proof.
  intros Htf Hse. unfold fuse_and_rank.
  rewrite add_same_length by (unfold scale; rewrite !length_map; lia). cbn [rbind].
  set (scores := zip_with Rplus _ _).
  assert (Hlen : length scores = length docs).
  { unfold scores, scale. rewrite length_zip_with, !length_map. lia. }
  pose proof (top_indices_bound scores topk) as Hb.
  set (idx := top_indices argsort scores topk) in *.
  destruct (take_at_ok scores idx Hb) as [s Hs].
  destruct (take_at_same_length scores docs idx) as [rows Hrows]; [done | by exists s |].
  destruct (take_at_same_length scores tf idx) as [t Ht]; [lia | by exists s |].
  destruct (take_at_same_length scores se idx) as [e He]; [lia | by exists s |].
  unfold iloc. rewrite Hrows, Hs, Ht, He. cbn [rbind]. by eexists.
Qed.

Lemma fuse_and_rank_ranked (docs : table) (tf se : vec) (topk : Z) (lambda_weight : R)
    (rows : list ranked) :
  fuse_and_rank argsort docs tf se topk lambda_weight = Ok rows →
  ∃ (scores : vec) (idx : list nat),
    idx = top_indices argsort scores topk ∧
    length rows = length idx ∧
    ∀ i r, rows !! i = Some r →
      ∃ p, idx !! i = Some p ∧ docs !! p = Some (r_doc r) ∧ scores !! p = Some (score r).
Proof.
  unfold fuse_and_rank. destruct (add _ _) as [scores|]; [|done]. cbn [rbind].
  set (idx := top_indices argsort scores topk).
  destruct (iloc docs idx) as [drows|] eqn:Hrows; [|done]. cbn [rbind].
  destruct (take_at scores idx) as [s|] eqn:Hs; [|done]. cbn [rbind].
  destruct (take_at tf idx) as [t|] eqn:Ht; [|done]. cbn [rbind].
  destruct (take_at se idx) as [e|] eqn:He; [|done]. cbn [rbind].
  intros [= <-]. exists scores, idx. split; [done|]. split.
  - apply take_at_length in Hrows, Hs, Ht, He.
    rewrite (assign3_length_eq drows s t e); lia.
  - intros i r Hr. apply assign3_lookup in Hr as (Hd & Hsi & _ & _).
    destruct (take_at_lookup _ _ _ _ _ Hrows Hd) as (p & Hp & Hdp).
    destruct (take_at_lookup _ _ _ _ _ Hs Hsi) as (p' & Hp' & Hsp).
    assert (p' = p) as -> by congruence. eauto.
Qed.

(** C3 (amended). For [topk ≥ 0] and an [argsort] that meets NumPy's
    contract, [hybrid_search] returns on every well-formed, equally long
    index pair; a returned result has at most [topk] rows, taken from
    distinct rows of the document table, and its fused scores are
    non-increasing.  The order among equal scores is not determined. *)
Theorem hybrid_search_ranked (lex : lexical_index) (sem : semantic_index) (query : string)
    (topk : Z) (lambda_weight : R) :
  (0 ≤ topk)%Z →
  (lexical_wf lex → semantic_wf sem → length (docs lex) = length (docs2 sem) →
     is_ok (hybrid_search argsort nl lex sem query topk lambda_weight)) ∧
  ∀ rows, hybrid_search argsort nl lex sem query topk lambda_weight = Ok rows →
    (Z.of_nat (length rows) ≤ topk)%Z ∧
    (∀ i j ri rj, (i < j)%nat → rows !! i = Some ri → rows !! j = Some rj →
       (score rj <= score ri)%R) ∧
    (∃ idx, NoDup idx ∧ length idx = length rows ∧
       ∀ i r, rows !! i = Some r →
         ∃ p, idx !! i = Some p ∧ docs lex !! p = Some (r_doc r)).
Proof.
  intros Hk. split.
  - intros Hlex Hsem Hlen.
    destruct (hybrid_search_scores argsort nl lex sem query topk lambda_weight Hlex Hsem Hlen)
      as (tf & se & _ & _ & Hltf & Hlse & ->).
    by apply fuse_and_rank_total.
  - intros rows Hrun. apply hybrid_search_inv in Hrun as (_ & tf & se & Hrun).
    apply fuse_and_rank_ranked in Hrun as (scores & idx & Hidx & Hlen & Hrows).
    split; [|split].
    + rewrite Hlen, Hidx. by apply top_indices_length.
    + intros i j ri rj Hij Hi Hj.
      destruct (Hrows i ri Hi) as (p & Hp & _ & Hsp).
      destruct (Hrows j rj Hj) as (q & Hq & _ & Hsq).
      subst idx. pose proof (top_indices_descending scores topk i j p q Hij Hp Hq) as Hd.
      rewrite (nth_lookup_Some _ _ _ _ Hsp), (nth_lookup_Some _ _ _ _ Hsq) in Hd. exact Hd.
    + exists idx. split; [subst idx; apply top_indices_NoDup|]. split; [done|].
      intros i r Hr. destruct (Hrows i r Hr) as (p & Hp & Hd & _). eauto.
Qed.

End Contract.

(** *** The sample index pair *)

Lemma sample_lex_wf : lexical_wf Sample.lex.
Proof.
  split; [done|]. split; [done|]. intros text.
  repeat constructor.
Qed.

Lemma sample_sem_wf : semantic_wf Sample.sem.
Proof. split; [done|]. split; [done|]. intros text. repeat constructor. Qed.

Lemma norm_unit : norm [1%R] = 1%R.
Proof.
  unfold norm, dot. simpl. replace (1 * 1 + 0)%R with 1%R by lra. apply sqrt_1.
Qed.

Lemma l2_normalize_unit : l2_normalize [1%R] = [1%R].
Proof.
  unfold l2_normalize. rewrite norm_unit.
  destruct (Req_dec_T 1 0) as [H|_]; [lra|]. simpl. f_equal. lra.
Qed.

Lemma sample_sem_scores (query : string) :
  cosine_similarity (encode Sample.sem query) (emb_matrix Sample.sem) = Ok [1; 1]%R.
Proof.
  rewrite cosine_similarity_ok by apply sample_sem_wf.
  simpl. rewrite l2_normalize_unit. unfold dot. simpl. do 2 f_equal; [lra|]. f_equal. lra.
Qed.

Lemma hybrid_search_ranked_witness :
  (∀ a, is_argsort a (argsort_stable a)) ∧ (0 ≤ 2)%Z ∧
  is_ok (hybrid_search argsort_stable Sample.nl Sample.lex Sample.sem "stress" 2 LAMBDA).
Proof.
  split; [apply argsort_stable_spec|]. split; [lia|].
  destruct (hybrid_search_ranked argsort_stable Sample.nl argsort_stable_spec
              Sample.lex Sample.sem "stress" 2 LAMBDA) as [Htotal _]; [lia|].
  apply Htotal; [apply sample_lex_wf | apply sample_sem_wf | done].
Defined.

Lemma hybrid_search_degenerate_witness :
  lexical_wf Sample.lex ∧ semantic_wf Sample.sem ∧
  length (docs Sample.lex) = length (docs2 Sample.sem) ∧
  rmap ranking (hybrid_search argsort_stable Sample.nl Sample.lex Sample.sem "stress" 2 0)
  = tfidf_search argsort_stable Sample.nl Sample.lex "stress" 2.
Proof.
  split; [apply sample_lex_wf|]. split; [apply sample_sem_wf|]. split; [done|].
  apply (hybrid_search_degenerate argsort_stable Sample.nl Sample.lex Sample.sem "stress" 2);
    [apply sample_lex_wf | apply sample_sem_wf | done].
Defined.

(** [hybrid_search] reads the semantic document table only for its length. *)
Lemma hybrid_search_docs2 (argsort : vec → list nat) (nl : nltk) (lex : lexical_index)
    (sem sem' : semantic_index) (query : string) (topk : Z) (lambda_weight : R) :
  emb_matrix sem = emb_matrix sem' → encode sem = encode sem' →
  length (docs2 sem) = length (docs2 sem') →
  hybrid_search argsort nl lex sem query topk lambda_weight
  = hybrid_search argsort nl lex sem' query topk lambda_weight.
Proof. intros Hm He Hl. unfold hybrid_search. by rewrite Hm, He, Hl. Qed.

(** *** Rocchio *)

Lemma nth_zip_with_plus (u v : vec) (j : nat) :
  length u = length v →
  nth j (zip_with Rplus u v) 0%R = (nth j u 0 + nth j v 0)%R.
Proof.
  revert v j. induction u as [|x u IH]; intros [|y v] j H; try done.
  - destruct j; simpl; lra.
  - destruct j as [|j]; simpl; [done|]. apply IH. simpl in H. lia.
Qed.

Lemma nth_zip_with_minus (u v : vec) (j : nat) :
  length u = length v →
  nth j (zip_with Rminus u v) 0%R = (nth j u 0 - nth j v 0)%R.
Proof.
  revert v j. induction u as [|x u IH]; intros [|y v] j H; try done.
  - destruct j; simpl; lra.
  - destruct j as [|j]; simpl; [done|]. apply IH. simpl in H. lia.
Qed.

Lemma nth_scale (c : R) (v : vec) (j : nat) : nth j (scale c v) 0%R = (c * nth j v 0)%R.
Proof.
  unfold scale. revert j. induction v as [|x v IH]; intros [|j]; simpl; try lra. apply IH.
Qed.

Lemma nth_div_scalar (v : vec) (c : R) (j : nat) :
  nth j (div_scalar v c) 0%R = (nth j v 0 / c)%R.
Proof.
  unfold div_scalar. revert j.
  induction v as [|x v IH]; intros [|j]; simpl; try (unfold Rdiv; lra). apply IH.
Qed.

Lemma length_scale (c : R) (v : vec) : length (scale c v) = length v.
Proof. unfold scale. apply length_map. Qed.

Lemma length_div_scalar (v : vec) (c : R) : length (div_scalar v c) = length v.
Proof. unfold div_scalar. apply length_map. Qed.

Lemma column_sums (D : nat) (rest : matrix) (r : vec) (j : nat) :
  length r = D → Forall (λ row, length row = D) rest →
  length (foldl (zip_with Rplus) r rest) = D ∧
  nth j (foldl (zip_with Rplus) r rest) 0%R
  = (nth j r 0 + foldr Rplus 0 (map (λ row, nth j row 0) rest))%R.
Proof.
  revert r. induction rest as [|row rest IH]; intros r Hr Hrest; simpl.
  - split; [done | lra].
  - apply Forall_cons in Hrest as [Hrow Hrest].
    destruct (IH (zip_with Rplus r row)) as [Hlen Hnth].
    + rewrite length_zip_with. lia.
    + done.
    + split; [done|]. rewrite Hnth, nth_zip_with_plus by lia. lra.
Qed.

Lemma mean0_coord (D : nat) (r : vec) (rest : matrix) (j : nat) :
  Forall (λ row, length row = D) (r :: rest) →
  length (mean0 (r :: rest)) = D ∧
  nth j (mean0 (r :: rest)) 0%R = mean_coord (Some (r :: rest)) j.
Proof.
  intros [Hr Hrest]%Forall_cons. unfold mean0, mean_coord.
  destruct (column_sums D rest r j Hr Hrest) as [Hlen Hnth].
  rewrite length_div_scalar, nth_div_scalar, Hnth. done.
Qed.

(** The term a set of document vectors adds to the query: nothing for an
    absent or empty set, otherwise the weighted mean. *)
Lemma rocchio_term (f : R → R → R) (op : vec → vec → result vec) (D : nat)
    (new_q : vec) (w : R) (vecs : option matrix) :
  (∀ u v, length u = length v → op u v = Ok (zip_with f u v)) →
  (∀ x, f x 0%R = x) →
  length new_q = D → shaped D vecs →
  ∃ v, match nonempty vecs with
       | Some rows => op new_q (scale w (mean0 rows))
       | None => Ok new_q
       end = Ok v ∧
       length v = D ∧
       ∀ j, nth j v 0%R = f (nth j new_q 0%R) (w * mean_coord vecs j)%R.
Proof.
  intros Hop Hf Hq Hshape. destruct vecs as [[|r rest]|]; cbn [nonempty].
  - exists new_q. split; [done|]. split; [done|]. intros j. cbn [mean_coord]. by rewrite Rmult_0_r, Hf.
  - destruct (mean0_coord D r rest 0 Hshape) as [Hlen _].
    rewrite Hop by (rewrite length_scale; exact (eq_trans Hq (eq_sym Hlen))).
    eexists. split; [done|]. split.
    + rewrite length_zip_with, length_scale. change (length (mean0 (r :: rest)) = D) in Hlen. lia.
    + intros j. destruct (mean0_coord D r rest j Hshape) as [_ Hnth].
      rewrite <- Hnth, <- nth_scale.
      generalize (scale w (mean0 (r :: rest))) (length_scale w (mean0 (r :: rest))).
      intros u Hu. rewrite Hlen in Hu. clear - Hu Hq Hf.
      revert u j D Hu Hq. induction new_q as [|x q IH]; intros [|y u] j D Hu Hq;
        simpl in *; try lia.
      * destruct j; simpl; by rewrite Hf.
      * destruct j as [|j]; simpl; [done|]. apply (IH u j (length q)); lia.
  - exists new_q. split; [done|]. split; [done|]. intros j. cbn [mean_coord]. by rewrite Rmult_0_r, Hf.
Qed.

Lemma iadd_same_length (u v : vec) :
  length u = length v → iadd u v = Ok (zip_with Rplus u v).
Proof. intros H. unfold iadd, inplace2. by rewrite decide_True. Qed.

Lemma isub_same_length (u v : vec) :
  length u = length v → isub u v = Ok (zip_with Rminus u v).
Proof. intros H. unfold isub, inplace2. by rewrite decide_True. Qed.

Lemma sub_same_length (u v : vec) :
  length u = length v → sub u v = Ok (zip_with Rminus u v).
Proof. intros H. unfold sub, broadcast2. by rewrite decide_True. Qed.

Lemma nth_ext_length (u v : vec) :
  length u = length v → (∀ j, nth j u 0%R = nth j v 0%R) → u = v.
Proof.
  revert v. induction u as [|x u IH]; intros [|y v] Hlen H; try done.
  f_equal; [exact (H 0%nat) | apply IH; [simpl in Hlen; lia | intros j; exact (H (S j))]].
Qed.

Lemma dot_nonneg (v : vec) : (0 <= dot v v)%R.
Proof.
  unfold dot. induction v as [|x v IH]; simpl; [lra|].
  pose proof (Rle_0_sqr x) as H. unfold Rsqr in H. lra.
Qed.

Lemma norm_nonneg (v : vec) : (0 <= norm v)%R.
Proof. unfold norm. apply sqrt_pos. Qed.

Lemma dot_div_scalar (v : vec) (c : R) :
  c ≠ 0%R → dot (div_scalar v c) (div_scalar v c) = (dot v v / (c * c))%R.
Proof.
  intros Hc. unfold dot, div_scalar. induction v as [|x v IH]; simpl.
  - field. done.
  - rewrite IH. field. done.
Qed.

Lemma norm_div_scalar (v : vec) (c : R) :
  (0 < c)%R → norm (div_scalar v c) = (norm v / c)%R.
Proof.
  intros Hc. unfold norm. rewrite dot_div_scalar by lra.
  rewrite sqrt_div_alt by nra. rewrite sqrt_square by lra. done.
Qed.

Lemma eps_pos : (0 < eps)%R.
Proof. unfold eps. lra. Qed.

(** C8. In each space the update is, coordinate by coordinate,
    [alpha * q + beta * mean(relevant) - gamma * mean(nonrelevant)], a mean
    over an absent or empty set counting as zero; [rocchio_tfidf] returns
    that vector as it is, [rocchio_emb] returns it divided by its Euclidean
    norm plus [1e-9], a vector of norm [|v| / (|v| + 1e-9)]. *)
Theorem rocchio_update (q : vec) (rel nonrel : option matrix) (alpha beta gamma : R)
    (D : nat) :
  length q = D → shaped D rel → shaped D nonrel →
  ∃ v : vec,
    length v = D ∧
    (∀ j, nth j v 0%R = rocchio_coord alpha beta gamma q rel nonrel j) ∧
    rocchio_tfidf q rel nonrel alpha beta gamma = Ok v ∧
    rocchio_emb q rel nonrel alpha beta gamma = Ok (div_scalar v (norm v + eps)) ∧
    norm (div_scalar v (norm v + eps)) = (norm v / (norm v + eps))%R.
Proof.
  intros Hq Hrel Hnonrel.
  assert (Hq' : length (scale alpha q) = D) by (by rewrite length_scale).
  destruct (rocchio_term Rplus iadd D (scale alpha q) beta rel iadd_same_length)
    as (v1 & Hv1 & Hl1 & Hn1); [intros; lra | done | done |].
  destruct (rocchio_term Rminus isub D v1 gamma nonrel isub_same_length)
    as (v2 & Hv2 & Hl2 & Hn2); [intros; lra | done | done |].
  destruct (rocchio_term Rplus add D (scale alpha q) beta rel add_same_length)
    as (w1 & Hw1 & Hm1 & Hp1); [intros; lra | done | done |].
  destruct (rocchio_term Rminus sub D w1 gamma nonrel sub_same_length)
    as (w2 & Hw2 & Hm2 & Hp2); [intros; lra | done | done |].
  assert (w1 = v1) as ->.
  { apply nth_ext_length; [lia|]. intros j. by rewrite Hn1, Hp1. }
  assert (w2 = v2) as ->.
  { apply nth_ext_length; [lia|]. intros j. by rewrite Hn2, Hp2. }
  exists v2. split; [done|]. split.
  { intros j. rewrite Hn2, Hn1, nth_scale. done. }
  split.
  { unfold rocchio_tfidf. rewrite Hv1. cbn [rbind]. rewrite Hv2. done. }
  split.
  { unfold rocchio_emb. rewrite Hw1. cbn [rbind]. rewrite Hw2. done. }
  apply norm_div_scalar. pose proof (norm_nonneg v2). pose proof eps_pos. lra.
Qed.

Lemma rocchio_update_witness :
  length [1; 0]%R = 2%nat ∧ shaped 2 (Some [[0; 1]; [1; 1]]%R) ∧ shaped 2 None ∧
  ∃ v : vec, rocchio_tfidf [1; 0]%R (Some [[0; 1]; [1; 1]]%R) None ALPHA BETA GAMMA = Ok v ∧
             length v = 2%nat.
Proof.
  split; [done|]. split; [repeat constructor|]. split; [done|].
  destruct (rocchio_update [1; 0]%R (Some [[0; 1]; [1; 1]]%R) None ALPHA BETA GAMMA 2)
    as (v & Hlen & _ & Hv & _); [done | repeat constructor | done |].
  exists v. split; [exact Hv | exact Hlen].
Defined.

(** *** Feedback with no relevant document *)

Lemma scale_one (v : vec) : scale 1 v = v.
Proof.
  unfold scale. induction v as [|x v IH]; simpl; [done|]. rewrite IH. f_equal. lra.
Qed.

Lemma rocchio_tfidf_none (q : vec) : rocchio_tfidf q None None ALPHA BETA GAMMA = Ok q.
Proof. unfold rocchio_tfidf, ALPHA. simpl. by rewrite scale_one. Qed.

Lemma rocchio_emb_none (q : vec) :
  rocchio_emb q None None ALPHA BETA GAMMA = Ok (div_scalar q (norm q + eps)).
Proof. unfold rocchio_emb, ALPHA. simpl. by rewrite scale_one. Qed.

Lemma dot_zero (v : vec) : dot v v = 0%R → Forall (λ x, x = 0%R) v.
Proof.
  unfold dot. induction v as [|x v IH]; simpl; intros H; [constructor|].
  pose proof (dot_nonneg v) as Hv. unfold dot in Hv.
  pose proof (Rle_0_sqr x) as Hx. unfold Rsqr in Hx.
  constructor; [nra | apply IH; lra].
Qed.

Lemma norm_zero (v : vec) : norm v = 0%R → Forall (λ x, x = 0%R) v.
Proof.
  unfold norm. intros H. apply dot_zero. apply sqrt_eq_0; [apply dot_nonneg | done].
Qed.

(** Cosine similarity does not see a positive rescaling of the query. *)
Lemma l2_normalize_div_scalar (q : vec) (c : R) :
  (0 < c)%R → l2_normalize (div_scalar q c) = l2_normalize q.
Proof.
  intros Hc. unfold l2_normalize. rewrite norm_div_scalar by done.
  destruct (Req_dec_T (norm q) 0) as [Hz|Hnz].
  - rewrite Hz. destruct (Req_dec_T (0 / c) 0) as [_|Hn]; [|exfalso; apply Hn; field; lra].
    apply norm_zero in Hz. unfold div_scalar.
    induction Hz as [|x v -> _ IH]; simpl; [done|]. rewrite IH. f_equal. field. lra.
  - destruct (Req_dec_T (norm q / c) 0) as [Hz|_].
    + exfalso. apply Hnz. apply (Rmult_eq_reg_r (/ c)); [|apply Rinv_neq_0_compat; lra].
      unfold Rdiv in Hz. lra.
    + unfold div_scalar. rewrite map_map. apply map_ext. intros x. field. split; lra.
Qed.

Lemma cosine_similarity_div_scalar (q : vec) (c : R) (M : matrix) :
  (0 < c)%R → cosine_similarity (div_scalar q c) M = cosine_similarity q M.
Proof.
  intros Hc. unfold cosine_similarity.
  by rewrite l2_normalize_div_scalar, length_div_scalar.
Qed.


Lemma l2_normalize_scaled (v : vec) : ∃ c, (0 < c)%R ∧ l2_normalize v = div_scalar v c.
Proof.
  unfold l2_normalize. destruct (Req_dec_T (norm v) 0) as [_|Hn].
  - exists 1%R. split; [lra | done].
  - exists (norm v). split; [|done]. pose proof (norm_nonneg v). lra.
Qed.

Lemma l2_normalize_e1 : l2_normalize [1; 0]%R = [1; 0]%R.
Proof.
  unfold l2_normalize, norm, dot. simpl.
  replace (1 * 1 + (0 * 0 + 0))%R with 1%R by lra. rewrite sqrt_1.
  destruct (Req_dec_T 1 0) as [H|_]; [lra|]. simpl. f_equal; [lra|]. f_equal. lra.
Qed.

Lemma l2_normalize_e2 : l2_normalize [0; 1]%R = [0; 1]%R.
Proof.
  unfold l2_normalize, norm, dot. simpl.
  replace (0 * 0 + (1 * 1 + 0))%R with 1%R by lra. rewrite sqrt_1.
  destruct (Req_dec_T 1 0) as [H|_]; [lra|]. simpl. f_equal; [lra|]. f_equal. lra.
Qed.

(** Lexical scores of the sample documents for a query vector [[a; b]]. *)
Lemma sample_tf_scores (a b : R) :
  ∃ c, (0 < c)%R ∧
    cosine_similarity [a; b] (X Sample.lex) = Ok [b / c; a / c]%R.
Proof.
  destruct (l2_normalize_scaled [a; b]) as (c & Hc & Hn). exists c. split; [done|].
  unfold cosine_similarity. simpl.
  rewrite Hn, l2_normalize_e1, l2_normalize_e2. unfold dot. simpl.
  do 2 f_equal; [lra|]. f_equal. lra.
Qed.

Lemma argsort_stable_pair (x y : R) :
  argsort_stable [x; y] = if Rle_dec x y then [0; 1]%nat else [1; 0]%nat.
Proof.
  unfold argsort_stable, insertion_argsort. simpl. unfold Rleb.
  by destruct (Rle_dec x y).
Qed.

(** Lexical-only ranking of two documents with distinct scores. *)
Lemma rank_pair_lexical (d0 d1 : doc_row) (a b s0 s1 : R) :
  a ≠ b →
  ∃ r0 r1,
    fuse_and_rank argsort_stable [d0; d1] [a; b] [s0; s1] 2 0 = Ok [r0; r1] ∧
    map r_doc [r0; r1] = if Rlt_dec b a then [d0; d1] else [d1; d0].
Proof.
  intros Hab. unfold fuse_and_rank. rewrite fuse_lexical_only by done. cbn [rbind].
  unfold top_indices. simpl neg. rewrite argsort_stable_pair.
  destruct (Rle_dec (- a) (- b)) as [Hle|Hgt]; destruct (Rlt_dec b a) as [Hlt|Hnl];
    try (exfalso; lra); by eexists _, _.
Qed.

(** C2 fails on the code.  On the sample pair the stemmer maps "turbines" to
    the vocabulary term "turbin"; [hybrid_search] normalizes the query and
    ranks document 1 first, [apply_feedback_for_query] with no relevant
    document passes the raw text to the vectorizer, loses the term, and
    ranks document 2 first. *)
Theorem apply_feedback_skips_normalization :
  normalize_text Sample.nl "turbines turbines stress" true = "turbin turbin stress" ∧
  (∃ rows,
     hybrid_search argsort_stable Sample.nl Sample.lex Sample.sem
       "turbines turbines stress" 2 0 = Ok rows ∧
     map r_doc rows = [Sample.doc1; Sample.doc2]) ∧
  (∃ rows,
     apply_feedback_for_query argsort_stable Sample.lex Sample.sem
       "turbines turbines stress" [] 2 0 = Ok rows ∧
     map r_doc rows = [Sample.doc2; Sample.doc1]).
Proof.
  assert (Hnorm : normalize_text Sample.nl "turbines turbines stress" true
                  = "turbin turbin stress") by (by vm_compute).
  split; [exact Hnorm|]. split.
  - unfold hybrid_search. cbn [negb Nat.eqb length docs docs2 Sample.lex Sample.sem].
    rewrite Hnorm.
    change (transform Sample.lex "turbin turbin stress") with [INR 1; INR 2].
    destruct (sample_tf_scores (INR 1) (INR 2)) as (c & Hc & ->). cbn [rbind].
    rewrite sample_sem_scores. cbn [rbind].
    destruct (rank_pair_lexical Sample.doc1 Sample.doc2 (INR 2 / c) (INR 1 / c) 1 1)
      as (r0 & r1 & -> & Hdocs).
    + simpl. intros H. apply (Rmult_eq_compat_r c) in H. field_simplify in H; lra.
    + eexists. split; [done|]. rewrite Hdocs.
      destruct (Rlt_dec _ _) as [_|Hn]; [done|]. exfalso. apply Hn. simpl.
      apply Rmult_lt_compat_r; [by apply Rinv_0_lt_compat | lra].
  - unfold apply_feedback_for_query.
    cbn [omap list_omap length Nat.ltb Nat.leb rbind].
    rewrite rocchio_tfidf_none, rocchio_emb_none. cbn [rbind].
    change (transform Sample.lex "turbines turbines stress") with [INR 1; INR 0].
    destruct (sample_tf_scores (INR 1) (INR 0)) as (c & Hc & ->). cbn [rbind].
    rewrite cosine_similarity_div_scalar
      by (pose proof (norm_nonneg (encode Sample.sem "turbines turbines stress"));
          pose proof eps_pos; lra).
    rewrite sample_sem_scores. cbn [rbind].
    change (docs Sample.lex) with [Sample.doc1; Sample.doc2].
    destruct (rank_pair_lexical Sample.doc1 Sample.doc2 (INR 0 / c) (INR 1 / c) 1 1)
      as (r0 & r1 & -> & Hdocs).
    + simpl. intros H. apply (Rmult_eq_compat_r c) in H. field_simplify in H; lra.
    + eexists. split; [done|]. rewrite Hdocs.
      destruct (Rlt_dec _ _) as [Hlt|_]; [|done]. exfalso. simpl in Hlt.
      assert (0 < 1 / c)%R by (apply Rdiv_lt_0_compat; lra). lra.
Qed.

(** *** Ties under the compare-exchange network *)

Lemma sample_tf_scores4 :
  cosine_similarity (transform Sample.lex4 (normalize_text Sample.nl "stress" true))
    (X Sample.lex4) = Ok [0; 0; 1; 1]%R.
Proof.
  assert (Hq : normalize_text Sample.nl "stress" true = "stress") by (by vm_compute).
  assert (Hc : Sample.term_counts "stress" = [1; 0]%nat) by (by vm_compute).
  rewrite Hq. unfold Sample.lex4, transform, X, Sample.count_vectorizer. rewrite Hc.
  unfold cosine_similarity. simpl.
  rewrite l2_normalize_e1, l2_normalize_e2. unfold dot. simpl.
  do 2 f_equal; [lra|]. f_equal; [lra|]. f_equal; [lra|]. f_equal. lra.
Qed.

Lemma sample_sem_scores4 (query : string) :
  cosine_similarity (encode Sample.sem4 query) (emb_matrix Sample.sem4) = Ok [1; 1; 1; 1]%R.
Proof.
  unfold cosine_similarity. simpl. rewrite l2_normalize_unit. unfold dot. simpl.
  do 2 f_equal; [lra|]. f_equal; [lra|]. f_equal; [lra|]. f_equal. lra.
Qed.

(** C3 as stated fails on ties.  Of the four documents of [Sample.docs4] the
    last two match the query "stress" equally well and the first two not at
    all; with [lambda_weight = 0] and [topk = 2] the search under
    [argsort_network], the sort of NumPy's vectorised builds, returns the two
    matching documents with the same fused score, the fourth row before the
    third. *)
Lemma hybrid_search_tie_order :
  (∀ a, is_argsort a (argsort_network a)) ∧
  map row_id (docs Sample.lex4) = [CStr "1"; CStr "2"; CStr "3"; CStr "4"] ∧
  ∃ r1 r2,
    hybrid_search argsort_network Sample.nl Sample.lex4 Sample.sem4 "stress" 2 0
      = Ok [r1; r2] ∧
    score r1 = score r2 ∧
    row_id (r_doc r1) = CStr "4" ∧ row_id (r_doc r2) = CStr "3".
Proof.
  split; [apply argsort_network_spec|]. split; [done|].
  unfold hybrid_search. change (negb _) with false. cbv iota.
  rewrite sample_tf_scores4. cbn [rbind]. rewrite sample_sem_scores4. cbn [rbind].
  unfold fuse_and_rank. rewrite fuse_lexical_only by done. cbn [rbind].
  unfold top_indices. rewrite argsort_network_ties. by eexists _, _.
Qed.

End RankerFacts.

(** ** The lexical index on disk *)

Module IndexerFacts.
Import Np Preprocess Table Index Indexer.

Section WithLibraries.
Variable nl : nltk.
Variable fit_transform : list string → result ((string → vec) * matrix).
Variable csv : Type.
Variable to_csv : table → csv.
Variable read_csv : csv → table.
Variable corpus_df : list corpus_row.

Local Abbreviation build := (build_index nl fit_transform csv to_csv corpus_df).
Local Abbreviation load := (load_index nl fit_transform csv to_csv read_csv corpus_df).

(** [build_index] writes all three files or none. *)
Lemma build_index_files (fs fs' : files csv) (built : lexical_index) :
  build fs = Ok (fs', built) →
  tfidf_path csv fs' = Some (transform built) ∧
  vec_matrix_path csv fs' = Some (X built) ∧
  docs_path csv fs' = Some (to_csv (docs built)).
Proof.
  unfold build_index. destruct (fit_transform _) as [[v M]|]; [|done]. cbn [rbind].
  by intros [= <- <-].
Qed.

(** What [load_index] returns right after [build_index]: the vectorizer and
    the matrix that were built, and the document table as read back from
    its CSV text. *)
Lemma load_index_after_build (fs fs' : files csv) (built : lexical_index) :
  build fs = Ok (fs', built) →
  load fs' = Ok (fs', {| transform := transform built; X := X built;
                         docs := read_csv (to_csv (docs built)) |}).
Proof.
  intros (Hv & Hm & Hd)%build_index_files. unfold load_index. by rewrite Hv, Hm, Hd.
Qed.

(** With no file on disk, [load_index] is [build_index]. *)
Lemma load_index_missing (fs : files csv) :
  tfidf_path csv fs = None → load fs = build fs.
Proof. intros H. unfold load_index. by rewrite H. Qed.

End WithLibraries.

Lemma sample_docs_built :
  map (with_text_norm Sample.nl) Sample.corpus
  = [ {| row_id := CStr "1"; row_title := CStr ""; row_text := CStr "turbine stress";
         row_text_norm := CStr "turbin stress" |} ].
Proof. by vm_compute. Qed.

Lemma sample_docs_reloaded :
  Csv.read_csv (Csv.to_csv (map (with_text_norm Sample.nl) Sample.corpus))
  = [ {| row_id := CInt 1; row_title := CNaN; row_text := CStr "turbine stress";
         row_text_norm := CStr "turbin stress" |} ].
Proof. by vm_compute. Qed.

(** C9 fails on the code.  For the one-document corpus of [Sample],
    [load_index] right after [build_index] returns the built matrix, but a
    document table whose id is the integer 1 where [build_index] returned
    the string "1", and whose empty title has become a missing value; the
    id map of [apply_feedback_for_query] finds the judged id "1" in the
    built table and not in the loaded one. *)
Theorem load_index_after_build_sample :
  ∃ fs built loaded,
    build_index Sample.nl Sample.fit_counts (list Csv.line) Csv.to_csv Sample.corpus
      Sample.no_files = Ok (fs, built) ∧
    load_index Sample.nl Sample.fit_counts (list Csv.line) Csv.to_csv Csv.read_csv
      Sample.corpus fs = Ok (fs, loaded) ∧
    X loaded = X built ∧
    row_id <$> docs built = [CStr "1"] ∧ row_id <$> docs loaded = [CInt 1] ∧
    row_title <$> docs built = [CStr ""] ∧ row_title <$> docs loaded = [CNaN] ∧
    docs loaded ≠ docs built ∧
    Ranker.doc_index_map (docs built) !! CStr "1" = Some 0%nat ∧
    Ranker.doc_index_map (docs loaded) !! CStr "1" = None.
Proof.
  eexists _, _, _. split; [reflexivity|].
  split; [reflexivity|]. cbn [X docs]. split; [done|].
  rewrite sample_docs_reloaded, sample_docs_built.
  repeat split; try done; by vm_compute.
Qed.

End IndexerFacts.

(** ** The search from the files *)

Module HybridRetrieveFacts.
Import Np Sklearn Preprocess Table Index Ranker RankerSpec Indexer SemanticIndexer
  HybridRetrieve NpFacts RankerFacts.

Section WithLibraries.
Variable nl : nltk.
Variable fit_transform : list string → result ((string → vec) * matrix).
Variable csv : Type.
Variable to_csv : table → csv.
Variable read_csv : csv → table.
Variable corpus_df : list corpus_row.
Variable encoder : string → vec.
Variable embed_docs : table → result matrix.

Local Abbreviation build := (build_index nl fit_transform csv to_csv corpus_df).
Local Abbreviation load := (load_index nl fit_transform csv to_csv read_csv corpus_df).
Local Abbreviation loads :=
  (load_indexes nl fit_transform csv to_csv read_csv corpus_df encoder embed_docs).

(** The table [build_index] returns is the one it writes. *)
Lemma build_index_table (fs fs' : files csv) (built : lexical_index) :
  build fs = Ok (fs', built) →
  docs built = map (with_text_norm nl) corpus_df ∧
  docs_path csv fs' = Some (to_csv (docs built)).
Proof.
  unfold build_index. destruct (fit_transform _) as [[v M]|]; [|done]. cbn [rbind].
  by intros [= <- <-].
Qed.

(** The table [load_index] returns is read from [docs.csv], or it is the one
    just built and written there. *)
Lemma load_index_table (fs fs' : files csv) (lex : lexical_index) :
  load fs = Ok (fs', lex) →
  ∃ c, docs_path csv fs' = Some c ∧
    (docs lex = read_csv c ∨
     docs lex = map (with_text_norm nl) corpus_df ∧ c = to_csv (docs lex)).
Proof.
  unfold load_index.
  destruct (tfidf_path csv fs) as [v|] eqn:Hv;
    [destruct (vec_matrix_path csv fs) as [M|] eqn:HM;
      [destruct (docs_path csv fs) as [c|] eqn:Hc|]|].
  1: { intros [= <- <-]. exists c. split; [done|]. by left. }
  all: intros [Hd Hp]%build_index_table; eexists; split; [exact Hp|]; by right.
Qed.

(** Where the two document tables of [hybrid_search] come from: the semantic
    one is read from [docs.csv]; the lexical one is read from the same file,
    or is the table that has just been built and written to it.  So the two
    tables list the same documents in the same order, and they can differ
    only by what writing a table and reading it back changes. *)
Lemma load_indexes_tables (st st' : store csv) (lex : lexical_index) (sem : semantic_index) :
  loads st = Ok (st', lex, sem) →
  ∃ c, docs_path csv (index_files st') = Some c ∧
    docs2 sem = read_csv c ∧
    (docs lex = read_csv c ∨
     docs lex = map (with_text_norm nl) corpus_df ∧ c = to_csv (docs lex)).
Proof.
  unfold load_indexes.
  set (lexical := match load (index_files st) with Ok r => Ok r | Raise _ => _ end).
  assert (Hlex : ∀ fs lx, lexical = Ok (fs, lx) →
            ∃ c, docs_path csv fs = Some c ∧
              (docs lx = read_csv c ∨
               docs lx = map (with_text_norm nl) corpus_df ∧ c = to_csv (docs lx))).
  { intros fs lx. unfold lexical.
    destruct (load (index_files st)) as [[fs0 lx0]|e] eqn:E.
    - intros [= <- <-]. by eapply load_index_table.
    - intros [Hd Hp]%build_index_table. eexists. split; [exact Hp|]. by right. }
  destruct lexical as [[fs lx]|e]; [|done]. cbn [rbind fst snd].
  destruct (Hlex fs lx eq_refl) as (c & Hc & Hdocs). clear Hlex.
  unfold load_semantic_index, build_semantic_index. cbn [index_files emb_path].
  rewrite Hc. cbn [rbind].
  destruct (emb_path st) as [emb|].
  - intros [= <- <- <-]. exists c. by cbn [index_files docs2].
  - rewrite Hc. destruct (embed_docs (read_csv c)) as [emb|]; [|done]. cbn [rbind].
    intros [= <- <- <-]. exists c. by cbn [index_files docs2].
Qed.

End WithLibraries.

(** *** A first search on an empty data directory *)




End HybridRetrieveFacts.

(** ** Bounds of the evaluation metrics *)

(** ** The evaluator on duplicate-free result lists *)

Module EvalBounds.
Import Eval EvalSpec EvalFacts.

(** A result list without duplicates holds at most [|relevant_set|] hits. *)
Lemma hits_le_size (ids : list string) (rs : gset string) (n : nat) :
  NoDup ids → (hits_in_first ids rs n ≤ size rs)%nat.
Proof.
  intros Hnd. rewrite <- filter_take_hits.
  unfold size, set_size. simpl. apply NoDup_sub_length.
  - apply NoDup_filter. eapply sublist_NoDup; [exact Hnd | apply sublist_take].
  - intros d [Hd _]%list_elem_of_filter. by apply elem_of_elements.
Qed.

Lemma hit_ranks_length (ids : list string) (rs : gset string) :
  length (hit_ranks ids rs) = hits_in_first ids rs (length ids).
Proof.
  unfold hit_ranks, hits_in_first. induction (length ids) as [|n IH]; [done|].
  rewrite !seq_S, !filter_app, !length_app, IH. f_equal. simpl.
  rewrite !filter_cons, !filter_nil. simpl. by destruct (decide (relevant_at ids rs n)).
Qed.

Lemma prec_at_bounds (ids : list string) (rs : gset string) (r : nat) :
  (1 ≤ r)%nat → (0 <= prec_at ids rs r)%Q ∧ (prec_at ids rs r <= 1)%Q.
Proof.
  intros Hr. unfold prec_at. apply Qdiv_Z_bounds; [|lia].
  pose proof (hits_in_first_le ids rs r). lia.
Qed.

Lemma Qsum_bounds (f : nat → Q) (l : list nat) :
  (∀ r, r ∈ l → (0 <= f r)%Q ∧ (f r <= 1)%Q) →
  (0 <= Qsum (map f l))%Q ∧ (Qsum (map f l) <= inject_Z (Z.of_nat (length l)))%Q.
Proof.
  induction l as [|r l IH]; intros H.
  - simpl. split; apply Qle_refl.
  - destruct IH as [IH0 IH1]; [intros x Hx; apply H; by right|].
    destruct (H r) as [H0 H1]; [by left|].
    cbn [map Qsum foldr length]. fold (Qsum (map f l)). split.
    + change 0%Q with (0 + 0)%Q. by apply Qplus_le_compat.
    + rewrite Nat2Z.inj_succ, <- Z.add_1_l, inject_Z_plus.
      by apply Qplus_le_compat.
Qed.

(** The value [average_precision] returns, in terms of the hit ranks. *)
Lemma average_precision_value (ids : list string) (rs : gset string) :
  ∃ q : Q, average_precision ids rs = Ok q ∧
    ((hits_in_first ids rs (length ids) = 0)%nat → q = 0%Q) ∧
    ((hits_in_first ids rs (length ids) ≠ 0)%nat →
       (q == ap_sum ids rs / inject_Z (Z.of_nat (size rs)))%Q).
Proof.
  destruct (ap_loop_inv rs ids [] 0) as (s' & Hrun & Hs').
  change (ap_loop rs (enumerate ids 1) 0 0
          = Ok (Z.of_nat (hits_in_first ids rs (length ids)), s')) in Hrun.
  change (s' == 0 + ap_sum ids rs)%Q in Hs'.
  unfold average_precision. rewrite Hrun. cbn [rbind].
  destruct (Z.eqb_spec (Z.of_nat (hits_in_first ids rs (length ids))) 0) as [Hz|Hnz].
  - exists 0%Q. split; [done|]. split; [done | lia].
  - unfold fdiv. destruct (Z.eqb_spec (Z.of_nat (size rs)) 0) as [Hs|_].
    + exfalso. assert (Hh : (hits_in_first ids rs (length ids) ≠ 0)%nat) by lia.
      apply Hh. apply hits_total_zero_iff. intros d _ Hd.
      assert (size rs = 0)%nat as Hsz by lia. apply size_empty_inv in Hsz. set_solver.
    + eexists. split; [done|]. split; [lia|]. intros _. by rewrite Hs', Qplus_0_l.
Qed.

(** X1.  On a ranking in which no id occurs twice, [average_precision] returns
    a value between 0 and 1, whatever the relevant set. *)
Theorem average_precision_unit_interval (ids : list string) (rs : gset string) :
  NoDup ids →
  ∃ q : Q, average_precision ids rs = Ok q ∧ (0 <= q)%Q ∧ (q <= 1)%Q.
Proof.
  intros Hnd. destruct (average_precision_value ids rs) as (q & Hq & Hzero & Hpos).
  exists q. split; [done|].
  destruct (decide (hits_in_first ids rs (length ids) = 0)%nat) as [Hz|Hnz].
  - rewrite (Hzero Hz). split; [apply Qle_refl | done].
  - specialize (Hpos Hnz).
    pose proof (hits_le_size ids rs (length ids) Hnd) as Hle.
    destruct (Qsum_bounds (prec_at ids rs) (hit_ranks ids rs)) as [H0 H1].
    { intros r Hr. apply prec_at_bounds. unfold hit_ranks in Hr.
      apply list_elem_of_filter in Hr as [_ Hr]. apply elem_of_seq in Hr. lia. }
    rewrite hit_ranks_length in H1. fold (ap_sum ids rs) in H0, H1.
    assert (Hsz : (0 < inject_Z (Z.of_nat (size rs)))%Q).
    { rewrite <- (Zlt_Qlt 0). lia. }
    rewrite Hpos. split.
    + apply Qle_shift_div_l; [done|]. by rewrite Qmult_0_l.
    + apply Qle_shift_div_r; [done|]. rewrite Qmult_1_l.
      eapply Qle_trans; [exact H1|]. rewrite <- Zle_Qle. lia.
Qed.

Lemma average_precision_unit_interval_witness :
  NoDup ["2"; "1"; "3"] ∧
  ∃ q : Q, average_precision ["2"; "1"; "3"] {["1"; "3"]} = Ok q ∧ (q <= 1)%Q.
Proof.
  assert (Hnd : NoDup ["2"; "1"; "3"]) by (apply (bool_decide_unpack _); by vm_compute).
  split; [exact Hnd|].
  destruct (average_precision_unit_interval ["2"; "1"; "3"] {["1"; "3"]} Hnd)
    as (q & Hq & _ & Hle).
  exists q. split; [exact Hq | exact Hle].
Defined.

Lemma log2_two : log2 2 = 1%R.
Proof. unfold log2. field. pose proof ln_lt_2. lra. Qed.

Lemma log2_mono (a b : nat) : (2 ≤ a ≤ b)%nat → (log2 (INR a) <= log2 (INR b))%R.
Proof.
  intros Hab. destruct (decide (a = b)) as [->|Hne]; [lra|].
  unfold log2. assert (H2 : (0 < ln 2)%R) by (pose proof ln_lt_2; lra).
  apply Rmult_le_compat_r; [left; by apply Rinv_0_lt_compat|].
  left. apply ln_increasing.
  - apply lt_0_INR. lia.
  - apply lt_INR. lia.
Qed.

Lemma disc_le_1 (r : nat) : (1 ≤ r)%nat → (disc r <= 1)%R.
Proof.
  intros Hr. unfold disc. case_decide; [lra|].
  assert (H1 : (1 <= log2 (INR r))%R).
  { rewrite <- log2_two. change 2%R with (INR 2). apply log2_mono. lia. }
  unfold Rdiv. rewrite Rmult_1_l, <- Rinv_1. apply Rinv_le_contravar; lra.
Qed.

(** The discount never grows with the rank. *)
Lemma disc_antitone (a b : nat) : (1 ≤ a ≤ b)%nat → (disc b <= disc a)%R.
Proof.
  intros Hab. destruct (decide (a = 1)%nat) as [->|Ha].
  - unfold disc at 2. rewrite decide_True by done. apply disc_le_1. lia.
  - unfold disc. rewrite !decide_False by lia.
    pose proof (log2_pos a ltac:(lia)) as Hpa.
    pose proof (log2_mono a b ltac:(lia)) as Hm.
    unfold Rdiv. rewrite !Rmult_1_l. apply Rinv_le_contravar; lra.
Qed.

Lemma Rsum_nonneg {A} (f : A → R) (l : list A) :
  (∀ x, x ∈ l → (0 <= f x)%R) → (0 <= Rsum (map f l))%R.
Proof.
  induction l as [|x l IH]; intros H; simpl; [lra|].
  pose proof (H x ltac:(left)). specialize (IH ltac:(intros; apply H; by right)). lra.
Qed.

Lemma Rsum_disc_prefix (h m : nat) :
  (h ≤ m)%nat → (Rsum (map disc (seq 1 h)) <= Rsum (map disc (seq 1 m)))%R.
Proof.
  intros Hhm. replace m with (h + (m - h))%nat by lia.
  rewrite seq_app, map_app, Rsum_app.
  assert (0 <= Rsum (map disc (seq (1 + h) (m - h))))%R; [|lra].
  apply Rsum_nonneg. intros r Hr%elem_of_seq. left. apply disc_pos. lia.
Qed.

(** The hits among the first [n] ranks earn at most the discounts of the
    first ranks. *)
Lemma dcg_sum_le_top (ids : list string) (rs : gset string) (n : nat) :
  (dcg_sum ids rs n <= Rsum (map disc (seq 1 (hits_in_first ids rs n))))%R.
Proof.
  unfold dcg_sum. induction n as [|n IH]; [simpl; lra|].
  rewrite seq_S, map_app, Rsum_app, hits_in_first_S. cbn [map Rsum foldr].
  unfold gain at 2. simpl pred.
  pose proof (hits_in_first_le ids rs n) as Hle.
  destruct (decide (relevant_at ids rs n)) as [Hr|Hr].
  - rewrite seq_app, map_app, Rsum_app. cbn [seq map Rsum foldr].
    pose proof (disc_antitone (1 + hits_in_first ids rs n) (1 + n) ltac:(lia)). lra.
  - rewrite Nat.add_0_r. lra.
Qed.

Lemma dcg_sum_nonneg (ids : list string) (rs : gset string) (n : nat) :
  (0 <= dcg_sum ids rs n)%R.
Proof.
  unfold dcg_sum. apply Rsum_nonneg. intros r Hr%elem_of_seq. unfold gain.
  case_decide; [|lra]. left. apply disc_pos. lia.
Qed.

(** X2.  On a ranking in which no id occurs twice and for a cut-off [k >= 0],
    [ndcg_at_k] lies between 0 and 1 (floats idealised as reals).  With a
    repeated relevant id it can exceed 1, see [ndcg_at_k_duplicate]. *)
Theorem ndcg_at_k_unit_interval (ids : list string) (rs : gset string) (k : Z) :
  NoDup ids → (0 ≤ k)%Z →
  (0 <= ndcg_at_k ids rs k)%R ∧ (ndcg_at_k ids rs k <= 1)%R.
Proof.
  intros Hnd Hk. unfold ndcg_at_k. rewrite dcg_at_k_sum, idcg_at_k_sum by done.
  set (n := Z.to_nat k).
  destruct (Rlt_dec 0 (idcg_sum (size rs) n)) as [Hpos|_]; [|lra].
  pose proof (dcg_sum_nonneg ids rs n) as H0.
  pose proof (dcg_sum_le_top ids rs n) as H1.
  pose proof (Rsum_disc_prefix (hits_in_first ids rs n) (size rs `min` n)) as H2.
  pose proof (hits_in_first_le ids rs n). pose proof (hits_le_size ids rs n Hnd).
  specialize (H2 ltac:(lia)). fold (idcg_sum (size rs) n) in H2.
  split.
  - apply Rmult_le_pos; [done|]. left. by apply Rinv_0_lt_compat.
  - apply (Rmult_le_reg_r (idcg_sum (size rs) n)); [done|].
    unfold Rdiv. rewrite Rmult_assoc, Rinv_l by lra. lra.
Qed.

Lemma ndcg_at_k_unit_interval_witness :
  NoDup ["2"; "1"; "3"] ∧ (0 ≤ 3)%Z ∧ (ndcg_at_k ["2"; "1"; "3"] {["1"; "3"]} 3 <= 1)%R.
Proof.
  assert (Hnd : NoDup ["2"; "1"; "3"]) by (apply (bool_decide_unpack _); by vm_compute).
  split; [exact Hnd|]. split; [lia|].
  apply (ndcg_at_k_unit_interval ["2"; "1"; "3"] {["1"; "3"]} 3 Hnd). lia.
Defined.

(** With a repeated id the bound is lost: the one relevant document, listed
    twice, scores 2. *)
Lemma ndcg_at_k_duplicate : ndcg_at_k ["a"; "a"] {["a"]} 2 = 2%R.
Proof.
  unfold ndcg_at_k. rewrite dcg_at_k_sum, idcg_at_k_sum by lia.
  rewrite size_singleton. change (Z.to_nat 2) with 2%nat.
  assert (Hrel : ∀ i, (i < 2)%nat → relevant_at ["a"; "a"] {["a"]} i).
  { intros i Hi. exists "a". split; [|set_solver].
    destruct i as [|[|i]]; [done | done | lia]. }
  rewrite (dcg_sum_all _ _ _ Hrel).
  unfold idcg_sum. change (1 `min` 2)%nat with 1%nat. cbn [seq map Rsum foldr].
  assert (H1 : disc 1 = 1%R) by (unfold disc; by rewrite decide_True).
  assert (H2 : disc 2 = 1%R).
  { unfold disc. rewrite decide_False by lia.
    replace (INR 2) with 2%R by (simpl; lra). rewrite log2_two. field. }
  rewrite H1, H2. destruct (Rlt_dec 0 (1 + 0)) as [_|Hn]; [field | lra].
Qed.

(** In an order that places all relevant documents first, without
    repetition, the relevant positions are exactly the first
    [|relevant_set|]. *)
Lemma relevant_first_positions (ids : list string) (rs : gset string) :
  NoDup ids → relevant_first ids rs →
  (size rs ≤ length ids)%nat ∧ ∀ i, relevant_at ids rs i ↔ (i < size rs)%nat.
Proof.
  intros Hnd (rel & nonrel & -> & Hrel & Hnon & Hall).
  apply NoDup_app in Hnd as (Hndrel & _ & _).
  assert (Hlen : length rel = size rs).
  { apply Nat.le_antisymm.
    - unfold size, set_size. simpl. apply NoDup_sub_length; [done|].
      intros d Hd. apply elem_of_elements. rewrite Forall_forall in Hrel. by apply Hrel.
    - unfold size, set_size. simpl. apply NoDup_sub_length; [apply NoDup_elements|].
      intros d Hd. apply Hall. by apply elem_of_elements. }
  split; [rewrite length_app; lia|].
  intros i. rewrite <- Hlen. split.
  - intros (d & Hi & Hd). destruct (decide (i < length rel)%nat) as [|Hge]; [done|].
    exfalso. rewrite lookup_app_r in Hi by lia.
    rewrite Forall_forall in Hnon. eapply Hnon; [|exact Hd].
    by eapply list_elem_of_lookup_2.
  - intros Hi. destruct (lookup_lt_is_Some_2 rel i Hi) as [d Hd].
    exists d. split; [by apply lookup_app_l_Some|].
    rewrite Forall_forall in Hrel. apply Hrel. by eapply list_elem_of_lookup_2.
Qed.

Lemma filter_all {A} (P : A → Prop) `{∀ x, Decision (P x)} (l : list A) :
  (∀ x, x ∈ l → P x) → filter P l = l.
Proof.
  induction l as [|x l IH]; intros Hl; [done|].
  rewrite filter_cons, decide_True by (apply Hl; by left).
  f_equal. apply IH. intros y Hy. apply Hl. by right.
Qed.

Lemma filter_none {A} (P : A → Prop) `{∀ x, Decision (P x)} (l : list A) :
  (∀ x, x ∈ l → ¬ P x) → filter P l = [].
Proof.
  induction l as [|x l IH]; intros Hl; [done|].
  rewrite filter_cons, decide_False by (apply Hl; by left).
  apply IH. intros y Hy. apply Hl. by right.
Qed.

Lemma Qsum_ones (f : nat → Q) (l : list nat) :
  (∀ r, r ∈ l → (f r == 1)%Q) → (Qsum (map f l) == inject_Z (Z.of_nat (length l)))%Q.
Proof.
  induction l as [|r l IH]; intros H; [reflexivity|].
  cbn [map Qsum foldr length]. fold (Qsum (map f l)).
  rewrite (H r) by (by left). rewrite IH by (intros x Hx; apply H; by right).
  rewrite Nat2Z.inj_succ, <- Z.add_1_l, inject_Z_plus. reflexivity.
Qed.

(** X3.  [average_precision] is exactly 1 on a duplicate-free ranking that
    lists every relevant id before any other id, when there is at least one
    relevant id. *)
Theorem average_precision_perfect (ids : list string) (rs : gset string) :
  NoDup ids → relevant_first ids rs → (0 < size rs)%nat →
  ∃ q : Q, average_precision ids rs = Ok q ∧ (q == 1)%Q.
Proof.
  intros Hnd Hfirst Hsize.
  destruct (relevant_first_positions ids rs Hnd Hfirst) as [Hlen Hpos].
  destruct (average_precision_value ids rs) as (q & Hq & _ & Hval).
  exists q. split; [done|].
  assert (Hhits : ∀ r, (r ≤ size rs)%nat → hits_in_first ids rs r = r).
  { intros r Hr. apply hits_in_first_all. intros i Hi. apply Hpos. lia. }
  assert (Hranks : hit_ranks ids rs = seq 1 (size rs)).
  { unfold hit_ranks.
    replace (length ids) with (size rs + (length ids - size rs))%nat by lia.
    rewrite seq_app, filter_app.
    rewrite filter_all by (intros r Hr%elem_of_seq; apply Hpos; lia).
    rewrite filter_none by (intros r Hr%elem_of_seq Hx%Hpos; lia).
    apply app_nil_r. }
  rewrite Hval.
  - unfold ap_sum. rewrite Hranks, Qsum_ones.
    + rewrite length_seq. apply Qmult_inv_r. intros Hz.
      assert (inject_Z (Z.of_nat (size rs)) == inject_Z 0)%Q as Hz' by exact Hz.
      apply (proj1 (inject_Z_injective _ _)) in Hz'. lia.
    + intros r Hr%elem_of_seq. unfold prec_at. rewrite Hhits by lia.
      apply Qmult_inv_r. intros Hz.
      assert (inject_Z (Z.of_nat r) == inject_Z 0)%Q as Hz' by exact Hz.
      apply (proj1 (inject_Z_injective _ _)) in Hz'. lia.
  - intros Hz. destruct (proj2 (Hpos 0%nat) Hsize) as (d & Hd & Hr).
    eapply (proj1 (hits_total_zero_iff ids rs) Hz); [|exact Hr].
    by eapply list_elem_of_lookup_2.
Qed.

Lemma average_precision_perfect_witness :
  NoDup ["a"] ∧ relevant_first ["a"] {["a"]} ∧ (0 < size ({["a"]} : gset string))%nat ∧
  ∃ q : Q, average_precision ["a"] {["a"]} = Ok q ∧ (q == 1)%Q.
Proof.
  assert (Hnd : NoDup ["a"]) by (apply (bool_decide_unpack _); by vm_compute).
  assert (Hsz : (0 < size ({["a"]} : gset string))%nat) by (rewrite size_singleton; lia).
  split; [exact Hnd|]. split; [apply relevant_first_single|]. split; [exact Hsz|].
  exact (average_precision_perfect ["a"] {["a"]} Hnd relevant_first_single Hsz).
Defined.
End EvalBounds.

(** ** More on the ranker and the feedback *)

(** ** More on the hybrid ranker *)

Module RankerMore.
Import Np Sklearn Preprocess Table Index Ranker RankerSpec NpFacts RankerFacts.

Lemma take_at_forall2 {A} (l xs : list A) (idx : list nat) :
  take_at l idx = Ok xs ↔ Forall2 (λ p x, l !! p = Some x) idx xs.
Proof.
  unfold take_at. split.
  - destruct (mapM _ idx) as [ys|] eqn:E; [|done]. intros [= <-]. by apply mapM_Some_1.
  - intros H. by rewrite (mapM_Some_2 _ _ _ H).
Qed.

Lemma take_at_take {A} (l xs : list A) (idx : list nat) (n : nat) :
  take_at l idx = Ok xs → take_at l (take n idx) = Ok (take n xs).
Proof. rewrite !take_at_forall2. apply Forall2_take. Qed.

Lemma take_at_omap {A} (l xs : list A) (idx : list nat) :
  take_at l idx = Ok xs → omap (λ p, l !! p) idx = xs.
Proof.
  rewrite take_at_forall2. induction 1 as [|p x idx xs Hp _ IH]; [done|].
  cbn [omap list_omap]. rewrite Hp. f_equal. exact IH.
Qed.

Lemma assign3_take (rows : table) (s t e : vec) (n : nat) :
  assign3 (take n rows) (take n s) (take n t) (take n e) = take n (assign3 rows s t e).
Proof.
  revert rows s t e. induction n as [|n IH]; intros rows s t e;
    destruct rows as [|d rows], s as [|x s], t as [|y t], e as [|z e];
    simpl; try done.
  f_equal. apply IH.
Qed.

Lemma r_doc_assign3 (rows : table) (s t e : vec) :
  length rows = length s → length s = length t → length s = length e →
  map r_doc (assign3 rows s t e) = rows.
Proof.
  revert s t e. induction rows as [|d rows IH]; intros [|x s] [|y t] [|z e] H1 H2 H3; try done.
  simpl in *. f_equal. apply IH; lia.
Qed.

Lemma py_prefix_py_prefix {A} (l : list A) (k1 k2 : Z) :
  (0 ≤ k1 ≤ k2)%Z → py_prefix l k1 = take (Z.to_nat k1) (py_prefix l k2).
Proof.
  intros H. rewrite !py_prefix_nonneg by lia. rewrite take_take. f_equal. lia.
Qed.

Section WithLibraries.
Variable argsort : vec → list nat.
Variable nl : nltk.

(** What [fuse_and_rank] computes when it returns. *)
Lemma fuse_and_rank_unfold (docs : table) (tf se : vec) (topk : Z) (lambda_weight : R)
    (rows : list ranked) :
  fuse_and_rank argsort docs tf se topk lambda_weight = Ok rows →
  ∃ scores drows s t e,
    add (scale lambda_weight se) (scale (1 - lambda_weight) tf) = Ok scores ∧
    take_at docs (top_indices argsort scores topk) = Ok drows ∧
    take_at scores (top_indices argsort scores topk) = Ok s ∧
    take_at tf (top_indices argsort scores topk) = Ok t ∧
    take_at se (top_indices argsort scores topk) = Ok e ∧
    rows = assign3 drows s t e.
Proof.
  unfold fuse_and_rank. destruct (add _ _) as [scores|]; [|done]. cbn [rbind].
  unfold iloc.
  destruct (take_at docs _) as [drows|] eqn:Hd; [|done]. cbn [rbind].
  destruct (take_at scores _) as [s|] eqn:Hs; [|done]. cbn [rbind].
  destruct (take_at tf _) as [t|] eqn:Ht; [|done]. cbn [rbind].
  destruct (take_at se _) as [e|] eqn:He; [|done]. cbn [rbind].
  intros [= <-]. by exists scores, drows, s, t, e.
Qed.

Lemma fuse_and_rank_prefix (docs : table) (tf se : vec) (k1 k2 : Z) (lambda_weight : R)
    (rows : list ranked) :
  (0 ≤ k1 ≤ k2)%Z →
  fuse_and_rank argsort docs tf se k2 lambda_weight = Ok rows →
  fuse_and_rank argsort docs tf se k1 lambda_weight = Ok (take (Z.to_nat k1) rows).
Proof.
  intros Hk (scores & drows & s & t & e & Hadd & Hd & Hs & Ht & He & ->)%fuse_and_rank_unfold.
  unfold fuse_and_rank, iloc. rewrite Hadd. cbn [rbind].
  unfold top_indices in *. rewrite (py_prefix_py_prefix _ k1 k2 Hk).
  rewrite (take_at_take _ _ _ _ Hd), (take_at_take _ _ _ _ Hs),
    (take_at_take _ _ _ _ Ht), (take_at_take _ _ _ _ He). cbn [rbind].
  by rewrite assign3_take.
Qed.

(** X5.  Asking [hybrid_search] for fewer results returns a prefix of the
    longer answer: for [0 <= k1 <= k2], the result for [topk = k1] is the first
    [k1] rows of the result for [topk = k2], scores included.  This holds for
    any [argsort]. *)
Theorem hybrid_search_topk_prefix (lex : lexical_index) (sem : semantic_index)
    (query : string) (k1 k2 : Z) (lambda_weight : R) (rows : list ranked) :
  (0 ≤ k1 ≤ k2)%Z →
  hybrid_search argsort nl lex sem query k2 lambda_weight = Ok rows →
  hybrid_search argsort nl lex sem query k1 lambda_weight = Ok (take (Z.to_nat k1) rows).
Proof.
  intros Hk. unfold hybrid_search.
  destruct (negb _); [done|].
  destruct (cosine_similarity _ (X lex)) as [tf|]; [|done]. cbn [rbind].
  destruct (cosine_similarity _ (emb_matrix sem)) as [se|]; [|done]. cbn [rbind].
  by apply fuse_and_rank_prefix.
Qed.

End WithLibraries.

Lemma hybrid_search_topk_prefix_witness :
  (0 ≤ 1 ≤ 2)%Z ∧
  ∃ rows,
    hybrid_search argsort_stable Sample.nl Sample.lex Sample.sem "stress" 2 LAMBDA = Ok rows ∧
    hybrid_search argsort_stable Sample.nl Sample.lex Sample.sem "stress" 1 LAMBDA
    = Ok (take 1 rows).
Proof.
  split; [lia|].
  destruct (hybrid_search_scores argsort_stable Sample.nl Sample.lex Sample.sem "stress" 2
              LAMBDA sample_lex_wf sample_sem_wf eq_refl)
    as (tf & se & _ & _ & Hltf & Hlse & Heq).
  destruct (fuse_and_rank_total argsort_stable argsort_stable_spec (docs Sample.lex)
              tf se 2 LAMBDA Hltf Hlse) as [rows Hrows].
  exists rows. rewrite Heq. split; [exact Hrows|].
  apply (hybrid_search_topk_prefix argsort_stable Sample.nl Sample.lex Sample.sem "stress"
           1 2 LAMBDA rows); [lia|].
  rewrite Heq. exact Hrows.
Defined.

Section Contract.
Variable argsort : vec → list nat.
Variable nl : nltk.
Hypothesis argsort_spec : ∀ a, is_argsort a (argsort a).

Lemma top_indices_count (scores : vec) (topk : Z) :
  (0 ≤ topk)%Z →
  length (top_indices argsort scores topk) = (Z.to_nat topk `min` length scores)%nat.
Proof.
  intros Hk. unfold top_indices. rewrite py_prefix_nonneg by done.
  rewrite length_take, (is_argsort_length _ _ (argsort_spec _)).
  unfold neg. by rewrite length_map.
Qed.

Lemma top_indices_all (scores : vec) (topk : Z) :
  (Z.of_nat (length scores) ≤ topk)%Z →
  top_indices argsort scores topk ≡ₚ seq 0 (length scores).
Proof.
  intros Hk. unfold top_indices. rewrite py_prefix_nonneg by lia.
  destruct (argsort_spec (neg scores)) as [Hperm _].
  pose proof (is_argsort_length _ _ (argsort_spec (neg scores))) as Hlen.
  unfold neg in *. rewrite length_map in *.
  rewrite take_ge by lia. exact Hperm.
Qed.

Lemma omap_lookup_seq {A} (l : list A) : omap (λ p, l !! p) (seq 0 (length l)) = l.
Proof.
  induction l as [|x l IH] using rev_ind; [done|].
  rewrite length_app, Nat.add_1_r, seq_S. simpl.
  assert (Hsnoc : ∀ (k1 k2 : list nat), omap (λ p, (l ++ [x]) !! p) (k1 ++ k2)
            = omap (λ p, (l ++ [x]) !! p) k1 ++ omap (λ p, (l ++ [x]) !! p) k2).
  { intros k1 k2. induction k1 as [|p k1 IHk]; [done|]. cbn [omap list_omap app].
    simpl. destruct ((l ++ [x]) !! p); simpl; by rewrite IHk. }
  rewrite Hsnoc. cbn [omap list_omap]. rewrite list_lookup_middle by done. f_equal.
  rewrite <- IH at 2. clear. induction (seq 0 (length l)) as [|p k IH] eqn:E in |- *; [done|].
  assert (Hext : ∀ k : list nat, Forall (λ p, p < length l)%nat k →
            omap (λ p, (l ++ [x]) !! p) k = omap (λ p, l !! p) k).
  { clear. induction 1 as [|p k Hp _ IH]; [done|]. cbn [omap list_omap].
    rewrite lookup_app_l by done. by rewrite IH. }
  apply Hext. rewrite <- E. apply Forall_forall. intros q Hq%elem_of_seq. lia.
Qed.

(** X4.  On a well-formed pair of indexes of equal length and for [topk >= 0],
    [hybrid_search] returns exactly [min(topk, number of documents)] rows; when
    [topk] is at least the number of documents the returned rows are the whole
    document table, reordered. *)
Theorem hybrid_search_row_count (lex : lexical_index) (sem : semantic_index)
    (query : string) (topk : Z) (lambda_weight : R) :
  lexical_wf lex → semantic_wf sem → length (docs lex) = length (docs2 sem) →
  (0 ≤ topk)%Z →
  ∃ rows,
    hybrid_search argsort nl lex sem query topk lambda_weight = Ok rows ∧
    length rows = (Z.to_nat topk `min` length (docs lex))%nat ∧
    ((Z.of_nat (length (docs lex)) ≤ topk)%Z → map r_doc rows ≡ₚ docs lex).
Proof.
  intros Hlex Hsem Hlen Hk.
  destruct (hybrid_search_scores argsort nl lex sem query topk lambda_weight Hlex Hsem Hlen)
    as (tf & se & _ & _ & Hltf & Hlse & ->).
  destruct (fuse_and_rank_total argsort argsort_spec (docs lex) tf se topk lambda_weight
              Hltf Hlse) as [rows Hrows].
  exists rows. split; [done|].
  apply fuse_and_rank_unfold in Hrows
    as (scores & drows & s & t & e & Hadd & Hd & Hs & Ht & He & ->).
  rewrite add_same_length in Hadd
    by (unfold scale; rewrite !length_map; by rewrite Hltf, Hlse).
  injection Hadd as <-.
  set (scores := zip_with Rplus _ _) in *.
  assert (Hlsc : length scores = length (docs lex)).
  { unfold scores, scale. rewrite length_zip_with, !length_map. lia. }
  pose proof (take_at_length _ _ _ Hd) as L1. pose proof (take_at_length _ _ _ Hs) as L2.
  pose proof (take_at_length _ _ _ Ht) as L3. pose proof (take_at_length _ _ _ He) as L4.
  split.
  - rewrite assign3_length_eq by lia. rewrite L1, top_indices_count by done. by rewrite Hlsc.
  - intros Hall. rewrite r_doc_assign3 by lia.
    rewrite <- (take_at_omap _ _ _ Hd).
    rewrite (top_indices_all scores topk) by lia.
    rewrite Hlsc. by rewrite omap_lookup_seq.
Qed.

End Contract.

Lemma hybrid_search_row_count_witness :
  (∀ a, is_argsort a (argsort_stable a)) ∧
  lexical_wf Sample.lex ∧ semantic_wf Sample.sem ∧
  length (docs Sample.lex) = length (docs2 Sample.sem) ∧ (0 ≤ 5)%Z ∧
  ∃ rows,
    hybrid_search argsort_stable Sample.nl Sample.lex Sample.sem "stress" 5 LAMBDA = Ok rows ∧
    length rows = 2%nat.
Proof.
  split; [apply argsort_stable_spec|]. split; [apply sample_lex_wf|].
  split; [apply sample_sem_wf|]. split; [done|]. split; [lia|].
  destruct (hybrid_search_row_count argsort_stable Sample.nl argsort_stable_spec
              Sample.lex Sample.sem "stress" 5 LAMBDA sample_lex_wf sample_sem_wf eq_refl)
    as (rows & Hrows & Hlen & _); [lia|].
  exists rows. split; [exact Hrows | exact Hlen].
Defined.

(** *** Score ranges *)

Lemma dot_am_gm (a b : vec) :
  (2 * dot a b <= dot a a + dot b b)%R ∧ (- (dot a a + dot b b) <= 2 * dot a b)%R.
Proof.
  revert b. induction a as [|x a IH]; intros [|y b].
  - unfold dot. simpl. lra.
  - pose proof (dot_nonneg b) as Hb. unfold dot in *. simpl. split; nra.
  - pose proof (dot_nonneg a) as Ha. unfold dot in *. simpl. split; nra.
  - destruct (IH b) as [H1 H2]. unfold dot in *. simpl.
    pose proof (Rle_0_sqr (x - y)) as Hm. pose proof (Rle_0_sqr (x + y)) as Hp.
    unfold Rsqr in Hm, Hp. split; lra.
Qed.

Lemma dot_l2_normalize (v : vec) : (dot (l2_normalize v) (l2_normalize v) <= 1)%R.
Proof.
  unfold l2_normalize. destruct (Req_dec_T (norm v) 0) as [Hz|Hnz].
  - rewrite dot_div_scalar by lra. unfold norm in Hz.
    apply sqrt_eq_0 in Hz; [|apply dot_nonneg]. rewrite Hz. lra.
  - rewrite dot_div_scalar by done. unfold norm in *.
    rewrite sqrt_sqrt by apply dot_nonneg.
    assert (dot v v ≠ 0)%R by (intros E; apply Hnz; rewrite E; apply sqrt_0).
    right. by field.
Qed.

(** Every cosine similarity lies in [[-1, 1]]. *)
Lemma cosine_similarity_range (q : vec) (M : matrix) (s : vec) :
  cosine_similarity q M = Ok s → Forall (λ x, -1 <= x <= 1)%R s.
Proof.
  unfold cosine_similarity. destruct M as [|r M]; [done|].
  destruct (forallb _ _); [|done]. intros [= <-].
  apply Forall_forall. intros x Hx.
  change (x ∈ map (λ row, dot (l2_normalize q) (l2_normalize row)) (r :: M)) in Hx.
  apply list_elem_of_In, in_map_iff in Hx as (row & <- & _).
  pose proof (dot_am_gm (l2_normalize q) (l2_normalize row)) as [H1 H2].
  pose proof (dot_l2_normalize q). pose proof (dot_l2_normalize row). lra.
Qed.

Section Ranges.
Variable argsort : vec → list nat.
Variable nl : nltk.

(** X6.  Every row that [hybrid_search] returns on well-formed indexes with
    [0 <= lambda_weight <= 1] has [tf_score] and [sem_score] in [[-1, 1]], and a
    fused [score] between the smaller and the larger of the two, hence in
    [[-1, 1]] as well (floats idealised as reals). *)
Theorem hybrid_search_score_range (lex : lexical_index) (sem : semantic_index)
    (query : string) (topk : Z) (lambda_weight : R) (rows : list ranked) (r : ranked) :
  lexical_wf lex → semantic_wf sem → (0 <= lambda_weight <= 1)%R →
  hybrid_search argsort nl lex sem query topk lambda_weight = Ok rows → r ∈ rows →
  (-1 <= tf_score r <= 1)%R ∧ (-1 <= sem_score r <= 1)%R ∧
  (Rmin (tf_score r) (sem_score r) <= score r <= Rmax (tf_score r) (sem_score r))%R ∧
  (-1 <= score r <= 1)%R.
Proof.
  intros Hlex Hsem Hlam Hrun Hr.
  pose proof Hrun as Hrun'. apply hybrid_search_inv in Hrun' as [Hlen _].
  destruct (hybrid_search_scores argsort nl lex sem query topk lambda_weight Hlex Hsem Hlen)
    as (tf & se & Htf & Hse & Hltf & Hlse & Heq).
  rewrite Heq in Hrun.
  apply fuse_and_rank_unfold in Hrun
    as (scores & drows & s & t & e & Hadd & Hd & Hs & Ht & He & ->).
  rewrite add_same_length in Hadd
    by (unfold scale; rewrite !length_map; by rewrite Hltf, Hlse).
  injection Hadd as <-.
  apply list_elem_of_lookup_1 in Hr as [i Hi].
  apply assign3_lookup in Hi as (_ & Hsi & Hti & Hei).
  destruct (take_at_lookup _ _ _ _ _ Hs Hsi) as (p & Hp & Hsp).
  destruct (take_at_lookup _ _ _ _ _ Ht Hti) as (p' & Hp' & Htp).
  destruct (take_at_lookup _ _ _ _ _ He Hei) as (p'' & Hp'' & Hep).
  assert (p' = p) as -> by congruence. assert (p'' = p) as -> by congruence.
  unfold scale in Hsp. rewrite lookup_zip_with, !list_lookup_fmap in Hsp.
  rewrite Htp, Hep in Hsp. simpl in Hsp. injection Hsp as Hscore.
  pose proof (cosine_similarity_range _ _ _ Htf) as Rtf.
  pose proof (cosine_similarity_range _ _ _ Hse) as Rse.
  rewrite Forall_forall in Rtf, Rse.
  pose proof (Rtf _ (list_elem_of_lookup_2 _ _ _ Htp)) as B1.
  pose proof (Rse _ (list_elem_of_lookup_2 _ _ _ Hep)) as B2.
  split; [done|]. split; [done|].
  rewrite <- Hscore. unfold Rmin, Rmax.
  destruct (Rle_dec (tf_score r) (sem_score r)); split; try split; nra.
Qed.

End Ranges.

Lemma hybrid_search_score_range_witness :
  lexical_wf Sample.lex ∧ semantic_wf Sample.sem ∧ (0 <= LAMBDA <= 1)%R ∧
  ∃ rows, hybrid_search argsort_stable Sample.nl Sample.lex Sample.sem "stress" 2 LAMBDA
          = Ok rows ∧
    ∀ r, r ∈ rows → (-1 <= score r <= 1)%R.
Proof.
  assert (Hlam : (0 <= LAMBDA <= 1)%R) by (unfold LAMBDA; lra).
  split; [apply sample_lex_wf|]. split; [apply sample_sem_wf|]. split; [exact Hlam|].
  destruct (hybrid_search_scores argsort_stable Sample.nl Sample.lex Sample.sem "stress" 2
              LAMBDA sample_lex_wf sample_sem_wf eq_refl)
    as (tf & se & _ & _ & Hltf & Hlse & Heq).
  destruct (fuse_and_rank_total argsort_stable argsort_stable_spec (docs Sample.lex)
              tf se 2 LAMBDA Hltf Hlse) as [rows Hrows].
  exists rows. rewrite Heq. split; [exact Hrows|]. intros r Hr.
  apply (hybrid_search_score_range argsort_stable Sample.nl Sample.lex Sample.sem "stress" 2
           LAMBDA rows r sample_lex_wf sample_sem_wf Hlam); [|exact Hr].
  rewrite Heq. exact Hrows.
Defined.

(** *** The id map of the feedback search *)





Section Feedback.
Variable argsort : vec → list nat.
Variable nl : nltk.





End Feedback.


(** *** Failures of the search *)

Lemma cosine_similarity_dim_error (q : vec) (M : matrix) :
  M = [] ∨ Exists (λ row, length row ≠ length q) M →
  cosine_similarity q M = Raise ValueError.
Proof.
  intros [->|Hex]; [done|]. unfold cosine_similarity.
  destruct M as [|r M]; [done|].
  destruct (forallb _ _) eqn:E; [|done]. exfalso.
  rewrite forallb_forall in E. apply Exists_exists in Hex as (row & Hin & Hne).
  apply Hne, Nat.eqb_eq, E. by apply list_elem_of_In.
Qed.

Section Failures.
Variable argsort : vec → list nat.
Variable nl : nltk.
Hypothesis argsort_spec : ∀ a, is_argsort a (argsort a).

Lemma tfidf_search_total (lex : lexical_index) (query : string) (topk : Z) :
  lexical_wf lex → is_ok (tfidf_search argsort nl lex query topk).
Proof.
  intros (Hne & Hlen & Hdim). unfold tfidf_search.
  rewrite cosine_similarity_ok by done. cbn [rbind].
  set (scores := map _ (X lex)).
  assert (Hls : length scores = length (docs lex)).
  { unfold scores. by rewrite length_map. }
  pose proof (top_indices_bound argsort argsort_spec scores topk) as Hb.
  destruct (take_at_ok scores _ Hb) as [s Hs].
  destruct (take_at_same_length scores (docs lex) (top_indices argsort scores topk) Hls)
    as [rows Hrows]; [by exists s|].
  unfold iloc. rewrite Hrows, Hs. cbn [rbind]. by eexists.
Qed.

(** X8.  On a well-formed lexical index and for [topk >= 0], [tfidf_search]
    returns [min(topk, number of documents)] rows in order of non-increasing
    score; each score is the cosine similarity between the query vector and
    the matrix row at the position of the returned document, and, with
    floats idealised as reals, lies in [[-1, 1]].  (In IEEE doubles the score
    of a document equal to the query can exceed 1 in the last bit.) *)
Theorem tfidf_search_ranked (lex : lexical_index) (query : string) (topk : Z) :
  lexical_wf lex → (0 ≤ topk)%Z →
  ∃ rows,
    tfidf_search argsort nl lex query topk = Ok rows ∧
    length rows = (Z.to_nat topk `min` length (docs lex))%nat ∧
    (∀ i j r1 r2, (i < j)%nat → rows !! i = Some r1 → rows !! j = Some r2 →
       (r2.2 <= r1.2)%R) ∧
    (∀ r, r ∈ rows →
       (-1 <= r.2 <= 1)%R ∧
       ∃ p row, docs lex !! p = Some r.1 ∧ X lex !! p = Some row ∧
         r.2 = dot (l2_normalize (transform lex (normalize_text nl query true)))
                 (l2_normalize row)).
Proof.
  intros (Hne & Hlen & Hdim) Hk. unfold tfidf_search.
  pose proof (cosine_similarity_range (transform lex (normalize_text nl query true)) (X lex))
    as Hrange.
  rewrite cosine_similarity_ok in * by done. cbn [rbind].
  set (qv := transform lex (normalize_text nl query true)) in *.
  set (scores := map _ (X lex)) in *.
  specialize (Hrange scores eq_refl).
  assert (Hls : length scores = length (docs lex)).
  { unfold scores. by rewrite length_map. }
  pose proof (top_indices_bound argsort argsort_spec scores topk) as Hb.
  pose proof (top_indices_count argsort argsort_spec scores topk Hk) as Hcount.
  set (idx := top_indices argsort scores topk) in *.
  destruct (take_at_ok scores idx Hb) as [s Hs].
  destruct (take_at_same_length scores (docs lex) idx Hls) as [rows Hrows]; [by exists s|].
  unfold iloc. rewrite Hrows, Hs. cbn [rbind].
  apply take_at_forall2 in Hs, Hrows.
  pose proof (Forall2_length _ _ _ Hs) as Hl1.
  pose proof (Forall2_length _ _ _ Hrows) as Hl2.
  exists (zip rows s). split; [done|]. split; [|split].
  - rewrite length_zip. lia.
  - intros i j [d1 s1] [d2 s2] Hij Hi Hj. simpl.
    apply lookup_zip_with_Some in Hi as (? & ? & [= <- <-] & _ & Hsi).
    apply lookup_zip_with_Some in Hj as (? & ? & [= <- <-] & _ & Hsj).
    destruct (Forall2_lookup_r _ _ _ _ _ Hs Hsi) as (x & Hx & Hsx).
    destruct (Forall2_lookup_r _ _ _ _ _ Hs Hsj) as (y & Hy & Hsy).
    pose proof (top_indices_descending argsort argsort_spec scores topk i j x y Hij Hx Hy) as H.
    by rewrite (nth_lookup_Some _ _ _ _ Hsx), (nth_lookup_Some _ _ _ _ Hsy) in H.
  - intros [d1 s1] Hin. simpl.
    apply list_elem_of_lookup_1 in Hin as [i Hi].
    apply lookup_zip_with_Some in Hi as (? & ? & [= <- <-] & Hdi & Hsi).
    destruct (Forall2_lookup_r _ _ _ _ _ Hs Hsi) as (x & Hx & Hsx).
    destruct (Forall2_lookup_r _ _ _ _ _ Hrows Hdi) as (x' & Hx' & Hdx).
    assert (x' = x) as -> by congruence.
    split.
    + rewrite Forall_forall in Hrange. apply Hrange. by eapply list_elem_of_lookup_2.
    + unfold scores in Hsx. rewrite list_lookup_fmap in Hsx.
      destruct (X lex !! x) as [row|] eqn:Hrow; [|done]. injection Hsx as <-.
      by exists x, row.
Qed.

(** X7.  [hybrid_search] needs a usable embedding matrix whatever the weight:
    with an empty embedding matrix, or one with a row whose dimension differs
    from the query embedding's, it raises [ValueError] for every
    [lambda_weight], [lambda_weight = 0] included, on an index on which
    [tfidf_search] succeeds. *)
Theorem hybrid_search_needs_both_indexes (lex : lexical_index) (sem : semantic_index)
    (query : string) (topk : Z) (lambda_weight : R) :
  lexical_wf lex → length (docs lex) = length (docs2 sem) →
  emb_matrix sem = [] ∨
    Exists (λ row, length row ≠ length (encode sem query)) (emb_matrix sem) →
  hybrid_search argsort nl lex sem query topk lambda_weight = Raise ValueError ∧
  is_ok (tfidf_search argsort nl lex query topk).
Proof.
  intros Hlex Hlen Hbad. split; [|by apply tfidf_search_total].
  destruct Hlex as (Hne & _ & Hdim).
  unfold hybrid_search. rewrite (proj2 (Nat.eqb_eq _ _) Hlen). cbn [negb].
  rewrite cosine_similarity_ok by done. cbn [rbind].
  by rewrite cosine_similarity_dim_error.
Qed.

End Failures.

Lemma tfidf_search_ranked_witness :
  (∀ a, is_argsort a (argsort_stable a)) ∧ lexical_wf Sample.lex ∧
  ∃ rows, tfidf_search argsort_stable Sample.nl Sample.lex "stress" 1 = Ok rows ∧
          length rows = 1%nat.
Proof.
  split; [apply argsort_stable_spec|]. split; [apply sample_lex_wf|].
  destruct (tfidf_search_ranked argsort_stable Sample.nl argsort_stable_spec
              Sample.lex "stress" 1 sample_lex_wf ltac:(lia)) as (rows & Hrows & Hl & _).
  exists rows. split; [exact Hrows | exact Hl].
Defined.

Lemma hybrid_search_needs_both_indexes_witness :
  (∀ a, is_argsort a (argsort_stable a)) ∧ lexical_wf Sample.lex ∧
  hybrid_search argsort_stable Sample.nl Sample.lex
    {| emb_matrix := [[1; 0]; [0; 1]]%R; docs2 := docs2 Sample.sem; encode := λ _, [1%R] |}
    "stress" 2 0 = Raise ValueError.
Proof.
  split; [apply argsort_stable_spec|]. split; [apply sample_lex_wf|].
  apply (hybrid_search_needs_both_indexes argsort_stable Sample.nl argsort_stable_spec
           Sample.lex
           {| emb_matrix := [[1; 0]; [0; 1]]%R; docs2 := docs2 Sample.sem;
              encode := λ _, [1%R] |}
           "stress" 2 0 sample_lex_wf); [reflexivity|].
  right. apply Exists_cons_hd. simpl. lia.
Defined.

(** *** Rocchio at its edges *)

(** Both Rocchio functions on well-shaped input: the combined vector [v] is
    what [rocchio_tfidf] returns and what [rocchio_emb] rescales. *)
Lemma rocchio_both (q : vec) (rel nonrel : option matrix) (alpha beta gamma : R) (D : nat) :
  length q = D → shaped D rel → shaped D nonrel →
  ∃ v : vec,
    length v = D ∧
    (∀ j, nth j v 0%R = rocchio_coord alpha beta gamma q rel nonrel j) ∧
    rocchio_tfidf q rel nonrel alpha beta gamma = Ok v ∧
    rocchio_emb q rel nonrel alpha beta gamma = Ok (div_scalar v (norm v + eps)).
Proof.
  intros Hq Hrel Hnonrel.
  assert (Hq' : length (scale alpha q) = D) by (by rewrite length_scale).
  destruct (rocchio_term Rplus iadd D (scale alpha q) beta rel iadd_same_length)
    as (v1 & Hv1 & Hl1 & Hn1); [intros; lra | done | done |].
  destruct (rocchio_term Rminus isub D v1 gamma nonrel isub_same_length)
    as (v2 & Hv2 & Hl2 & Hn2); [intros; lra | done | done |].
  destruct (rocchio_term Rplus add D (scale alpha q) beta rel add_same_length)
    as (w1 & Hw1 & Hm1 & Hp1); [intros; lra | done | done |].
  destruct (rocchio_term Rminus sub D w1 gamma nonrel sub_same_length)
    as (w2 & Hw2 & Hm2 & Hp2); [intros; lra | done | done |].
  assert (w1 = v1) as ->.
  { apply nth_ext_length; [lia|]. intros j. by rewrite Hn1, Hp1. }
  assert (w2 = v2) as ->.
  { apply nth_ext_length; [lia|]. intros j. by rewrite Hn2, Hp2. }
  exists v2. split; [done|]. split.
  { intros j. rewrite Hn2, Hn1, nth_scale. done. }
  split.
  - unfold rocchio_tfidf. rewrite Hv1. cbn [rbind]. by rewrite Hv2.
  - unfold rocchio_emb. rewrite Hw1. cbn [rbind]. by rewrite Hw2.
Qed.

Lemma nth_replicate_default {A} (n j : nat) (d : A) : nth j (replicate n d) d = d.
Proof. revert j. induction n as [|n IH]; intros [|j]; simpl; auto. Qed.

(** X12.  On vectors of one dimension [rocchio_emb] never divides by zero: it
    returns a vector of that dimension whose Euclidean norm is at least 0 and
    strictly below 1, and the zero vector when the Rocchio combination is zero
    in every coordinate (floats idealised as reals). *)
Theorem rocchio_emb_safe (q : vec) (rel nonrel : option matrix) (alpha beta gamma : R)
    (D : nat) :
  length q = D → shaped D rel → shaped D nonrel →
  ∃ w : vec,
    rocchio_emb q rel nonrel alpha beta gamma = Ok w ∧
    length w = D ∧
    (0 <= norm w < 1)%R ∧
    ((∀ j, (j < D)%nat → rocchio_coord alpha beta gamma q rel nonrel j = 0%R) →
       w = replicate D 0%R).
Proof.
  intros Hq Hrel Hnonrel.
  destruct (rocchio_both q rel nonrel alpha beta gamma D Hq Hrel Hnonrel)
    as (v & Hlen & Hcoord & _ & Hemb).
  pose proof (norm_nonneg v) as Hn. pose proof eps_pos as He.
  exists (div_scalar v (norm v + eps)). split; [done|].
  split; [by rewrite length_div_scalar|]. split.
  - rewrite norm_div_scalar by lra. split.
    + apply Rmult_le_pos; [done|]. left. apply Rinv_0_lt_compat. lra.
    + apply (Rmult_lt_reg_r (norm v + eps)); [lra|].
      unfold Rdiv. rewrite Rmult_assoc, Rinv_l by lra. lra.
  - intros Hzero. apply nth_ext_length.
    + by rewrite length_div_scalar, length_replicate.
    + intros j. rewrite nth_div_scalar, nth_replicate_default.
      destruct (decide (j < D)%nat) as [Hj|Hj].
      * rewrite Hcoord, Hzero by done. unfold Rdiv. lra.
      * rewrite (nth_overflow v) by lia. unfold Rdiv. lra.
Qed.

Lemma rocchio_emb_safe_witness :
  length [0; 0]%R = 2%nat ∧ shaped 2 None ∧
  rocchio_emb [0; 0]%R None None ALPHA BETA GAMMA = Ok [0; 0]%R.
Proof.
  split; [done|]. split; [done|].
  destruct (rocchio_emb_safe [0; 0]%R None None ALPHA BETA GAMMA 2 eq_refl I I)
    as (w & Hw & _ & _ & Hzero).
  rewrite Hw. f_equal. apply Hzero.
  intros j Hj. unfold rocchio_coord, mean_coord, ALPHA.
  destruct j as [|[|j]]; [simpl; lra | simpl; lra | lia].
Defined.

(** X13.  With [beta = 0] and [gamma = 0], [rocchio_tfidf] ignores the
    document vectors of matching dimension and returns [alpha * q]; with
    [alpha = 1] it returns the query vector unchanged. *)
Theorem rocchio_tfidf_only_alpha (q : vec) (rel nonrel : option matrix) (alpha : R)
    (D : nat) :
  length q = D → shaped D rel → shaped D nonrel →
  rocchio_tfidf q rel nonrel alpha 0 0 = Ok (scale alpha q) ∧
  rocchio_tfidf q rel nonrel 1 0 0 = Ok q.
Proof.
  intros Hq Hrel Hnonrel.
  assert (H : ∀ a, rocchio_tfidf q rel nonrel a 0 0 = Ok (scale a q)).
  { intros a.
    destruct (rocchio_both q rel nonrel a 0 0 D Hq Hrel Hnonrel)
      as (v & Hlen & Hcoord & -> & _).
    f_equal. apply nth_ext_length; [by rewrite length_scale, Hlen, Hq|].
    intros j. rewrite Hcoord, nth_scale. unfold rocchio_coord. lra. }
  split; [apply H|]. by rewrite H, scale_one.
Qed.

Lemma rocchio_tfidf_only_alpha_witness :
  length [1; 0]%R = 2%nat ∧ shaped 2 (Some [[0; 1]; [1; 1]]%R) ∧ shaped 2 None ∧
  rocchio_tfidf [1; 0]%R (Some [[0; 1]; [1; 1]]%R) None 1 0 0 = Ok [1; 0]%R.
Proof.
  split; [done|]. split; [repeat constructor|]. split; [done|].
  apply (rocchio_tfidf_only_alpha [1; 0]%R (Some [[0; 1]; [1; 1]]%R) None 1 2);
    [done | repeat constructor | done].
Defined.

End RankerMore.

(** ** Loading the lexical index again *)

Module IndexerMore.
Import Np Preprocess Table Index Indexer.

Section WithLibraries.
Variable nl : nltk.
Variable fit_transform : list string → result ((string → vec) * matrix).
Variable csv : Type.
Variable to_csv : table → csv.
Variable read_csv : csv → table.
Variable corpus_df : list corpus_row.

Local Abbreviation build := (build_index nl fit_transform csv to_csv corpus_df).
Local Abbreviation load := (load_index nl fit_transform csv to_csv read_csv corpus_df).

(** X18.  Once [load_index] has succeeded, all three index files exist and
    hold the returned vectorizer and matrix; loading again changes no file and
    returns the same vectorizer and matrix with the document table read from
    the stored CSV.  The first load either read the three files and left them
    as they were, or rebuilt the index from the corpus and wrote all three. *)
Theorem load_index_settles (fs fs1 : files csv) (first : lexical_index) :
  load fs = Ok (fs1, first) →
  ∃ c, docs_path csv fs1 = Some c ∧
    tfidf_path csv fs1 = Some (transform first) ∧
    vec_matrix_path csv fs1 = Some (X first) ∧
    load fs1 = Ok (fs1, {| transform := transform first; X := X first;
                           docs := read_csv c |}) ∧
    (docs first = read_csv c ∧ fs1 = fs ∨
     docs first = map (with_text_norm nl) corpus_df ∧ c = to_csv (docs first) ∧
       build fs = Ok (fs1, first)).
Proof.
  unfold load_index at 1.
  destruct (tfidf_path csv fs) as [v|] eqn:Hv;
    [destruct (vec_matrix_path csv fs) as [M|] eqn:HM;
      [destruct (docs_path csv fs) as [c|] eqn:Hc|]|].
  1: { intros [= <- <-]. exists c. cbn [transform X docs].
       repeat split; try done.
       - unfold load_index. by rewrite Hv, HM, Hc.
       - by left. }
  all: intros Hb; pose proof Hb as Hb'; unfold build_index in Hb;
    destruct (fit_transform _) as [[v' M']|]; [|done]; cbn [rbind] in Hb;
    injection Hb as <- <-; eexists; cbn [transform X docs docs_path tfidf_path vec_matrix_path];
    repeat split; try done; by right.
Qed.

End WithLibraries.

Lemma load_index_settles_witness :
  ∃ fs1 first,
    load_index Sample.nl Sample.fit_counts (list Csv.line) Csv.to_csv Csv.read_csv
      Sample.corpus Sample.no_files = Ok (fs1, first) ∧
    load_index Sample.nl Sample.fit_counts (list Csv.line) Csv.to_csv Csv.read_csv
      Sample.corpus fs1
    = Ok (fs1, {| transform := transform first; X := X first;
                  docs := Csv.read_csv (Csv.to_csv (docs first)) |}).
Proof.
  eexists _, _. split; [reflexivity|].
  destruct (load_index_settles Sample.nl Sample.fit_counts (list Csv.line) Csv.to_csv
              Csv.read_csv Sample.corpus Sample.no_files _ _ eq_refl)
    as (c & Hc & _ & _ & Hload & _).
  injection Hc as <-. exact Hload.
Defined.

End IndexerMore.

(** ** Text normalisation and query suggestions *)

Module PreprocessFacts.
Import Preprocess PreprocessSpec Expand.

Lemma lower_char_idem (c : Ascii.ascii) : lower_char (lower_char c) = lower_char c.
Proof. by destruct c as [[] [] [] [] [] [] [] []]. Qed.

Lemma word_char_lower (c : Ascii.ascii) : word_char (lower_char c) = kept_char (lower_char c).
Proof. by destruct c as [[] [] [] [] [] [] [] []]. Qed.

Lemma string_map_map (f g : Ascii.ascii → Ascii.ascii) (s : string) :
  string_map f (string_map g s) = string_map (λ c, f (g c)) s.
Proof. induction s as [|a s IH]; simpl; [done | by rewrite IH]. Qed.

Lemma string_map_alike (f : Ascii.ascii → Ascii.ascii) (s1 s2 : string) :
  (∀ c1 c2, alike c1 c2 → f c1 = f c2) → alike_text s1 s2 →
  string_map f s1 = string_map f s2.
Proof.
  intros Hf. revert s2. induction s1 as [|c1 s1 IH]; intros [|c2 s2]; simpl; try done.
  intros [Hc Hs]. by rewrite (Hf c1 c2 Hc), (IH s2 Hs).
Qed.

Lemma blank_cleaned (c : Ascii.ascii) :
  blank c →
  (if kept_char (lower_char c) then lower_char c else Ascii.Space) = Ascii.Space.
Proof. intros [->|[-> _]]; [by vm_compute | done]. Qed.

Lemma alike_cleaned (c1 c2 : Ascii.ascii) :
  alike c1 c2 →
  (if kept_char (lower_char c1) then lower_char c1 else Ascii.Space)
  = (if kept_char (lower_char c2) then lower_char c2 else Ascii.Space).
Proof.
  intros [->|[H1 H2]]; [done|]. by rewrite (blank_cleaned c1), (blank_cleaned c2).
Qed.

Lemma alike_text_lower (s : string) : alike_text (string_map lower_char s) s.
Proof.
  induction s as [|c s IH]; simpl; [done|]. split; [|done].
  left. apply lower_char_idem.
Qed.

(** X14.  [normalize_text] and the tokenizer of the query suggester do not
    see letter case or the choice of punctuation: two texts of the same length
    that have, at every position, the same letter in either case, or a space or
    ASCII punctuation mark each, are normalised to the same string and split
    into the same tokens. *)
Theorem normalize_text_alike (nl : nltk) (t1 t2 : string) (do_stem : bool) :
  alike_text t1 t2 →
  normalize_text nl t1 do_stem = normalize_text nl t2 do_stem ∧
  _tokenize_words t1 = _tokenize_words t2.
Proof.
  intros H. unfold normalize_text, _tokenize_words. rewrite !string_map_map.
  rewrite (string_map_alike _ t1 t2 alike_cleaned H).
  split; [done|]. do 2 f_equal.
  apply string_map_alike; [|done].
  intros c1 c2 Hc. rewrite !word_char_lower. by apply alike_cleaned.
Qed.

Lemma normalize_text_alike_witness :
  alike_text "Stress, in Turbines!" "stress. IN turbines?" ∧
  normalize_text Sample.nl "Stress, in Turbines!" true = "stress turbin" ∧
  _tokenize_words "stress. IN turbines?" = ["stress"; "turbines"].
Proof.
  assert (H : alike_text "Stress, in Turbines!" "stress. IN turbines?").
  { simpl. repeat split;
      first [ left; by vm_compute
            | right; split; right; split; first [by vm_compute | vm_compute; lia] ]. }
  split; [exact H|].
  destruct (normalize_text_alike Sample.nl _ _ true H) as [H1 H2].
  split.
  - rewrite H1. by vm_compute.
  - rewrite <- H2. by vm_compute.
Defined.

End PreprocessFacts.

Module ExpandFacts.
Import Np Preprocess Expand ExpandSpec NpFacts.

(** *** Tokens *)

Lemma chars_rev_app (s1 s2 : string) :
  String.list_ascii_of_string (String.rev_app s1 s2)
  = rev (String.list_ascii_of_string s1) ++ String.list_ascii_of_string s2.
Proof.
  revert s2. induction s1 as [|a s1 IH]; intros s2; simpl; [done|].
  rewrite IH. simpl. by rewrite <- app_assoc.
Qed.

Lemma chars_string_map (f : Ascii.ascii → Ascii.ascii) (s : string) :
  String.list_ascii_of_string (string_map f s) = map f (String.list_ascii_of_string s).
Proof. induction s as [|a s IH]; simpl; [done | by rewrite IH]. Qed.

(** Every character of a word is a character of the text that is not white
    space. *)
Lemma words_go_chars (s : string) (cur : option string) (w : string) (c : Ascii.ascii) :
  (∀ u, cur = Some u → Forall (λ c, Ascii.is_space c = false) (String.list_ascii_of_string u)) →
  w ∈ String.words_go cur s → c ∈ String.list_ascii_of_string w →
  Ascii.is_space c = false ∧
  (c ∈ String.list_ascii_of_string s ∨
   ∃ u, cur = Some u ∧ c ∈ String.list_ascii_of_string u).
Proof.
  revert cur. induction s as [|a s IH]; intros cur Hcur Hw Hc; simpl in Hw.
  - destruct cur as [u|]; simpl in Hw; [|exfalso; exact (not_elem_of_nil _ Hw)].
    apply list_elem_of_singleton in Hw as ->.
    unfold String.rev in Hc. rewrite chars_rev_app, app_nil_r in Hc.
    apply list_elem_of_In, in_rev, list_elem_of_In in Hc. split.
    + specialize (Hcur u eq_refl). rewrite Forall_forall in Hcur. by apply Hcur.
    + right. by exists u.
  - destruct (Ascii.is_space a) eqn:Ha.
    + apply elem_of_app in Hw as [Hw|Hw].
      * destruct cur as [u|]; simpl in Hw; [|exfalso; exact (not_elem_of_nil _ Hw)].
        apply list_elem_of_singleton in Hw as ->.
        unfold String.rev in Hc. rewrite chars_rev_app, app_nil_r in Hc.
        apply list_elem_of_In, in_rev, list_elem_of_In in Hc. split.
        -- specialize (Hcur u eq_refl). rewrite Forall_forall in Hcur. by apply Hcur.
        -- right. by exists u.
      * destruct (IH None) as [H1 [H2|(u & Hu & _)]]; [done | done | done | | done].
        split; [done|]. left. simpl. by right.
    + assert (Hcur' : ∀ u, Some (from_option (String.String a) (String.String a "") cur) = Some u →
                Forall (λ c, Ascii.is_space c = false) (String.list_ascii_of_string u)).
      { intros u Hu. injection Hu as <-. destruct cur as [u'|]; simpl.
        - constructor; [done|]. by apply Hcur.
        - by constructor. }
      destruct (IH _ Hcur' Hw Hc) as [H1 [H2|(u & Hu & H2)]].
      * split; [done|]. left. simpl. by right.
      * split; [done|]. injection Hu as <-.
        destruct cur as [u|]; simpl in H2.
        -- apply elem_of_cons in H2 as [->|H2]; [left; simpl; by left|].
           right. by exists u.
        -- apply elem_of_cons in H2 as [->|H2]; [left; simpl; by left|].
           exfalso; exact (not_elem_of_nil _ H2).
Qed.

Lemma cleaned_alnum (c : Ascii.ascii) :
  let c' := if word_char (lower_char c) then lower_char c else Ascii.Space in
  Ascii.is_space c' = false →
  (97 ≤ Ascii.nat_of_ascii c' ≤ 122 ∨ 48 ≤ Ascii.nat_of_ascii c' ≤ 57)%nat.
Proof.
  destruct c as [[] [] [] [] [] [] [] []]; intros c'; vm_compute; intros H;
    first [ discriminate H | left; lia | right; lia ].
Qed.

(** X15.  Every token that [_tokenize_words] returns has at least three
    characters, is not a stop word, and consists of the characters [a-z] and
    [0-9] only. *)
Theorem tokenize_words_tokens (text t : string) :
  t ∈ _tokenize_words text →
  (3 ≤ String.length t)%nat ∧ (t ∉ STOPWORDS) ∧
  Forall (λ c, (97 ≤ Ascii.nat_of_ascii c ≤ 122 ∨ 48 ≤ Ascii.nat_of_ascii c ≤ 57)%nat)
    (String.list_ascii_of_string t).
Proof.
  unfold _tokenize_words. intros [(_ & Hstop & Hlen) Hw]%list_elem_of_filter.
  split; [lia|]. split; [done|].
  apply Forall_forall. intros c Hc.
  destruct (words_go_chars _ None t c ltac:(done) Hw Hc) as [Hsp [Hin|(u & Hu & _)]];
    [|done].
  rewrite chars_string_map, chars_string_map in Hin.
  apply list_elem_of_fmap in Hin as (c1 & -> & Hin).
  apply list_elem_of_fmap in Hin as (c0 & -> & _).
  by apply cleaned_alnum.
Qed.

Lemma tokenize_words_tokens_witness :
  "turbine" ∈ _tokenize_words "The Turbine-Blade, of a jet" ∧
  (3 ≤ String.length "turbine")%nat.
Proof.
  assert (H : "turbine" ∈ _tokenize_words "The Turbine-Blade, of a jet").
  { apply (bool_decide_unpack _). by vm_compute. }
  split; [exact H|]. exact (proj1 (tokenize_words_tokens _ _ H)).
Defined.

(** *** Candidate phrases *)

Lemma string_length_app (s1 s2 : string) :
  String.length (s1 +:+ s2) = (String.length s1 + String.length s2)%nat.
Proof. induction s1 as [|a s1 IH]; simpl; [done | by rewrite IH]. Qed.

Lemma concat_length_ge (sep x : string) (l : list string) :
  (String.length x ≤ String.length (String.concat sep (x :: l)))%nat.
Proof.
  destruct l as [|y l]; [done|].
  change (String.concat sep (x :: y :: l)) with (x +:+ (sep +:+ String.concat sep (y :: l))).
  rewrite string_length_app. lia.
Qed.

(** The length test of the inner loop never fires. *)
Lemma phrase_length (text : string) (n i : nat) :
  (1 ≤ n)%nat → (i < length (_tokenize_words text) + 1 - n)%nat →
  (String.length (String.concat " " (take n (drop i (_tokenize_words text)))) <? 3)%nat
  = false.
Proof.
  intros Hn Hi. apply Nat.ltb_ge.
  destruct (drop i (_tokenize_words text)) as [|t rest] eqn:E.
  { apply (f_equal length) in E. rewrite length_drop in E. simpl in E. lia. }
  destruct n as [|n]; [lia|]. cbn [take].
  assert (Ht : t ∈ _tokenize_words text).
  { apply (list_elem_of_lookup_2 _ i). rewrite <- (Nat.add_0_r i), <- lookup_drop.
    by rewrite E. }
  unfold _tokenize_words in Ht. apply list_elem_of_filter in Ht as [(_ & _ & Hlen) _].
  pose proof (concat_length_ge " " t (take n rest)). lia.
Qed.

Lemma foldl_ext_in {A B} (f g : A → B → A) (l : list B) (a : A) :
  (∀ a x, x ∈ l → f a x = g a x) → foldl f a l = foldl g a l.
Proof.
  revert a. induction l as [|x l IH]; intros a H; simpl; [done|].
  rewrite H by (by left). apply IH. intros a' y Hy. apply H. by right.
Qed.

Lemma foldl_bind {A B C} (f : A → B → A) (g : C → list B) (l : list C) (a : A) :
  foldl f a (l ≫= g) = foldl (λ a x, foldl f a (g x)) a l.
Proof.
  revert a. induction l as [|x l IH]; intros a; simpl; [done|].
  by rewrite foldl_app, IH.
Qed.

(** The three nested loops add the phrases one by one. *)
Lemma extract_counter (texts : list string) (min_freq max_ngram : Z) :
  (_extract_candidate_phrases texts min_freq max_ngram).2
  = foldl incr [] (all_phrases texts max_ngram).
Proof.
  unfold _extract_candidate_phrases, all_phrases. cbn [snd].
  rewrite foldl_bind. generalize (@nil (string * nat)).
  induction texts as [|t texts IH]; intros c; simpl; [done|].
  rewrite <- IH. f_equal. unfold phrases_of. rewrite foldl_bind.
  apply foldl_ext_in. intros c' n Hn. apply elem_of_seq in Hn.
  unfold windows. rewrite <- list_fmap_compose, foldl_fmap.
  apply foldl_ext_in. intros c'' i Hi. apply elem_of_seq in Hi. simpl.
  by rewrite phrase_length by lia.
Qed.

Lemma count_of_incr (c : list (string * nat)) (k p : string) :
  count_of (incr c k) p = (count_of c p + (if decide (k = p) then 1 else 0))%nat.
Proof.
  induction c as [|[k' n] c IH]; simpl.
  - destruct (decide (k = p)); lia.
  - destruct (decide (k' = k)) as [->|Hne]; simpl.
    + destruct (decide (k = p)); lia.
    + destruct (decide (k' = p)) as [->|]; [|done].
      rewrite decide_False by done. lia.
Qed.

Lemma count_of_foldl_incr (ps : list string) (c : list (string * nat)) (p : string) :
  count_of (foldl incr c ps) p = (count_of c p + occurrences p ps)%nat.
Proof.
  revert c. induction ps as [|q ps IH]; intros c; simpl; [unfold occurrences; simpl; lia|].
  rewrite IH, count_of_incr. unfold occurrences. rewrite filter_cons.
  destruct (decide (q = p)); simpl; lia.
Qed.

Lemma incr_keys (c : list (string * nat)) (k p : string) :
  p ∈ (incr c k).*1 ↔ p = k ∨ p ∈ c.*1.
Proof.
  induction c as [|[k' n] c IH]; simpl.
  - rewrite list_elem_of_singleton. split; [by left | intros [?|H]; [done|]].
    exfalso; exact (not_elem_of_nil _ H).
  - destruct (decide (k' = k)) as [->|Hne]; simpl; rewrite !elem_of_cons.
    + tauto.
    + rewrite IH. tauto.
Qed.

Lemma incr_wf (c : list (string * nat)) (k : string) : counter_wf c → counter_wf (incr c k).
Proof.
  intros [Hnd Hpos]. induction c as [|[k' n] c IH]; simpl.
  - split; [apply NoDup_singleton | by repeat constructor].
  - apply NoDup_cons in Hnd as [Hk' Hnd]. apply Forall_cons in Hpos as [Hn Hpos].
    destruct (decide (k' = k)) as [->|Hne]; simpl.
    + split; [by apply NoDup_cons | constructor; [simpl; lia | done]].
    + destruct (IH Hnd Hpos) as [IH1 IH2]. split; [|by constructor].
      apply NoDup_cons. split; [|done]. rewrite incr_keys. intros [?|?]; [done | by apply Hk'].
Qed.

Lemma foldl_incr_wf (ps : list string) (c : list (string * nat)) :
  counter_wf c → counter_wf (foldl incr c ps).
Proof.
  revert c. induction ps as [|q ps IH]; intros c H; simpl; [done|].
  by apply IH, incr_wf.
Qed.

Lemma count_of_lookup (c : list (string * nat)) (k : string) (n : nat) :
  NoDup c.*1 → (k, n) ∈ c → count_of c k = n.
Proof.
  induction c as [|[k' n'] c IH]; intros Hnd Hin; [exfalso; exact (not_elem_of_nil _ Hin)|].
  simpl in *. apply NoDup_cons in Hnd as [Hk' Hnd].
  apply elem_of_cons in Hin as [[= <- <-]|Hin].
  - by rewrite decide_True.
  - rewrite decide_False; [by apply IH|].
    intros ->. apply Hk'. apply list_elem_of_fmap. by exists (k, n).
Qed.

Lemma count_of_absent (c : list (string * nat)) (k : string) :
  k ∉ c.*1 → count_of c k = 0%nat.
Proof.
  induction c as [|[k' n'] c IH]; intros Hk; simpl; [done|].
  simpl in Hk. apply not_elem_of_cons in Hk as [Hne Hk].
  rewrite decide_False by done. by apply IH.
Qed.

(** *** The stable sort *)

Lemma insert_by_perm (key : string → Z) (x : string) (l : list string) :
  insert_by key x l ≡ₚ x :: l.
Proof.
  induction l as [|y l IH]; simpl; [done|].
  destruct (key x <=? key y)%Z; [done|]. rewrite IH. apply Permutation_swap.
Qed.

Lemma sort_by_perm (key : string → Z) (l : list string) : sort_by key l ≡ₚ l.
Proof.
  induction l as [|x l IH]; simpl; [done|].
  unfold sort_by in IH. by rewrite insert_by_perm, IH.
Qed.

Lemma insert_by_sorted (key : string → Z) (x : string) (l : list string) :
  StronglySorted (λ a b, (key a ≤ key b)%Z) l →
  StronglySorted (λ a b, (key a ≤ key b)%Z) (insert_by key x l).
Proof.
  induction 1 as [|y l Hs IH Hy]; simpl; [by repeat constructor|].
  destruct (key x <=? key y)%Z eqn:E.
  - apply Z.leb_le in E. constructor; [by constructor|].
    constructor; [done|]. eapply Forall_impl; [exact Hy|]. simpl. intros. lia.
  - apply Z.leb_gt in E. constructor; [done|].
    rewrite insert_by_perm. constructor; [lia | done].
Qed.

Lemma sort_by_sorted (key : string → Z) (l : list string) :
  StronglySorted (λ a b, (key a ≤ key b)%Z) (sort_by key l).
Proof.
  induction l as [|x l IH]; simpl; [constructor|]. by apply insert_by_sorted.
Qed.

(** X16.  [_extract_candidate_phrases]: the counter gives every phrase the
    number of windows of 1 to [max_ngram] consecutive tokens that spell it, so
    the length test in the loop never skips a window; the candidates are
    pairwise distinct, they are exactly the phrases counted at least once and
    at least [min_freq] times, and they are listed by non-increasing count. *)
Theorem extract_candidate_phrases_spec (texts : list string) (min_freq max_ngram : Z) :
  let '(candidates, counter) := _extract_candidate_phrases texts min_freq max_ngram in
  (∀ p, count_of counter p = occurrences p (all_phrases texts max_ngram)) ∧
  NoDup candidates ∧
  (∀ p, p ∈ candidates ↔
        (1 ≤ count_of counter p)%nat ∧ (min_freq ≤ Z.of_nat (count_of counter p))%Z) ∧
  (∀ i j p q, (i < j)%nat → candidates !! i = Some p → candidates !! j = Some q →
        (count_of counter q ≤ count_of counter p)%nat).
Proof.
  pose proof (extract_counter texts min_freq max_ngram) as Hc.
  destruct (_extract_candidate_phrases texts min_freq max_ngram) as [cands counter] eqn:E.
  cbn [snd] in Hc.
  assert (Hcands : cands = sort_by (λ x, (- Z.of_nat (count_of counter x))%Z)
            (filter (λ pc, (min_freq ≤ Z.of_nat pc.2)%Z) counter).*1).
  { unfold _extract_candidate_phrases in E. injection E as E1 E2. by rewrite <- E1, E2. }
  clear E.
  assert (Hwf : counter_wf counter).
  { rewrite Hc. apply foldl_incr_wf. split; [constructor | constructor]. }
  destruct Hwf as [Hnd Hpos].
  split; [|split; [|split]].
  - intros p. rewrite Hc, count_of_foldl_incr. simpl. lia.
  - rewrite Hcands, sort_by_perm. apply NoDup_fmap_fst.
    + intros k n1 n2 [_ H1]%list_elem_of_filter [_ H2]%list_elem_of_filter.
      by rewrite <- (count_of_lookup counter k n1), <- (count_of_lookup counter k n2).
    + apply NoDup_filter. by apply NoDup_fmap_1 in Hnd.
  - intros p. rewrite Hcands, sort_by_perm, list_elem_of_fmap. split.
    + intros ([k n] & -> & [Hn Hin]%list_elem_of_filter). simpl in *.
      rewrite (count_of_lookup counter k n) by done.
      rewrite Forall_forall in Hpos. split; [exact (Hpos _ Hin) | done].
    + intros [H1 H2].
      destruct (decide (p ∈ counter.*1)) as [Hin|Hout].
      * apply list_elem_of_fmap in Hin as ([k n] & -> & Hin). simpl in *.
        exists (k, n). split; [done|]. apply list_elem_of_filter. split; [|done].
        simpl. by rewrite <- (count_of_lookup counter k n).
      * rewrite count_of_absent in H1 by done. lia.
  - intros i j p q Hij Hi Hj.
    pose proof (sort_by_sorted (λ x, (- Z.of_nat (count_of counter x))%Z)
                  (filter (λ pc, (min_freq ≤ Z.of_nat pc.2)%Z) counter).*1) as Hs.
    rewrite <- Hcands in Hs.
    pose proof (StronglySorted_lookup _ _ i j p q Hs Hij Hi Hj) as H. simpl in H. lia.
Qed.

(** *** Selection *)

Lemma for_each_Forall2 {A B} (f : A → result B) (l : list A) :
  (∀ x, x ∈ l → is_ok (f x)) →
  ∃ ys, for_each f l = Ok ys ∧ Forall2 (λ x y, f x = Ok y) l ys.
Proof.
  induction l as [|x l IH]; intros H; simpl.
  - exists []. by split.
  - destruct (H x) as [y Hy]; [by left|].
    destruct IH as (ys & Hys & HF); [intros z Hz; apply H; by right|].
    exists (y :: ys). rewrite Hy, Hys. split; [done | by constructor].
Qed.

Lemma item_ok {A} (l : list A) (i : nat) : (i < length l)%nat → is_ok (item l i).
Proof.
  intros Hi. unfold item. destruct (lookup_lt_is_Some_2 l i Hi) as [x ->]. by exists x.
Qed.

Lemma item_Ok {A} (l : list A) (i : nat) (x : A) : item l i = Ok x → l !! i = Some x.
Proof. unfold item. destruct (l !! i); [by intros [= ->] | done]. Qed.

Lemma ext_lt_trans_false (a b c : option R) :
  ext_lt a b = false → ext_lt b c = false → ext_lt a c = false.
Proof.
  destruct a as [x|], b as [y|], c as [z|]; simpl; try done.
  intros H1%Rltb_false H2%Rltb_false.
  unfold Rltb. destruct (Rlt_dec x z); [lra | done].
Qed.

Lemma ext_lt_irrefl (a : option R) : ext_lt a a = false.
Proof.
  destruct a as [x|]; simpl; [|done]. unfold Rltb. destruct (Rlt_dec x x); [lra | done].
Qed.

(** [argmax_from] returns the running best or a later position, and the value
    there is below no value seen. *)
Lemma argmax_from_spec (l : list (option R)) (best : nat) (bv : option R) (i : nat) :
  ∃ v, ((argmax_from best bv i l = best ∧ v = bv) ∨
        (i ≤ argmax_from best bv i l ∧ l !! (argmax_from best bv i l - i)%nat = Some v)%nat) ∧
       ext_lt v bv = false ∧ Forall (λ x, ext_lt v x = false) l.
Proof.
  revert best bv i. induction l as [|x l IH]; intros best bv i; simpl.
  - exists bv. split; [by left|]. split; [apply ext_lt_irrefl | constructor].
  - destruct (ext_lt bv x) eqn:E.
    + destruct (IH i x (S i)) as (v & Hpos & Hv & Hall). exists v. split; [|split].
      * right. destruct Hpos as [[-> ->]|[Hge Hl]].
        -- split; [lia|]. by rewrite Nat.sub_diag.
        -- split; [lia|].
           replace (argmax_from i x (S i) l - i)%nat
             with (S (argmax_from i x (S i) l - S i)) by lia. done.
      * destruct v as [y|], bv as [z|], x as [w|]; simpl in *; try done.
        apply Rltb_true in E. apply Rltb_false in Hv.
        unfold Rltb. destruct (Rlt_dec y z); [lra | done].
      * by constructor.
    + destruct (IH best bv (S i)) as (v & Hpos & Hv & Hall). exists v. split; [|split].
      * destruct Hpos as [[-> ->]|[Hge Hl]]; [by left|]. right. split; [lia|].
        replace (argmax_from best bv (S i) l - i)%nat
          with (S (argmax_from best bv (S i) l - S i)) by lia. done.
      * done.
      * constructor; [|done]. by apply (ext_lt_trans_false v bv x).
Qed.

Lemma argmax_spec (l : list (option R)) :
  l ≠ [] →
  ∃ i v, argmax l = Ok i ∧ l !! i = Some v ∧ Forall (λ x, ext_lt v x = false) l.
Proof.
  destruct l as [|x l]; [done|]. intros _. simpl.
  destruct (argmax_from_spec l 0 x 1) as (v & Hpos & Hv & Hall).
  exists (argmax_from 0 x 1 l), v. split; [done|]. split; [|by constructor].
  destruct Hpos as [[-> ->]|[Hge Hl]]; [done|].
  destruct (argmax_from 0 x 1 l) as [|r]; [lia|]. simpl.
  by replace (S r - 1)%nat with r in Hl by lia.
Qed.

Lemma foldl_snoc_length {A} (l : list A) (x : A) : length (l ++ [x]) = S (length l).
Proof. rewrite length_app. simpl. lia. Qed.

Section Selection.
Variable candidates : list string.
Variable tfidf_scores : gmap string R.
Variable sim_q_c : vec.
Variable sim_c_c : matrix.
Variable k : Z.
Variable mmr_lambda : R.

Local Abbreviation n := (length candidates).

Hypothesis sim_q_c_shape : length sim_q_c = n.
Hypothesis sim_c_c_rows : length sim_c_c = n.
Hypothesis sim_c_c_cols : Forall (λ row, length row = n) sim_c_c.

Lemma combined_relevance_ok :
  ∃ rel_all, combined_relevance candidates tfidf_scores sim_q_c = Ok rel_all ∧
             length rel_all = n.
Proof.
  unfold combined_relevance.
  destruct (for_each_Forall2
    (λ ic : nat * string, let '(i, c) := ic in
       s ←ᵣ item sim_q_c i ;;
       Ok (alpha * s + (1 - alpha) * default 0 (tfidf_scores !! c))%R)
    (zip (seq 0 n) candidates)) as (ys & Hys & HF).
  - intros [i c] Hin. apply elem_of_zip_l in Hin. apply elem_of_seq in Hin.
    destruct (item_ok sim_q_c i) as [s Hs]; [lia|]. rewrite Hs. by eexists.
  - exists ys. split; [exact Hys|]. apply Forall2_length in HF.
    rewrite length_zip, length_seq in HF. lia.
Qed.

Lemma mmr_scores_ok (rel_all : vec) (selected_idxs : list nat) :
  length rel_all = n → Forall (λ i, i < n)%nat selected_idxs →
  ∃ scores, mmr_scores candidates sim_c_c mmr_lambda rel_all selected_idxs = Ok scores ∧
    length scores = n ∧
    ∀ i, (i < n)%nat →
      (i ∈ selected_idxs → scores !! i = Some None) ∧
      (i ∉ selected_idxs → ∃ v, scores !! i = Some (Some v)).
Proof.
  intros Hrel Hsel. unfold mmr_scores.
  set (f := λ i : nat, if decide (i ∈ selected_idxs) then Ok None else _).
  assert (Hf : ∀ i, (i < n)%nat →
            (i ∈ selected_idxs → f i = Ok None) ∧
            (i ∉ selected_idxs → ∃ v, f i = Ok (Some v))).
  { intros i Hi. unfold f. split; intros Hin.
    - by rewrite decide_True.
    - rewrite decide_False by done.
      destruct (item_ok rel_all i) as [rel ->]; [lia|]. cbn [rbind].
      destruct (decide (selected_idxs = [])) as [->|Hne]; [by eexists|].
      destruct (for_each_Forall2 (λ j, row ←ᵣ item sim_c_c i ;; item row j) selected_idxs)
        as (sims & -> & HF).
      { intros j Hj. destruct (item_ok sim_c_c i) as [row Hrow]; [lia|].
        rewrite Hrow. cbn [rbind]. apply item_ok.
        pose proof (proj1 (Forall_forall _ _) sim_c_c_cols) as Hcols.
        pose proof (proj1 (Forall_forall _ _) Hsel) as Hsel'.
        rewrite (Hcols row) by (by eapply list_elem_of_lookup_2, item_Ok).
        by apply Hsel'. }
      cbn [rbind]. apply Forall2_length in HF.
      destruct sims as [|s sims]; [by destruct selected_idxs|]. by eexists. }
  destruct (for_each_Forall2 f (seq 0 n)) as (scores & Hscores & HF).
  { intros i Hi%elem_of_seq. destruct (decide (i ∈ selected_idxs)) as [Hin|Hout].
    - exists None. by apply Hf; [lia|].
    - destruct (proj2 (Hf i ltac:(lia)) Hout) as [v Hv]. by eexists. }
  exists scores. split; [exact Hscores|].
  pose proof (Forall2_length _ _ _ HF) as Hlen. rewrite length_seq in Hlen.
  split; [done|]. intros i Hi.
  destruct (lookup_lt_is_Some_2 scores i ltac:(lia)) as [y Hy].
  assert (Hfi : f i = Ok y).
  { apply (Forall2_lookup_lr _ _ _ i i y HF); [|done]. by apply lookup_seq. }
  split; intros Hin.
  - rewrite (proj1 (Hf i Hi) Hin) in Hfi. by injection Hfi as <-.
  - destruct (proj2 (Hf i Hi) Hin) as [v Hv]. rewrite Hv in Hfi. injection Hfi as <-.
    by exists v.
Qed.

(** With fewer picks than candidates, one candidate is still unpicked. *)
Lemma unselected_exists (selected_idxs : list nat) :
  (length selected_idxs < n)%nat → ∃ i, (i < n)%nat ∧ i ∉ selected_idxs.
Proof.
  intros Hlen.
  destruct (decide (Forall (λ i, i ∈ selected_idxs) (seq 0 n))) as [Hall|Hex].
  - exfalso. rewrite Forall_forall in Hall.
    pose proof (submseteq_length _ _ (NoDup_submseteq _ _ (NoDup_seq 0 n) Hall)) as H.
    rewrite length_seq in H. lia.
  - apply not_Forall_Exists in Hex; [|intros i; apply _].
    apply Exists_exists in Hex as (i & Hi%elem_of_seq & Hout). exists i. split; [lia | done].
Qed.

Lemma mmr_loop_spec (fuel : nat) (rel_all : vec) (selected : list string)
    (selected_idxs : list nat) :
  length rel_all = n → loop_inv candidates selected selected_idxs →
  (n ≤ fuel + length selected)%nat → (length selected ≤ n)%nat →
  ∃ sel idxs, mmr_loop candidates sim_c_c k mmr_lambda fuel rel_all selected selected_idxs
              = Some (Ok sel) ∧
    loop_inv candidates sel idxs ∧
    length sel = (length selected `max` (Z.to_nat k `min` n))%nat.
Proof.
  intros Hrel. revert selected selected_idxs.
  induction fuel as [|fuel IH]; intros selected selected_idxs Hinv Hfuel Hle.
  - simpl. assert (length selected = n) as Hn by lia.
    rewrite Hn, Nat.ltb_irrefl, andb_false_r.
    exists selected, selected_idxs. split; [done|]. split; [done|]. lia.
  - cbn [mmr_loop].
    destruct ((Z.of_nat (length selected) <? k)%Z && (length selected <? n)%nat) eqn:Hc.
    + apply andb_prop in Hc as [Hk%Z.ltb_lt Hn%Nat.ltb_lt].
      destruct Hinv as [Hnd HF2].
      pose proof (Forall2_length _ _ _ HF2) as Hlen.
      assert (Hsel : Forall (λ i, i < n)%nat selected_idxs).
      { apply Forall_forall. intros i Hi.
        apply list_elem_of_lookup_1 in Hi as [p Hp].
        destruct (Forall2_lookup_r _ _ _ _ _ HF2 Hp) as (c & _ & Hc).
        by apply lookup_lt_Some in Hc. }
      destruct (mmr_scores_ok rel_all selected_idxs Hrel Hsel) as (scores & -> & Hls & Hsc).
      destruct (argmax_spec scores) as (next & v & -> & Hnext & Hmax).
      { intros ->. simpl in Hls. lia. }
      assert (Hnlt : (next < n)%nat) by (apply lookup_lt_Some in Hnext; lia).
      assert (Hout : next ∉ selected_idxs).
      { intros Hin. rewrite (proj1 (Hsc next Hnlt) Hin) in Hnext. injection Hnext as <-.
        destruct (unselected_exists selected_idxs) as (i & Hi & Hiout); [lia|].
        destruct (proj2 (Hsc i Hi) Hiout) as [w Hw].
        rewrite Forall_forall in Hmax.
        by specialize (Hmax _ (list_elem_of_lookup_2 _ _ _ Hw)). }
      destruct (item_ok candidates next Hnlt) as [c Hcand]. rewrite Hcand.
      destruct (IH (selected ++ [c]) (selected_idxs ++ [next])) as (sel & idxs & -> & Hinv' & Hl).
      * split.
        -- apply NoDup_app. split; [done|]. split; [|apply NoDup_singleton].
           intros i Hi ->%list_elem_of_singleton. done.
        -- apply Forall2_app; [done|]. constructor; [by apply item_Ok | constructor].
      * rewrite foldl_snoc_length. lia.
      * rewrite foldl_snoc_length. lia.
      * exists sel, idxs. split; [done|]. split; [done|].
        rewrite Hl, foldl_snoc_length. lia.
    + exists selected, selected_idxs. split; [done|]. split; [done|].
      apply andb_false_iff in Hc as [Hk%Z.ltb_ge|Hn%Nat.ltb_ge]; lia.
Qed.

(** X17.  The selection loop of [generate_suggestions], for similarity arrays
    of the shapes cosine similarity gives and at least as much fuel as there
    are candidates: it terminates without an exception and returns
    [max(1, min(k, number of candidates))] suggestions, so one suggestion even
    for [k <= 0]; every suggestion is a candidate, and no suggestion is
    repeated when the candidates are distinct. *)
Theorem mmr_select_spec (fuel : nat) :
  candidates ≠ [] → (n ≤ fuel)%nat →
  ∃ selected,
    mmr_select candidates tfidf_scores sim_q_c sim_c_c k mmr_lambda fuel = Some (Ok selected) ∧
    length selected = (1 `max` (Z.to_nat k `min` n))%nat ∧
    selected ⊆ candidates ∧
    (NoDup candidates → NoDup selected).
Proof.
  intros Hne Hfuel. unfold mmr_select.
  destruct combined_relevance_ok as (rel_all & -> & Hrel).
  assert (Hn : (0 < n)%nat) by (destruct candidates; [done | simpl; lia]).
  rewrite (proj2 (Nat.ltb_lt _ _) Hn).
  destruct (argmax_spec (Some <$> rel_all)) as (first & v & -> & Hfirst & _).
  { destruct rel_all; [simpl in Hrel; lia | done]. }
  assert (Hflt : (first < n)%nat).
  { apply lookup_lt_Some in Hfirst. rewrite length_fmap in Hfirst. lia. }
  destruct (item_ok candidates first Hflt) as [c Hc]. rewrite Hc.
  destruct (mmr_loop_spec fuel rel_all [c] [first] Hrel) as (sel & idxs & -> & [Hnd HF2] & Hl).
  { split; [apply NoDup_singleton|]. constructor; [by apply item_Ok | constructor]. }
  { simpl. lia. }
  { simpl. lia. }
  exists sel. split; [done|]. split; [exact Hl|]. split.
  - intros x Hx. apply list_elem_of_lookup_1 in Hx as [p Hp].
    destruct (Forall2_lookup_l _ _ _ _ _ HF2 Hp) as (i & _ & Hi).
    by eapply list_elem_of_lookup_2.
  - intros Hcand. apply NoDup_alt. intros p q x Hp Hq.
    destruct (Forall2_lookup_l _ _ _ _ _ HF2 Hp) as (i & Hi & Hci).
    destruct (Forall2_lookup_l _ _ _ _ _ HF2 Hq) as (j & Hj & Hcj).
    assert (i = j) as -> by (eapply NoDup_lookup; [exact Hcand | exact Hci | exact Hcj]).
    eapply NoDup_lookup; [exact Hnd | exact Hi | exact Hj].
Qed.

End Selection.

Lemma mmr_select_spec_witness :
  ∃ selected,
    mmr_select ["jet engine"; "turbine"] ∅ [1; 0]%R [[1; 0]; [0; 1]]%R 0 (7 / 10) 2
      = Some (Ok selected) ∧
    length selected = 1%nat.
Proof.
  destruct (mmr_select_spec ["jet engine"; "turbine"] ∅ [1; 0]%R [[1; 0]; [0; 1]]%R 0 (7 / 10)
              eq_refl eq_refl ltac:(by repeat constructor) 2 ltac:(done) ltac:(simpl; lia))
    as (selected & Hsel & Hlen & _).
  exists selected. split; [exact Hsel | exact Hlen].
Defined.

End ExpandFacts.
